(** * Temp-mail bot: registry, address generator, mailbox client and message
      renderer

    A shallow embedding of the Python sources
    [database/mongo_client.py], [email_services/email_generator.py],
    [email/imap_client.py] and [email_services/email_parser.py], followed by
    the properties established about them.

    Conventions.
    - A Python [str] is a list of Unicode code points ([N]).
    - A [datetime] is an integer number of microseconds ([Z]); a [timedelta]
      is a difference of two such numbers.
    - A Python call either returns a value or raises: [outcome A].
    - Calls into libraries whose code is not part of the repository (the
      codec registry, [email.header], [email.utils], the IMAP server) are
      Section variables: every statement holds for all their behaviours. *)

From Stdlib Require Import List ZArith NArith Lia Bool Ascii Arith.
From Stdlib Require String DecimalString.
Import ListNotations.
Import String.StringSyntax.
Open Scope string_scope.
Open Scope list_scope.

(** ** Python strings *)

Module PyStr.

Definition char := N.
Definition str := list char.

(** A string literal of the source, as code points. *)
Definition lit (s : String.string) : str :=
  map N_of_ascii (String.list_ascii_of_string s).

(** A character literal of the source, as a code point. *)
Definition ch (a : ascii) : char := N_of_ascii a.
Arguments ch a%_char.

Definition eqb (a b : str) : bool :=
  if list_eq_dec N.eq_dec a b then true else false.

Definition between (lo hi c : N) : bool := (N.leb lo c && N.leb c hi)%bool.

(** [str.isspace] for one character, which is also the class [\s] of [re]
    on [str] patterns: the code points Python lists as whitespace. *)
Definition isspace (c : char) : bool :=
  (between 9 13 c || between 28 32 c || N.eqb c 133 || N.eqb c 160
   || N.eqb c 5760 || between 8192 8202 c || N.eqb c 8232 || N.eqb c 8233
   || N.eqb c 8239 || N.eqb c 8287 || N.eqb c 12288)%bool.

Definition is_ascii_lower (c : char) : bool := between 97 122 c.
Definition is_ascii_upper (c : char) : bool := between 65 90 c.
Definition is_ascii_digit (c : char) : bool := between 48 57 c.

(** [str.isalnum] for one character.  The table is exact on U+0000..U+00FF
    (ASCII letters and digits, and the Latin-1 letters and numerics:
    feminine/masculine ordinal, micro sign, superscripts, vulgar fractions,
    U+00C0..U+00FF without the multiplication and division signs); code
    points above U+00FF are not tabulated here and read as not
    alphanumeric. *)
Definition isalnum (c : char) : bool :=
  (is_ascii_lower c || is_ascii_upper c || is_ascii_digit c
   || N.eqb c 170 || N.eqb c 178 || N.eqb c 179 || N.eqb c 181
   || N.eqb c 185 || N.eqb c 186 || between 188 190 c
   || between 192 214 c || between 216 246 c || between 248 255 c)%bool.

(** Simple lower-casing of one code point, exact on U+0000..U+00FF. *)
Definition lower1 (c : char) : char :=
  if (is_ascii_upper c || between 192 214 c || between 216 222 c)%bool
  then (c + 32)%N else c.

(** [s.lower()] *)
Definition lower (s : str) : str := map lower1 s.

(** [s.strip()] *)
Fixpoint lstrip (s : str) : str :=
  match s with
  | c :: r => if isspace c then lstrip r else s
  | [] => []
  end.
Definition rstrip (s : str) : str := rev (lstrip (rev s)).
Definition strip (s : str) : str := rstrip (lstrip s).

(** [l[:j]] and [l[i:]] with Python's reading of negative indices. *)
Definition slice_to {A} (l : list A) (j : Z) : list A :=
  if (j <? 0)%Z then firstn (Z.to_nat (Z.of_nat (length l) + j)) l
  else firstn (Z.to_nat j) l.
Definition slice_from {A} (l : list A) (i : Z) : list A :=
  if (i <? 0)%Z then skipn (Z.to_nat (Z.of_nat (length l) + i)) l
  else skipn (Z.to_nat i) l.

(** [not l] *)
Definition is_empty {A} (l : list A) : bool :=
  match l with [] => true | _ => false end.

(** [s.startswith(p)] *)
Fixpoint startswith (p s : str) : bool :=
  match p, s with
  | [], _ => true
  | a :: p', b :: s' => (N.eqb a b && startswith p' s')%bool
  | _ :: _, [] => false
  end.

(** [p in s] *)
Fixpoint contains (p s : str) : bool :=
  (startswith p s ||
   match s with
   | [] => false
   | _ :: s' => contains p s'
   end)%bool.

(** [s.split(sep)[0]] for a one-character separator: the text before the
    first separator, or all of [s]. *)
Fixpoint split_head (sep : char) (s : str) : str :=
  match s with
  | [] => []
  | c :: r => if N.eqb c sep then [] else c :: split_head sep r
  end.

(** [s.split(sep)] for a one-character separator. *)
Fixpoint split (sep : char) (s : str) : list str :=
  match s with
  | [] => [[]]
  | c :: r =>
      if N.eqb c sep then [] :: split sep r
      else match split sep r with
           | h :: t => (c :: h) :: t
           | [] => [[c]]
           end
  end.

(** [sep.join(parts)] *)
Fixpoint join (sep : str) (parts : list str) : str :=
  match parts with
  | [] => []
  | [p] => p
  | p :: rest => p ++ sep ++ join sep rest
  end.

End PyStr.

Import PyStr.

(** ** Exceptions and call outcomes *)

Inductive exn : Type :=
| ConnectionError (msg : str)
| ValueError (msg : str)
| LookupError (msg : str)
| OtherException (msg : str).

(** [str(e)] *)
Definition exn_str (e : exn) : str :=
  match e with
  | ConnectionError m | ValueError m | LookupError m | OtherException m => m
  end.

Definition outcome (A : Type) : Type := (exn + A)%type.

Definition ret {A} (a : A) : outcome A := inr a.
Definition raise {A} (e : exn) : outcome A := inl e.
Definition bind {A B} (c : outcome A) (f : A -> outcome B) : outcome B :=
  match c with
  | inl e => inl e
  | inr a => f a
  end.

(** [try: body except Exception as e: handler(e)] *)
Definition try_except {A} (body : outcome A) (handler : exn -> outcome A)
  : outcome A :=
  match body with
  | inl e => handler e
  | inr a => inr a
  end.

Declare Scope py_scope.
Delimit Scope py_scope with py.
Notation "x <- c ;; k" := (bind c (fun x => k))
  (at level 61, c at next level, right associativity) : py_scope.

(** ** Regular expressions of [re], as the sources use them *)

Module Re.

(** Patterns.  [Rep true a] is the greedy [a*], [Rep false a] the lazy
    [a*?]; [NotAhead a] is [(?!a)]; [Bol] and [Eol] are [^] and [$]
    without [re.MULTILINE]. *)
Inductive re : Type :=
| Eps
| Cls (p : char -> bool)
| Cat (a b : re)
| Alt (a b : re)
| Rep (greedy : bool) (a : re)
| NotAhead (a : re)
| Bol
| Eol.

Definition cont := nat -> str -> option (nat * str).

(** The loop of a repetition whose body is matched by [body]: at most [n]
    further iterations from position [i].  The greedy loop tries another
    iteration before it goes on with [k], the lazy one after; an iteration
    that consumes nothing is not repeated. *)
Fixpoint rep_loop (body : nat -> str -> cont -> option (nat * str))
    (greedy : bool) (k : cont) (n : nat) (i : nat) (s : str)
  : option (nat * str) :=
  match n with
  | O => k i s
  | S n' =>
      let again j t :=
        if i <? j then rep_loop body greedy k n' j t else None in
      if greedy then
        match body i s again with
        | Some x => Some x
        | None => k i s
        end
      else
        match k i s with
        | Some x => Some x
        | None => body i s again
        end
  end.

(** The backtracking matcher: [m r i s k] matches [r] at position [i],
    where [s] is the text from [i] on, and hands the position and text
    after the match to the continuation [k]; the first success in the
    order of Python's engine (left alternative first, greedy repetition
    longest first, lazy repetition shortest first) is the result. *)
Fixpoint m (r : re) (i : nat) (s : str) (k : cont) {struct r}
  : option (nat * str) :=
  match r with
  | Eps => k i s
  | Cls p =>
      match s with
      | c :: s' => if p c then k (S i) s' else None
      | [] => None
      end
  | Cat a b => m a i s (fun j t => m b j t k)
  | Alt a b =>
      match m a i s k with
      | Some x => Some x
      | None => m b i s k
      end
  | Rep greedy a => rep_loop (m a) greedy k (length s) i s
  | NotAhead a =>
      match m a i s (fun j t => Some (j, t)) with
      | Some _ => None
      | None => k i s
      end
  | Bol => if i =? 0 then k i s else None
  | Eol =>
      match s with
      | [] => k i s
      | [c] => if N.eqb c 10 then k i s else None
      | _ => None
      end
  end.

(** The match of [r] that starts at position [i], if any: the position
    and the text after it. *)
Definition match_at (r : re) (i : nat) (s : str) : option (nat * str) :=
  m r i s (fun j t => Some (j, t)).

(** [re.match(r, s)] succeeds. *)
Definition matches (r : re) (s : str) : bool :=
  match match_at r 0 s with Some _ => true | None => false end.

(** [re.search(r, s)]: the leftmost match, as the matched text
    ([match.group(0)]). *)
Fixpoint search_from (r : re) (i : nat) (s : str) : option str :=
  match match_at r i s with
  | Some (j, _) => Some (firstn (j - i) s)
  | None =>
      match s with
      | [] => None
      | _ :: s' => search_from r (S i) s'
      end
  end.
Definition search (r : re) (s : str) : option str := search_from r 0 s.

(** [re.sub(r, repl, s)] for a replacement text without group references:
    matches are found left to right and do not overlap; after an empty
    match, and where there is no match, one character is copied. *)
Fixpoint sub_from (fuel : nat) (r : re) (repl : str) (i : nat) (s : str)
  : str :=
  match fuel with
  | O => s
  | S fuel' =>
      match match_at r i s with
      | Some (j, t) =>
          if i <? j then repl ++ sub_from fuel' r repl j t
          else
            match s with
            | [] => repl
            | c :: s' => repl ++ c :: sub_from fuel' r repl (S i) s'
            end
      | None =>
          match s with
          | [] => []
          | c :: s' => c :: sub_from fuel' r repl (S i) s'
          end
      end
  end.
Definition sub (r : re) (repl : str) (s : str) : str :=
  sub_from (S (length s)) r repl 0 s.

(** *** Pattern notation *)

(** A literal character. *)
Definition chr (c : char) : re := Cls (N.eqb c).
(** A literal character under [re.IGNORECASE]: the two characters have the
    same lower case (as [lower1] has it, exact on U+0000..U+00FF). *)
Definition chr_i (c : char) : re :=
  Cls (fun x => N.eqb (lower1 x) (lower1 c)).
(** A literal text, and one under [re.IGNORECASE]. *)
Definition text (s : str) : re := fold_right (fun c r => Cat (chr c) r) Eps s.
Definition text_i (s : str) : re :=
  fold_right (fun c r => Cat (chr_i c) r) Eps s.
(** [a+], [a?] and [a{n}], greedy. *)
Definition plus (a : re) : re := Cat a (Rep true a).
Definition opt (a : re) : re := Alt a Eps.
Fixpoint times (n : nat) (a : re) : re :=
  match n with
  | O => Eps
  | S n' => Cat a (times n' a)
  end.
(** [a b c ...] *)
Definition seq (l : list re) : re := fold_right Cat Eps l.
(** [\s], [\w], [.] without and with [re.DOTALL], [[^...]]. *)
Definition space : re := Cls isspace.
Definition word : re := Cls (fun c => (isalnum c || N.eqb c 95)%bool).
Definition dot : re := Cls (fun c => negb (N.eqb c 10)).
Definition any : re := Cls (fun _ => true).
Definition none_of (l : list char) : re :=
  Cls (fun c => negb (existsb (N.eqb c) l)).
Definition one_of (l : list char) : re := Cls (fun c => existsb (N.eqb c) l).

(** Every character of [s] is in the class [p]. *)
Definition all_in (p : char -> bool) (s : str) : Prop :=
  Forall (fun c => p c = true) s.

End Re.

(** ** The registry: [database/mongo_client.py] *)

Module Registry.

Definition time := Z.

(** [EMAIL_EXPIRY_TIME = timedelta(hours=1)] of [config.py]. *)
Definition EMAIL_EXPIRY_TIME : Z := (3600 * 1000000)%Z.

(** A document of the [users] collection.  Keys that [create_user] does not
    write ([deactivated_at], [deactivation_reason]) are absent until an
    update sets them. *)
Record doc : Type := {
  telegram_id : Z;
  email : str;
  prefix : str;
  created_at : time;
  expires_at : time;
  is_active : bool;
  last_checked : time;
  message_count : Z;
  total_messages_received : Z;
  last_message_date : option time;
  deactivated_at : option time;
  deactivation_reason : option str
}.

(** [MongoDBClient]: the [connected] flag and the collection behind it.
    Documents are kept in insertion order, the order in which [update_one]
    and [find_one] meet them. *)
Record client : Type := {
  connected : bool;
  collection : list doc
}.

Definition with_collection (c : client) (l : list doc) : client :=
  {| connected := connected c; collection := l |}.

(** *** Collection primitives *)

(** [collection.update_one(filter, update)]: the first matching document is
    updated; the second component is [modified_count]. *)
Fixpoint update_one (f : doc -> bool) (u : doc -> doc) (l : list doc)
  : list doc * nat :=
  match l with
  | [] => ([], 0)
  | d :: r =>
      if f d then (u d :: r, 1)
      else let '(r', n) := update_one f u r in (d :: r', n)
  end.

(** [collection.update_many(filter, update)] *)
Fixpoint update_many (f : doc -> bool) (u : doc -> doc) (l : list doc)
  : list doc * nat :=
  match l with
  | [] => ([], 0)
  | d :: r =>
      let '(r', n) := update_many f u r in
      if f d then (u d :: r', S n) else (d :: r', n)
  end.

(** [collection.find_one(filter)] *)
Definition find_one (f : doc -> bool) (l : list doc) : option doc := find f l.

(** [collection.insert_one(d)] under the unique index on [telegram_id] that
    [_create_indexes] builds before [connected] is set: [None] stands for
    [DuplicateKeyError]. *)
Definition insert_one (d : doc) (l : list doc) : option (list doc) :=
  if existsb (fun x => Z.eqb (telegram_id x) (telegram_id d)) l then None
  else Some (l ++ [d]).

(** *** Filters and updates of the queries *)

(** [{"telegram_id": id, "is_active": True}] *)
Definition active_for (id : Z) (d : doc) : bool :=
  (Z.eqb (telegram_id d) id && is_active d)%bool.

(** [{"is_active": True, "expires_at": {"$lt": now}}] *)
Definition expired_active (now : time) (d : doc) : bool :=
  (is_active d && Z.ltb (expires_at d) now)%bool.

(** [{"$set": {"is_active": False, "deactivated_at": now}}] *)
Definition set_deactivated (now : time) (d : doc) : doc :=
  {| telegram_id := telegram_id d; email := email d; prefix := prefix d;
     created_at := created_at d; expires_at := expires_at d;
     is_active := false;
     last_checked := last_checked d; message_count := message_count d;
     total_messages_received := total_messages_received d;
     last_message_date := last_message_date d;
     deactivated_at := Some now;
     deactivation_reason := deactivation_reason d |}.

(** [{"$set": {"is_active": False, "deactivated_at": now,
               "deactivation_reason": "expired"}}] *)
Definition set_expired (now : time) (d : doc) : doc :=
  {| telegram_id := telegram_id d; email := email d; prefix := prefix d;
     created_at := created_at d; expires_at := expires_at d;
     is_active := false;
     last_checked := last_checked d; message_count := message_count d;
     total_messages_received := total_messages_received d;
     last_message_date := last_message_date d;
     deactivated_at := Some now;
     deactivation_reason := Some (lit "expired") |}.

(** [{"$inc": {"message_count": 1, "total_messages_received": 1},
      "$set": {"last_message_date": now}}] *)
Definition inc_messages (now : time) (d : doc) : doc :=
  {| telegram_id := telegram_id d; email := email d; prefix := prefix d;
     created_at := created_at d; expires_at := expires_at d;
     is_active := is_active d;
     last_checked := last_checked d;
     message_count := (message_count d + 1)%Z;
     total_messages_received := (total_messages_received d + 1)%Z;
     last_message_date := Some now;
     deactivated_at := deactivated_at d;
     deactivation_reason := deactivation_reason d |}.

Definition not_connected {A} : outcome A :=
  raise (ConnectionError (lit "MongoDB not connected")).

(** *** Operations.  Each takes the readings of [datetime.utcnow()] it makes
    and returns the client afterwards with the call's outcome: an update
    made before an exception stays made. *)

Definition get_user (c : client) (id : Z) (active_only : bool)
  : outcome (option doc) :=
  if negb (connected c) then not_connected
  else ret (find_one
              (fun d => (Z.eqb (telegram_id d) id
                         && (if active_only then is_active d else true))%bool)
              (collection c)).

Definition get_user_by_email (c : client) (e : str) (active_only : bool)
  : outcome (option doc) :=
  if negb (connected c) then not_connected
  else ret (find_one
              (fun d => (PyStr.eqb (email d) e
                         && (if active_only then is_active d else true))%bool)
              (collection c)).

Definition deactivate_user (c : client) (id : Z) (now : time)
  : client * outcome bool :=
  if negb (connected c) then (c, not_connected)
  else
    let '(l, n) := update_one (active_for id) (set_deactivated now)
                     (collection c) in
    (with_collection c l, ret (0 <? n)).

Definition increment_message_count (c : client) (id : Z) (now : time)
  : client * outcome bool :=
  if negb (connected c) then (c, not_connected)
  else
    let '(l, n) := update_one (active_for id) (inc_messages now)
                     (collection c) in
    (with_collection c l, ret (0 <? n)).

(** [prefix or email.split('@')[0].split('_')[0]] *)
Definition prefix_or_derived (p : option str) (e : str) : str :=
  match p with
  | Some (x :: r) => x :: r
  | _ => split_head 95%N (split_head 64%N e)
  end.

Definition new_user_doc (id : Z) (e : str) (p : option str) (now : time)
  : doc :=
  {| telegram_id := id; email := e; prefix := prefix_or_derived p e;
     created_at := now; expires_at := (now + EMAIL_EXPIRY_TIME)%Z;
     is_active := true;
     last_checked := now; message_count := 0%Z;
     total_messages_received := 0%Z;
     last_message_date := None;
     deactivated_at := None; deactivation_reason := None |}.

(** [create_user]: [t_deact] is the clock reading inside
    [deactivate_user], [now] the one that becomes [created_at]. *)
Definition create_user (c : client) (id : Z) (e : str) (p : option str)
    (t_deact now : time) : client * outcome doc :=
  if negb (connected c) then (c, not_connected)
  else
    let c1 := fst (deactivate_user c id t_deact) in
    let user_doc := new_user_doc id e p now in
    match insert_one user_doc (collection c1) with
    | Some l => (with_collection c1 l, ret user_doc)
    | None => (c1, raise (ValueError (lit "User already exists")))
    end.

Definition delete_expired_users (c : client) (now : time)
  : client * outcome nat :=
  if negb (connected c) then (c, not_connected)
  else
    let '(l, n) := update_many (expired_active now) (set_expired now)
                     (collection c) in
    (with_collection c l, ret n).

(** *** Histories of operations *)

Inductive op : Type :=
| Create (id : Z) (e : str) (p : option str) (t_deact now : time)
| Deactivate (id : Z) (now : time)
| Sweep (now : time).

Definition step (c : client) (o : op) : client :=
  match o with
  | Create id e p t_deact now => fst (create_user c id e p t_deact now)
  | Deactivate id now => fst (deactivate_user c id now)
  | Sweep now => fst (delete_expired_users c now)
  end.

Definition run (ops : list op) (c : client) : client := fold_left step ops c.

(** [k] calls of [increment_message_count], one clock reading each. *)
Definition increment_many (c : client) (id : Z) (ts : list time) : client :=
  fold_left (fun c t => fst (increment_message_count c id t)) ts c.

(** The number of active entries stored for an identity. *)
Definition count_active (id : Z) (l : list doc) : nat :=
  length (filter (active_for id) l).

(** The invariant: no identity has two active entries. *)
Definition at_most_one_active (c : client) : Prop :=
  forall id, count_active id (collection c) <= 1.

End Registry.

(** ** The address generator: [email_services/email_generator.py] *)

Module Generator.

Import Registry.

(** Constants of [config.py] ([EMAIL_DOMAIN] at its default). *)
Definition EMAIL_DOMAIN : str := lit "seveton.site".
Definition EMAIL_PREFIX_LENGTH : nat := 6.
Definition EMAIL_RANDOM_LENGTH : nat := 8.
Definition EMAIL_MAX_GENERATION_ATTEMPTS : nat := 10.
Definition EMAIL_ALLOWED_CHARS : str :=
  lit "abcdefghijklmnopqrstuvwxyz0123456789".

(** [string.ascii_letters + string.digits] *)
Definition ascii_letters_digits : str :=
  lit "abcdefghijklmnopqrstuvwxyzABCDEFGHIJKLMNOPQRSTUVWXYZ0123456789".

(** The [random] module: the generator's state is the sequence of draws
    still to come. *)
Record rng : Type := { draws : nat -> nat; drawn : nat }.

(** [random.choice(chars)] *)
Definition choice (chars : str) (g : rng) : char * rng :=
  (nth (draws g (drawn g) mod length chars) chars 0%N,
   {| draws := draws g; drawn := S (drawn g) |}).

(** [random.choices(chars, k=k)] *)
Fixpoint choices (chars : str) (k : nat) (g : rng) : str * rng :=
  match k with
  | O => ([], g)
  | S k' =>
      let '(c, g1) := choice chars g in
      let '(r, g2) := choices chars k' g1 in
      (c :: r, g2)
  end.

Definition generate_random_string (length : nat) (use_lowercase_only : bool)
    (g : rng) : str * rng :=
  choices (if use_lowercase_only then EMAIL_ALLOWED_CHARS
           else ascii_letters_digits) length g.

(** [''.join(c for c in s.lower() if c.isalnum())] *)
Definition clean_alnum (s : str) : str := filter isalnum (lower s).

(** [while len(clean_prefix) < EMAIL_PREFIX_LENGTH: clean_prefix +=
    random.choice(EMAIL_ALLOWED_CHARS)]; every turn adds one character, so
    [EMAIL_PREFIX_LENGTH] turns are enough. *)
Fixpoint pad_prefix (turns : nat) (clean_prefix : str) (g : rng) : str * rng :=
  match turns with
  | O => (clean_prefix, g)
  | S turns' =>
      if length clean_prefix <? EMAIL_PREFIX_LENGTH then
        let '(c, g1) := choice EMAIL_ALLOWED_CHARS g in
        pad_prefix turns' (clean_prefix ++ [c]) g1
      else (clean_prefix, g)
  end.

Definition generate_user_prefix (custom_prefix : option str) (g : rng)
  : str * rng :=
  match custom_prefix with
  | Some (x :: r) =>
      let clean_prefix := clean_alnum (x :: r) in
      if EMAIL_PREFIX_LENGTH <? length clean_prefix then
        (firstn EMAIL_PREFIX_LENGTH clean_prefix, g)
      else if length clean_prefix =? 0 then
        generate_random_string EMAIL_PREFIX_LENGTH true g
      else pad_prefix EMAIL_PREFIX_LENGTH clean_prefix g
  | _ => generate_random_string EMAIL_PREFIX_LENGTH true g
  end.

(** [f"{prefix}_{random_suffix}@{EMAIL_DOMAIN}"] *)
Definition address (prefix random_suffix : str) : str :=
  prefix ++ lit "_" ++ random_suffix ++ lit "@" ++ EMAIL_DOMAIN.

(** The [for attempt in range(...)] loop of [generate_unique_email]; an
    exception of the lookup is logged and the loop goes on. *)
Fixpoint attempt_loop (attempts : nat) (c : client) (prefix : str) (g : rng)
  : outcome str * rng :=
  match attempts with
  | O => (raise (ValueError
                   (lit "Failed to generate unique email after 10 attempts")),
          g)
  | S attempts' =>
      let '(random_suffix, g1) :=
        generate_random_string EMAIL_RANDOM_LENGTH true g in
      let email := address prefix random_suffix in
      match get_user_by_email c email false with
      | inr None => (ret email, g1)
      | inr (Some _) => attempt_loop attempts' c prefix g1
      | inl _ => attempt_loop attempts' c prefix g1
      end
  end.

Definition generate_unique_email (c : client) (telegram_id : Z)
    (custom_prefix : option str) (g : rng) : outcome str * rng :=
  let '(prefix, g1) := generate_user_prefix custom_prefix g in
  attempt_loop EMAIL_MAX_GENERATION_ATTEMPTS c prefix g1.

(** The dictionary [generate_email_with_validation] returns. *)
Inductive generation : Type :=
| Generated (email prefix : str) (custom_prefix_used : bool)
| UserAlreadyHasEmail (existing_email : str)
| GenerationFailed (message : str)
| UnexpectedError.

(** The two [except] clauses of [generate_email_with_validation]. *)
Definition generation_error (e : exn) : generation :=
  match e with
  | ValueError msg => GenerationFailed msg
  | _ => UnexpectedError
  end.

Definition generate_email_with_validation (c : client) (telegram_id : Z)
    (custom_prefix : option str) (g : rng) : generation * rng :=
  match get_user c telegram_id true with
  | inl e => (generation_error e, g)
  | inr (Some existing_user) => (UserAlreadyHasEmail (email existing_user), g)
  | inr None =>
      match generate_unique_email c telegram_id custom_prefix g with
      | (inr e, g1) =>
          (Generated e (split_head (ch "_") (split_head (ch "@") e))
             (match custom_prefix with Some _ => true | None => false end),
           g1)
      | (inl e, g1) => (generation_error e, g1)
      end
  end.

(** What [new_email_command] of [handlers/command_handlers.py] and the
    other handlers do with a request for an address: generate, then
    store.  The result is the address shown to the user, if one is. *)
Definition provision (c : client) (telegram_id : Z)
    (custom_prefix : option str) (g : rng) (t_deact now : time)
  : client * option str * rng :=
  match generate_email_with_validation c telegram_id custom_prefix g with
  | (Generated e p _, g1) =>
      match create_user c telegram_id e (Some p) t_deact now with
      | (c1, inr _) => (c1, Some e, g1)
      | (c1, inl _) => (c1, None, g1)
      end
  | (_, g1) => (c, None, g1)
  end.

(** The addresses stored in the registry, active or not. *)
Definition emails (c : client) : list str := map email (collection c).

(** A history of requests for an address: who asks, with which prefix, and
    the clock readings of the call. *)
Record request : Type := {
  who : Z;
  typed_prefix : option str;
  deactivation_clock : time;
  creation_clock : time
}.

(** The addresses returned by the successful calls of a history, in
    order. *)
Fixpoint provisions (reqs : list request) (c : client) (g : rng) : list str :=
  match reqs with
  | [] => []
  | r :: rest =>
      let '(c1, shown, g1) :=
        provision c (who r) (typed_prefix r) g (deactivation_clock r)
          (creation_clock r) in
      match shown with
      | Some e => e :: provisions rest c1 g1
      | None => provisions rest c1 g1
      end
  end.

(** The shape the specification gives for addresses:
    [^[a-z0-9]+_[a-z0-9]{R}@domain$] with [R = EMAIL_RANDOM_LENGTH]. *)
Definition is_lower_alnum (c : char) : bool :=
  (is_ascii_lower c || is_ascii_digit c)%bool.
Definition lower_alnum : Re.re := Re.Cls is_lower_alnum.
Definition address_shape : Re.re :=
  Re.seq [Re.Bol; Re.plus lower_alnum; Re.chr (ch "_");
          Re.times EMAIL_RANDOM_LENGTH lower_alnum;
          Re.chr (ch "@"); Re.text EMAIL_DOMAIN; Re.Eol].
Definition well_formed (e : str) : bool := Re.matches address_shape e.

End Generator.

(** ** The mailbox client: [email/imap_client.py] *)

Module Imap.

Definition bytes := list N.
Definition time := Z.

(** *** Messages, as the accessors of [email.message.Message] read them *)

Record info : Type := {
  headers : list (str * str);     (* the header fields, in order *)
  content_type : str;             (* get_content_type() *)
  content_charset : option str;   (* get_content_charset() *)
  declared_filename : option str  (* get_filename() *)
}.

(** A message is a single part with its payload ([get_payload(decode=True)])
    or a multipart container with its sub-parts. *)
#[warnings="-register-all"]
Inductive message : Type :=
| Single (i : info) (payload : bytes)
| Multipart (i : info) (parts : list message).

Definition info_of (msg : message) : info :=
  match msg with
  | Single i _ | Multipart i _ => i
  end.

Definition is_multipart (msg : message) : bool :=
  match msg with
  | Single _ _ => false
  | Multipart _ _ => true
  end.

(** [get_payload(decode=True)]: [None] for a multipart container. *)
Definition get_payload (msg : message) : option bytes :=
  match msg with
  | Single _ payload => Some payload
  | Multipart _ _ => None
  end.

(** [msg.get(name, default)]: header names compare without case. *)
Definition get (msg : message) (name default : str) : str :=
  match find (fun h => PyStr.eqb (lower (fst h)) (lower name))
             (headers (info_of msg)) with
  | Some h => snd h
  | None => default
  end.

(** [msg.walk()]: the message, then the walk of each sub-part. *)
Fixpoint walk (msg : message) : list message :=
  match msg with
  | Single _ _ => [msg]
  | Multipart _ parts => msg :: flat_map walk parts
  end.

(** *** The records the client builds *)

Record attachment : Type := {
  filename : str;
  att_content_type : str;
  size : nat;
  data : bytes;
  is_image : bool;
  is_pdf : bool;
  is_document : bool
}.

(** The dictionary [_parse_email_message] returns; a key the degraded
    dictionary does not have is [None] there, and so is [parse_error] in a
    full one. *)
Record message_data : Type := {
  uid : str;
  subject : str;
  sender : str;
  sender_email : option str;
  to : option str;
  date : option time;
  date_str : option str;
  message_id : option str;
  body_text : str;
  body_html : option str;
  attachments : list attachment;
  has_attachments : bool;
  attachment_count : nat;
  msg_size : option nat;
  parse_error : option bool
}.

(** [[\w\.-]+@[\w\.-]+\.\w+] *)
Definition email_pattern : Re.re :=
  let local := Re.Alt Re.word (Re.one_of (lit ".-")) in
  Re.seq [Re.plus local; Re.chr (ch "@"); Re.plus local; Re.chr (ch ".");
          Re.plus Re.word].

Section Library.

(** The codec registry: [payload.decode(charset, errors='ignore')]. *)
Variable decode : str -> bytes -> outcome str.
(** [email.header.decode_header]: chunks, each bytes or text, with the
    declared encoding. *)
Variable decode_header : str -> outcome (list ((bytes + str) * option str)).
(** [email.utils.parsedate_tz], and [datetime.fromtimestamp(mktime_tz(t))]
    on its result. *)
Variable date_tuple : Type.
Variable parsedate_tz : str -> outcome (option date_tuple).
Variable fromtimestamp : date_tuple -> outcome time.
(** [str(email_message)] *)
Variable as_string : message -> outcome str.

Local Open Scope py_scope.

(** The [for part, encoding in decoded_parts] loop of [_decode_header]. *)
Fixpoint decode_parts (parts : list ((bytes + str) * option str))
    (decoded_header : str) : outcome str :=
  match parts with
  | [] => ret decoded_header
  | (inl b, Some encoding) :: rest =>
      t <- decode encoding b ;; decode_parts rest (decoded_header ++ t)
  | (inl b, None) :: rest =>
      t <- decode (lit "utf-8") b ;; decode_parts rest (decoded_header ++ t)
  | (inr t, _) :: rest => decode_parts rest (decoded_header ++ t)
  end.

Definition _decode_header (header : str) : outcome str :=
  match header with
  | [] => ret []
  | _ =>
      try_except
        (decoded_parts <- decode_header header ;;
         decoded_header <- decode_parts decoded_parts [] ;;
         ret (strip decoded_header))
        (fun _ => ret header)
  end.

(** [now] is the reading of [datetime.utcnow()]. *)
Definition _parse_date (date_str : str) (now : time) : outcome time :=
  try_except
    (match date_str with
     | [] => ret now
     | _ =>
         timestamp <- parsedate_tz date_str ;;
         match timestamp with
         | Some t => fromtimestamp t
         | None => ret now
         end
     end)
    (fun _ => ret now).

Definition _extract_email_from_header (header : str) : outcome str :=
  try_except
    (match Re.search email_pattern header with
     | Some group0 => ret (lower group0)
     | None => ret header
     end)
    (fun _ => ret header).

Definition _extract_attachment (part : message)
  : outcome (option attachment) :=
  try_except
    (match declared_filename (info_of part) with
     | None | Some [] => ret None
     | Some fname =>
         fname <- _decode_header fname ;;
         match get_payload part with
         | None | Some [] => ret None
         | Some payload =>
             let ct := content_type (info_of part) in
             ret (Some
                    {| filename := fname;
                       att_content_type := ct;
                       size := length payload;
                       data := payload;
                       is_image := startswith (lit "image/") ct;
                       is_pdf := PyStr.eqb ct (lit "application/pdf");
                       is_document :=
                         ((startswith (lit "application/") ct
                           || startswith (lit "text/") ct)
                          && negb (startswith (lit "image/") ct))%bool |})
         end
     end)
    (fun _ => ret None).

(** What makes a part the source of the attachment [a]: [attachment] in
    its Content-Disposition, a filename, a payload. *)
Definition attachment_of (part : message) (a : attachment) : Prop :=
  contains (lit "attachment") (get part (lit "Content-Disposition") [])
  = true /\
  exists fname payload,
    declared_filename (info_of part) = Some fname /\ fname <> [] /\
    get_payload part = Some payload /\ payload <> [] /\
    _decode_header fname = ret (filename a) /\
    data a = payload /\ size a = length payload /\
    att_content_type a = content_type (info_of part).

(** The three locals of [_extract_body_and_attachments]. *)
Record extraction : Type := {
  x_text : str;
  x_html : str;
  x_attachments : list attachment
}.

Definition charset_or_utf8 (part : message) : str :=
  match content_charset (info_of part) with
  | Some (c :: r) => c :: r
  | _ => lit "utf-8"
  end.

(** One turn of the loop over [email_message.walk()]: the locals after
    it, and the exception that ended it if one was raised. *)
Definition visit (x : extraction) (part : message)
  : extraction * option exn :=
  let ct := content_type (info_of part) in
  let content_disposition := get part (lit "Content-Disposition") [] in
  if contains (lit "attachment") content_disposition then
    match _extract_attachment part with
    | inr (Some a) =>
        ({| x_text := x_text x; x_html := x_html x;
            x_attachments := x_attachments x ++ [a] |}, None)
    | inr None => (x, None)
    | inl e => (x, Some e)
    end
  else if (PyStr.eqb ct (lit "text/plain") && is_empty (x_text x))%bool then
    match get_payload part with
    | None | Some [] => (x, None)
    | Some payload =>
        match decode (charset_or_utf8 part) payload with
        | inr t => ({| x_text := t; x_html := x_html x;
                       x_attachments := x_attachments x |}, None)
        | inl e => (x, Some e)
        end
    end
  else if (PyStr.eqb ct (lit "text/html") && is_empty (x_html x))%bool then
    match get_payload part with
    | None | Some [] => (x, None)
    | Some payload =>
        match decode (charset_or_utf8 part) payload with
        | inr t => ({| x_text := x_text x; x_html := t;
                       x_attachments := x_attachments x |}, None)
        | inl e => (x, Some e)
        end
    end
  else (x, None).

Fixpoint visit_all (x : extraction) (parts : list message)
  : extraction * option exn :=
  match parts with
  | [] => (x, None)
  | part :: rest =>
      match visit x part with
      | (x', None) => visit_all x' rest
      | (x', Some e) => (x', Some e)
      end
  end.

(** The single-part branch. *)
Definition single_part (x : extraction) (msg : message)
  : extraction * option exn :=
  let ct := content_type (info_of msg) in
  if PyStr.eqb ct (lit "text/plain") then
    match get_payload msg with
    | None | Some [] => (x, None)
    | Some payload =>
        match decode (charset_or_utf8 msg) payload with
        | inr t => ({| x_text := t; x_html := x_html x;
                       x_attachments := x_attachments x |}, None)
        | inl e => (x, Some e)
        end
    end
  else if PyStr.eqb ct (lit "text/html") then
    match get_payload msg with
    | None | Some [] => (x, None)
    | Some payload =>
        match decode (charset_or_utf8 msg) payload with
        | inr t => ({| x_text := x_text x; x_html := t;
                       x_attachments := x_attachments x |}, None)
        | inl e => (x, Some e)
        end
    end
  else (x, None).

(** [_extract_body_and_attachments]: an exception inside the [try]
    replaces [body_text] by its message and keeps what the other two
    locals held when it was raised. *)
Definition _extract_body_and_attachments (email_message : message)
  : outcome extraction :=
  let start := {| x_text := []; x_html := []; x_attachments := [] |} in
  let '(x, raised) :=
    if is_multipart email_message
    then visit_all start (walk email_message)
    else single_part start email_message in
  match raised with
  | None => ret x
  | Some e =>
      ret {| x_text := lit "Error extracting email content: " ++ exn_str e;
             x_html := x_html x;
             x_attachments := x_attachments x |}
  end.

(** The dictionary of the [except] branch of [_parse_email_message]. *)
Definition degraded (uid : str) (e : exn) : message_data :=
  {| uid := uid;
     subject := lit "Parse Error";
     sender := lit "Unknown";
     sender_email := None; to := None; date := None; date_str := None;
     message_id := None;
     body_text := lit "Error parsing email: " ++ exn_str e;
     body_html := None;
     attachments := [];
     has_attachments := false;
     attachment_count := 0;
     msg_size := None;
     parse_error := Some true |}.

(** The [try] block of [_parse_email_message]. *)
Definition parse_body (email_message : message) (uid : str) (now : time)
  : outcome message_data :=
  subject <- _decode_header (get email_message (lit "Subject") []) ;;
  sender <- _decode_header (get email_message (lit "From") []) ;;
  let date_str := get email_message (lit "Date") [] in
  let message_id := get email_message (lit "Message-ID") [] in
  to_header <- _decode_header (get email_message (lit "To") []) ;;
  received_date <- _parse_date date_str now ;;
  x <- _extract_body_and_attachments email_message ;;
  sender_email <- _extract_email_from_header sender ;;
  text <- as_string email_message ;;
  ret {| uid := uid;
         subject := subject;
         sender := sender;
         sender_email := Some sender_email;
         to := Some to_header;
         date := Some received_date;
         date_str := Some date_str;
         message_id := Some message_id;
         body_text := x_text x;
         body_html := Some (x_html x);
         attachments := x_attachments x;
         has_attachments := 0 <? length (x_attachments x);
         attachment_count := length (x_attachments x);
         msg_size := Some (length text);
         parse_error := None |}.

Definition _parse_email_message (email_message : message) (uid : str)
    (now : time) : outcome message_data :=
  try_except (parse_body email_message uid now)
             (fun e => ret (degraded uid e)).

(** The connection: the [connected] flag, and the server's answer to
    [connection.uid('fetch', uid, '(RFC822)')], which is the status and,
    when there is data, the message that [email.message_from_string]
    builds from [data[0][1]] (reading it may raise). *)
Variable connected : bool.
Variable uid_fetch : str -> outcome (str * option (outcome message)).

Definition fetch_message (uid : str) (now : time)
  : outcome (option message_data) :=
  if negb connected then ret None
  else
    try_except
      (response <- uid_fetch uid ;;
       let '(status, data) := response in
       if negb (PyStr.eqb status (lit "OK")) then ret None
       else
         match data with
         | None => ret None
         | Some read =>
             email_message <- read ;;
             message_data <- _parse_email_message email_message uid now ;;
             ret (Some message_data)
         end)
      (fun _ => ret None).

End Library.

Arguments _parse_date {date_tuple}.
Arguments parse_body decode decode_header {date_tuple}.
Arguments _parse_email_message decode decode_header {date_tuple}.
Arguments fetch_message decode decode_header {date_tuple}.

Section Mailbox.

(** The two calls to the mail server that [fetch_message_list] makes.
    [search_emails] may raise (its folder selection is outside its
    [try]); [fetch_message] returns [None] when it fails. *)
Variable search_emails : str -> option time -> outcome (list str).
Variable fetch_message : str -> outcome (option message_data).

(** [uids[-limit:] if len(uids) > limit else uids] *)
Definition most_recent (uids : list str) (limit : Z) : list str :=
  if (limit <? Z.of_nat (length uids))%Z then slice_from uids (- limit)
  else uids.

(** The [for uid in reversed(uids)] loop. *)
Fixpoint fetch_each (uids : list str) : list message_data :=
  match uids with
  | [] => []
  | uid :: rest =>
      match fetch_message uid with
      | inr (Some message_data) => message_data :: fetch_each rest
      | inr None => fetch_each rest
      | inl _ => fetch_each rest
      end
  end.

Definition fetch_message_list (recipient_email : str) (limit : Z)
    (since_date : option time) : outcome (list message_data) :=
  try_except
    (bind (search_emails recipient_email since_date) (fun uids =>
       match uids with
       | [] => ret []
       | _ => ret (fetch_each (rev (most_recent uids limit)))
       end))
    (fun _ => ret []).

End Mailbox.

End Imap.

(** ** The message renderer: [email_services/email_parser.py] *)

Module Parser.

Import Imap.

Local Open Scope Z_scope.

(** [html.escape(s)], quotes included. *)
Definition escape_char (c : char) : str :=
  if N.eqb c (ch "&") then lit "&amp;"
  else if N.eqb c (ch "<") then lit "&lt;"
  else if N.eqb c (ch ">") then lit "&gt;"
  else if N.eqb c 34 then lit "&quot;"
  else if N.eqb c 39 then lit "&#x27;"
  else [c].
Definition html_escape (s : str) : str := flat_map escape_char s.

(** [str(n)] for an integer. *)
Definition decimal (n : Z) : str :=
  lit (DecimalString.NilZero.string_of_int (Z.to_int n)).

(** [len(s)] as a Python integer. *)
Definition len {A} (l : list A) : Z := Z.of_nat (length l).

(** *** [_sanitize_content] *)

(** [BLOCKED_PATTERNS] of [config.py], each read as a pattern under
    [re.IGNORECASE]. *)
Definition BLOCKED_PATTERNS : list Re.re :=
  map (fun p => Re.text_i (lit p))
      ["javascript:"; "data:text/html"; "<script"; "onclick="; "onerror="].

Definition _sanitize_content (content : str) : str :=
  match content with
  | [] => content
  | _ =>
      html_escape
        (fold_left (fun content pattern => Re.sub pattern [] content)
                   BLOCKED_PATTERNS content)
  end.

(** *** [_clean_html_content] *)

Definition dangerous_tags : list str :=
  map lit ["script"; "style"; "iframe"; "object"; "embed"; "form"; "input"].

Definition not_gt : Re.re := Re.none_of [ch ">"].
Definition quote : Re.re := Re.one_of [34%N; 39%N].
Definition not_quote : Re.re := Re.none_of [34%N; 39%N].

(** [f'<{tag}[^>]*>.*?</{tag}>'] under [re.IGNORECASE | re.DOTALL] *)
Definition block_pattern (tag : str) : Re.re :=
  Re.seq [Re.chr (ch "<"); Re.text_i tag; Re.Rep true not_gt; Re.chr (ch ">");
          Re.Rep false Re.any;
          Re.text (lit "</"); Re.text_i tag; Re.chr (ch ">")].

(** [f'<{tag}[^>]*/>'] under [re.IGNORECASE] *)
Definition self_closing_pattern (tag : str) : Re.re :=
  Re.seq [Re.chr (ch "<"); Re.text_i tag; Re.Rep true not_gt;
          Re.text (lit "/>")].

(** [\s+on\w+\s*=\s*Q[^Q]*Q] under [re.IGNORECASE], where [Q] is the
    class of the double and the single quote *)
Definition event_handler_pattern : Re.re :=
  Re.seq [Re.plus Re.space; Re.text_i (lit "on"); Re.plus Re.word;
          Re.Rep true Re.space; Re.chr (ch "="); Re.Rep true Re.space;
          quote; Re.Rep true not_quote; quote].

(** [\s+style\s*=\s*Q[^Q]*Q] under [re.IGNORECASE] *)
Definition style_pattern : Re.re :=
  Re.seq [Re.plus Re.space; Re.text_i (lit "style");
          Re.Rep true Re.space; Re.chr (ch "="); Re.Rep true Re.space;
          quote; Re.Rep true not_quote; quote].

(** [(?:b|i|u|strong|em|a|br|p)] under [re.IGNORECASE] *)
Definition allowed_name : Re.re :=
  fold_right (fun t r => Re.Alt (Re.text_i (lit t)) r)
             (Re.text_i (lit "p"))
             ["b"; "i"; "u"; "strong"; "em"; "a"; "br"].

(** [<(?!(?:b|i|u|strong|em|a|br|p)(?:\s|>))/?[^>]*>] under
    [re.IGNORECASE] *)
Definition disallowed_tag_pattern : Re.re :=
  Re.seq [Re.chr (ch "<");
          Re.NotAhead (Re.Cat allowed_name (Re.Alt Re.space (Re.chr (ch ">"))));
          Re.opt (Re.chr (ch "/")); Re.Rep true not_gt; Re.chr (ch ">")].

(** The patterns are fixed and the subject is a [str]: no call of the
    [try] block raises, and its [except] branch is not reached. *)
Definition _clean_html_content (html_content : str) : str :=
  match html_content with
  | [] => []
  | _ =>
      let content := strip html_content in
      let content :=
        fold_left
          (fun content tag =>
             Re.sub (self_closing_pattern tag) []
                    (Re.sub (block_pattern tag) [] content))
          dangerous_tags content in
      let content := Re.sub event_handler_pattern [] content in
      let content := Re.sub style_pattern [] content in
      let content := Re.sub disallowed_tag_pattern [] content in
      let content := Re.sub (Re.plus Re.space) (lit " ") content in
      strip content
  end.

(** *** [_create_text_preview] *)

Definition skip_patterns : list Re.re :=
  [ Re.seq [Re.Bol; Re.text (lit "--"); Re.Rep true Re.space; Re.Eol];
    Re.seq [Re.Bol; Re.chr (ch ">"); Re.Rep true Re.dot];
    Re.seq [Re.Bol; Re.text_i (lit "On "); Re.Rep true Re.dot;
            Re.text_i (lit " wrote:")];
    Re.seq [Re.Bol; Re.text_i (lit "Sent from my"); Re.Rep true Re.dot] ].

Definition newline : str := [10%N].

(** The [for line in lines] loop, with its [continue]s and its [break]. *)
Fixpoint collect_lines (lines clean_lines : list str) (max_length : Z)
  : list str :=
  match lines with
  | [] => clean_lines
  | line :: rest =>
      let line := strip line in
      if is_empty line then collect_lines rest clean_lines max_length
      else if existsb (fun pattern => Re.matches pattern line) skip_patterns
      then collect_lines rest clean_lines max_length
      else
        let clean_lines := clean_lines ++ [line] in
        if max_length <? len (join newline clean_lines) then clean_lines
        else collect_lines rest clean_lines max_length
  end.

Definition _create_text_preview (text : str) (max_length : Z) : str :=
  match text with
  | [] => lit "No content"
  | _ =>
      let text := Re.sub (Re.plus Re.space) (lit " ") (strip text) in
      let lines := split 10%N text in
      let preview_text := join newline (collect_lines lines [] max_length) in
      if max_length <? len preview_text
      then slice_to preview_text (max_length - 3) ++ lit "..."
      else preview_text
  end.

(** *** [_extract_display_name] and [_format_relative_time] *)

(** [s.strip(chars)] *)
Fixpoint lstrip_chars (chars : str) (s : str) : str :=
  match s with
  | c :: r => if existsb (N.eqb c) chars then lstrip_chars chars r else s
  | [] => []
  end.
Definition strip_chars (chars : str) (s : str) : str :=
  rev (lstrip_chars chars (rev (lstrip_chars chars s))).

Definition has (c : char) (s : str) : bool := existsb (N.eqb c) s.

Definition _extract_display_name (sender : str) : str :=
  match sender with
  | [] => []
  | _ =>
      let name_part := strip (split_head (ch "<") sender) in
      if (has (ch "<") sender && has (ch ">") sender
          && negb (is_empty name_part))%bool
      then strip_chars [34%N; 39%N] name_part
      else if has (ch "@") sender then split_head (ch "@") sender
      else sender
  end.

Definition plural (n : Z) : str := if n =? 1 then [] else lit "s".

(** [_format_relative_time]; [now] is the reading of [datetime.utcnow()].
    [total_seconds()] is read exactly, in microseconds. *)
Definition _format_relative_time (date now : time) : str :=
  let diff := now - date in
  if diff <? 60 * 1000000 then lit "just now"
  else if diff <? 3600 * 1000000 then
    let minutes := diff / (60 * 1000000) in
    decimal minutes ++ lit " minute" ++ plural minutes ++ lit " ago"
  else if diff <? 86400 * 1000000 then
    let hours := diff / (3600 * 1000000) in
    decimal hours ++ lit " hour" ++ plural hours ++ lit " ago"
  else
    let days := diff / (86400 * 1000000) in
    decimal days ++ lit " day" ++ plural days ++ lit " ago".

(** *** The icons of the source text, as the code points it holds *)

Definition icon_envelope : str := [240; 376; 8220; 167]%N.
Definition icon_clipboard : str := [240; 376; 8220; 8249]%N.
Definition icon_clock : str := [226; 176]%N.
Definition icon_page : str := [240; 376; 8220; 8222]%N.
Definition icon_clip : str := [240; 376; 8220; 381]%N.
Definition icon_picture : str := [240; 376; 8211; 188; 239; 184]%N.
Definition icon_memo : str := [240; 376; 8220]%N.
Definition icon_package : str := [240; 376; 8220; 166]%N.
Definition icon_note : str := [240; 376; 381; 181]%N.
Definition icon_camera : str := [240; 376; 381; 165]%N.

(** *** [format_message_preview] *)

Definition or_default {A} (o : option A) (default : A) : A :=
  match o with Some a => a | None => default end.

(** The list [preview_lines] that [format_message_preview] joins;
    [preview_length] defaults to 200 and [now] is the clock reading. *)
Definition preview_lines (message_data : message_data) (preview_length : Z)
    (now : time) : list str :=
  let sender := sender message_data in
  let subject := subject message_data in
  let received_date := or_default (date message_data) now in
  let sender_name := _extract_display_name sender in
  let sender_name :=
    if is_empty sender_name
    then (if has (ch "@") sender then split_head (ch "@") sender else sender)
    else sender_name in
  let subject :=
    if 50 <? len subject then slice_to subject 47 ++ lit "..." else subject in
  let preview := _create_text_preview (body_text message_data) preview_length in
  let time_ago := _format_relative_time received_date now in
  [ icon_envelope ++ lit " <b>" ++ html_escape sender_name ++ lit "</b>";
    icon_clipboard ++ lit " " ++ html_escape subject;
    icon_clock ++ lit " " ++ time_ago;
    [];
    icon_page ++ lit " " ++ preview ]
  ++ (if has_attachments message_data then
        if Nat.eqb (attachment_count message_data) 1
        then [icon_clip ++ lit " 1 attachment"]
        else [icon_clip ++ lit " "
              ++ decimal (Z.of_nat (attachment_count message_data))
              ++ lit " attachments"]
      else []).

Definition default_preview_length : Z := 200.

Definition format_message_preview (message_data : message_data)
    (preview_length : Z) (now : time) : str :=
  join newline (preview_lines message_data preview_length now).

(** *** [format_full_message] *)

Definition endswith (suffix s : str) : bool :=
  startswith (rev suffix) (rev s).

Definition IMAGE_EXTENSIONS : list str :=
  map lit [".jpg"; ".jpeg"; ".png"; ".gif"; ".webp"; ".bmp"; ".svg"].
Definition DOCUMENT_EXTENSIONS : list str :=
  map lit [".pdf"; ".doc"; ".docx"; ".txt"; ".rtf"; ".odt"; ".xls"; ".xlsx";
           ".ppt"; ".pptx"].
Definition ARCHIVE_EXTENSIONS : list str :=
  map lit [".zip"; ".rar"; ".7z"; ".tar"; ".gz"; ".bz2"].

Definition _get_file_icon (content_type filename : str) : str :=
  let content_type := lower content_type in
  let filename_lower := lower filename in
  let ends_in exts := existsb (fun ext => endswith ext filename_lower) exts in
  if (startswith (lit "image/") content_type || ends_in IMAGE_EXTENSIONS)%bool
  then icon_picture
  else if (PyStr.eqb content_type (lit "application/pdf")
           || endswith (lit ".pdf") filename_lower)%bool
  then icon_page
  else if ends_in DOCUMENT_EXTENSIONS then icon_memo
  else if ends_in ARCHIVE_EXTENSIONS then icon_package
  else if startswith (lit "audio/") content_type then icon_note
  else if startswith (lit "video/") content_type then icon_camera
  else icon_clip.

Section Rendering.

(** [_format_file_size] prints a float with one decimal; its text is
    taken as given. *)
Variable _format_file_size : nat -> str.

Fixpoint attachment_lines (i : Z) (l : list attachment) : list str :=
  match l with
  | [] => []
  | a :: rest =>
      (decimal i ++ lit ". "
       ++ _get_file_icon (att_content_type a) (filename a)
       ++ lit " <code>" ++ html_escape (filename a) ++ lit "</code> ("
       ++ _format_file_size (size a) ++ lit ")")
      :: attachment_lines (i + 1) rest
  end.

Definition _format_attachment_list (l : list attachment) : str :=
  match l with
  | [] => []
  | _ => join newline ((icon_clip ++ lit " <b>Attachments:</b>")
                       :: attachment_lines 1 l)
  end.

(** [body_content] of [format_full_message] before it is cut to the
    display budget: the cleaned HTML body when there is one, else the
    escaped text body, which [_sanitize_content] has been through. *)
Definition body_content (message_data : message_data) : str :=
  let body_text := _sanitize_content (body_text message_data) in
  match or_default (body_html message_data) [] with
  | [] => html_escape body_text
  | body_html => _clean_html_content body_html
  end.

Definition format_full_message (message_data : message_data) : str :=
  let to := or_default (to message_data) (lit "Unknown") in
  let date_str := or_default (date_str message_data) [] in
  let message_id := or_default (message_id message_data) [] in
  let subject := _sanitize_content (subject message_data) in
  let sender := _sanitize_content (sender message_data) in
  let header_lines :=
    [ icon_envelope ++ lit " <b>Full Email Message</b>";
      [];
      lit "<b>From:</b> " ++ html_escape sender;
      lit "<b>To:</b> " ++ html_escape to;
      lit "<b>Subject:</b> " ++ html_escape subject;
      lit "<b>Date:</b> " ++ html_escape date_str ]
    ++ (if is_empty message_id then []
        else [lit "<b>Message ID:</b> <code>" ++ html_escape message_id
              ++ lit "</code>"])
    ++ [[]] in
  let content := body_content message_data in
  let content :=
    if 3500 <? len content
    then slice_to content 3500
         ++ newline ++ newline ++ lit "<i>... Message truncated</i>"
    else content in
  let full_message := join newline header_lines ++ content in
  if is_empty (attachments message_data) then full_message
  else full_message ++ newline ++ newline
       ++ _format_attachment_list (attachments message_data).

End Rendering.

End Parser.

(** ** The registry, remaining operations: [database/mongo_client.py] *)

Module RegistryAdmin.

Import Registry.

Local Open Scope Z_scope.

(** [collection.delete_one(filter)]: the first matching document is
    removed; the second component is [deleted_count]. *)
Fixpoint delete_one (f : doc -> bool) (l : list doc) : list doc * nat :=
  match l with
  | [] => ([], 0%nat)
  | d :: r =>
      if f d then (r, 1%nat)
      else let '(r', n) := delete_one f r in (d :: r', n)
  end.

(** [collection.delete_many(filter)] *)
Fixpoint delete_many (f : doc -> bool) (l : list doc) : list doc * nat :=
  match l with
  | [] => ([], 0%nat)
  | d :: r =>
      let '(r', n) := delete_many f r in
      if f d then (r', S n) else (d :: r', n)
  end.

(** [{"$set": {"last_checked": now}}] *)
Definition set_last_checked (now : time) (d : doc) : doc :=
  {| telegram_id := telegram_id d; email := email d; prefix := prefix d;
     created_at := created_at d; expires_at := expires_at d;
     is_active := is_active d;
     last_checked := now; message_count := message_count d;
     total_messages_received := total_messages_received d;
     last_message_date := last_message_date d;
     deactivated_at := deactivated_at d;
     deactivation_reason := deactivation_reason d |}.

(** [update_one] for an update that may leave the document as it was:
    [modified_count] counts a matched document only when [changes] holds
    of it. *)
Fixpoint update_one_if (f : doc -> bool) (changes : doc -> bool)
    (u : doc -> doc) (l : list doc) : list doc * nat :=
  match l with
  | [] => ([], 0%nat)
  | d :: r =>
      if f d then (u d :: r, if changes d then 1%nat else 0%nat)
      else let '(r', n) := update_one_if f changes u r in (d :: r', n)
  end.

(** [update_last_checked]: the stored value is replaced by [now]; the
    result is [modified_count > 0], which is [False] also when the stored
    value was [now] already. *)
Definition update_last_checked (c : client) (id : Z) (now : time)
  : client * outcome bool :=
  if negb (connected c) then (c, not_connected)
  else
    let '(l, n) :=
      update_one_if (active_for id)
        (fun d => negb (last_checked d =? now))
        (set_last_checked now) (collection c) in
    (with_collection c l, ret (0 <? n)%nat).

(** [delete_user]: [{"telegram_id": id}], active or not. *)
Definition delete_user (c : client) (id : Z) : client * outcome bool :=
  if negb (connected c) then (c, not_connected)
  else
    let '(l, n) := delete_one (fun d => telegram_id d =? id) (collection c) in
    (with_collection c l, ret (0 <? n)%nat).

(** [get_all_active_users]: [find({"is_active": True})] *)
Definition get_all_active_users (c : client) : outcome (list doc) :=
  if negb (connected c) then not_connected
  else ret (filter is_active (collection c)).

(** [timedelta(hours=hours)] and [timedelta(days=days)] *)
Definition hours_delta (hours : Z) : Z := hours * 3600 * 1000000.
Definition days_delta (days : Z) : Z := days * 86400 * 1000000.

(** [get_users_expiring_soon(hours)] *)
Definition get_users_expiring_soon (c : client) (hours : Z) (now : time)
  : outcome (list doc) :=
  if negb (connected c) then not_connected
  else
    let threshold := now + hours_delta hours in
    ret (filter (fun d => (is_active d && (expires_at d <? threshold))%bool)
                (collection c)).

(** The dictionary [get_user_statistics] returns. *)
Record statistics : Type := {
  stat_email : str;
  stat_created_at : time;
  stat_expires_at : time;
  time_remaining : option Z;
  stat_is_active : bool;
  stat_message_count : Z;
  stat_total_messages_received : Z;
  stat_last_checked : time;
  stat_last_message_date : option time
}.

Definition get_user_statistics (c : client) (id : Z) (now : time)
  : outcome (option statistics) :=
  bind (get_user c id false) (fun user =>
    match user with
    | None => ret None
    | Some user =>
        let time_remaining :=
          if is_active user then
            let remaining := expires_at user - now in
            Some (if remaining <? 0 then 0 else remaining)
          else None in
        ret (Some {| stat_email := email user;
                     stat_created_at := created_at user;
                     stat_expires_at := expires_at user;
                     time_remaining := time_remaining;
                     stat_is_active := is_active user;
                     stat_message_count := message_count user;
                     stat_total_messages_received :=
                       total_messages_received user;
                     stat_last_checked := last_checked user;
                     stat_last_message_date := last_message_date user |})
    end).

(** [{"is_active": False, "deactivated_at": {"$lt": cutoff_date}}]: a
    document without [deactivated_at] does not match. *)
Definition old_inactive (cutoff_date : time) (d : doc) : bool :=
  (negb (is_active d) &&
   match deactivated_at d with
   | Some t => t <? cutoff_date
   | None => false
   end)%bool.

(** [cleanup_temp_files]: inactive entries deactivated more than 30 days
    ago are deleted; the result is [deleted_count]. *)
Definition cleanup_temp_files (c : client) (now : time)
  : client * outcome nat :=
  if negb (connected c) then (c, not_connected)
  else
    let cutoff_date := now - days_delta 30 in
    let '(l, n) := delete_many (old_inactive cutoff_date) (collection c) in
    (with_collection c l, ret n).

(** *** Histories over all the operations that write *)

Inductive op : Type :=
| Basic (o : Registry.op)
| UpdateLastChecked (id : Z) (now : time)
| IncrementMessageCount (id : Z) (now : time)
| DeleteUser (id : Z)
| CleanupTempFiles (now : time).

Definition step (c : client) (o : op) : client :=
  match o with
  | Basic o => Registry.step c o
  | UpdateLastChecked id now => fst (update_last_checked c id now)
  | IncrementMessageCount id now => fst (increment_message_count c id now)
  | DeleteUser id => fst (delete_user c id)
  | CleanupTempFiles now => fst (cleanup_temp_files c now)
  end.

Definition run (ops : list op) (c : client) : client := fold_left step ops c.

(** What every stored entry satisfies: its lifetime is the fixed one, its
    two counters agree and are not negative, and it is active exactly when
    it has no [deactivated_at]. *)
Definition entry_ok (d : doc) : Prop :=
  expires_at d - created_at d = EMAIL_EXPIRY_TIME /\
  message_count d = total_messages_received d /\
  0 <= message_count d /\
  (is_active d = true <-> deactivated_at d = None).

End RegistryAdmin.

(** ** The generator's helpers: [email_services/email_generator.py] *)

Module GeneratorTools.

Import Registry Generator.

(** The dictionary [validate_custom_prefix] returns. *)
Inductive validation : Type :=
| ValidPrefix (clean_prefix : str)
| InvalidPrefix (error message : str).

Definition validate_custom_prefix (prefix : str) : validation :=
  if is_empty prefix then
    InvalidPrefix (lit "empty_prefix") (lit "Prefix cannot be empty")
  else
    let clean_prefix := clean_alnum prefix in
    if is_empty clean_prefix then
      InvalidPrefix (lit "invalid_characters")
        (lit "Prefix must contain only letters and numbers")
    else if EMAIL_PREFIX_LENGTH <? length clean_prefix then
      InvalidPrefix (lit "too_long")
        (lit "Prefix must be " ++ Parser.decimal (Z.of_nat EMAIL_PREFIX_LENGTH)
         ++ lit " characters or less")
    else if length clean_prefix <? 3 then
      InvalidPrefix (lit "too_short")
        (lit "Prefix must be at least 3 characters long")
    else ValidPrefix clean_prefix.

(** [s.split(sep, 1)] for a one-character separator: one part when the
    separator does not occur, else the text before its first occurrence
    and the text after it. *)
Fixpoint split_once (sep : char) (s : str) : option (str * str) :=
  match s with
  | [] => None
  | c :: r =>
      if N.eqb c sep then Some ([], r)
      else match split_once sep r with
           | Some (h, t) => Some (c :: h, t)
           | None => None
           end
  end.

Definition split1 (sep : char) (s : str) : list str :=
  match split_once sep s with
  | Some (h, t) => [h; t]
  | None => [s]
  end.

(** The dictionary [get_email_info] returns. *)
Inductive email_info : Type :=
| EmailInfo (prefix random_part domain full_email : str)
| NotValid (error message : str).

(** The [except Exception] clause of [get_email_info], which an
    unpacking of other than two parts would reach. *)
Definition parsing_error : email_info :=
  NotValid (lit "parsing_error") (lit "Error parsing email address").

Definition get_email_info (email : str) : email_info :=
  if negb (contains (lit "@") email) then
    NotValid (lit "invalid_format") (lit "Invalid email format")
  else
    match split1 (ch "@") email with
    | [local_part; domain] =>
        if negb (PyStr.eqb domain EMAIL_DOMAIN) then
          NotValid (lit "wrong_domain")
            (lit "Email must be @" ++ EMAIL_DOMAIN)
        else if negb (contains (lit "_") local_part) then
          NotValid (lit "invalid_format")
            (lit "Email must be in format: prefix_random@domain")
        else
          match split1 (ch "_") local_part with
          | [prefix; random_part] =>
              EmailInfo prefix random_part domain email
          | _ => parsing_error
          end
    | _ => parsing_error
    end.

(** [max(6, min(10, EMAIL_RANDOM_LENGTH + (i % 3) - 1))] *)
Definition suffix_length (i : nat) : nat :=
  Nat.max 6 (Nat.min 10 (EMAIL_RANDOM_LENGTH + (i mod 3) - 1)).

(** The loop [for i in range(5)] of [suggest_email_variations], from
    turn [i] on; an exception of the lookup skips the turn. *)
Fixpoint suggest_loop (turns i : nat) (c : client) (base_prefix : str)
    (g : rng) (suggestions : list str) : list str * rng :=
  match turns with
  | O => (suggestions, g)
  | S turns' =>
      let '(random_suffix, g1) :=
        generate_random_string (suffix_length i) true g in
      let suggested_email :=
        base_prefix ++ lit "_" ++ random_suffix ++ lit "@" ++ EMAIL_DOMAIN in
      match get_user_by_email c suggested_email false with
      | inr None =>
          suggest_loop turns' (S i) c base_prefix g1
            (suggestions ++ [suggested_email])
      | inr (Some _) => suggest_loop turns' (S i) c base_prefix g1 suggestions
      | inl _ => suggest_loop turns' (S i) c base_prefix g1 suggestions
      end
  end.

(** The loop [for i in range(3)] that runs when no suggestion was
    found; a failed generation skips the turn. *)
Fixpoint fallback_loop (turns : nat) (c : client) (telegram_id : Z)
    (g : rng) (suggestions : list str) : list str * rng :=
  match turns with
  | O => (suggestions, g)
  | S turns' =>
      match generate_unique_email c telegram_id None g with
      | (inr random_email, g1) =>
          fallback_loop turns' c telegram_id g1
            (suggestions ++ [random_email])
      | (inl _, g1) => fallback_loop turns' c telegram_id g1 suggestions
      end
  end.

Definition suggest_email_variations (c : client) (base_prefix : str)
    (telegram_id : Z) (g : rng) : list str * rng :=
  let '(base_prefix, g0) :=
    match validate_custom_prefix base_prefix with
    | ValidPrefix clean_prefix => (clean_prefix, g)
    | InvalidPrefix _ _ => generate_user_prefix None g
    end in
  let '(suggestions, g1) := suggest_loop 5 0 c base_prefix g0 [] in
  let '(suggestions, g2) :=
    if is_empty suggestions then fallback_loop 3 c telegram_id g1 suggestions
    else (suggestions, g1) in
  (firstn 5 suggestions, g2).

End GeneratorTools.

(** ** File names and temporary files: [email_services/email_parser.py] *)

Module ParserFiles.

Import Imap Parser.

Local Open Scope Z_scope.

(** *** [is_safe_filename] *)

(** [\.ext$] *)
Definition extension_pattern (ext : str) : Re.re :=
  Re.seq [Re.chr (ch "."); Re.text ext; Re.Eol].

(** [\..*] *)
Definition hidden_pattern : Re.re :=
  Re.seq [Re.chr (ch "."); Re.Rep true Re.dot].

Definition dangerous_patterns : list Re.re :=
  map (fun ext => extension_pattern (lit ext))
      ["exe"; "bat"; "cmd"; "com"; "pif"; "scr"; "vbs"; "js"; "jar"; "php"]
  ++ [hidden_pattern].

(** The characters of the list in the source: the angle brackets, the
    colon, the double quote, the bar, the question mark, the star and
    NUL. *)
Definition dangerous_chars : list char :=
  [ch "<"; ch ">"; ch ":"; 34%N; ch "|"; ch "?"; ch "*"; 0%N].

(** [re.search(pattern, s)] as a truth value. *)
Definition found (pattern : Re.re) (s : str) : bool :=
  match Re.search pattern s with Some _ => true | None => false end.

Definition is_safe_filename (filename : str) : bool :=
  if is_empty filename then false
  else
    let filename_lower := lower filename in
    if existsb (fun pattern => found pattern filename_lower)
               dangerous_patterns then false
    else if existsb (fun char => contains [char] filename) dangerous_chars
    then false
    else if 255 <? len filename then false
    else true.

(** *** [cleanup_temp_files] *)

(** An entry of [self.temp_files]. *)
Record temp_file : Type := {
  path : str;
  tf_created_at : time
}.

(** [MAX_TEMP_FILE_AGE = 3600] seconds, in microseconds. *)
Definition MAX_TEMP_FILE_AGE : Z := 3600 * 1000000.

(** Equality of two entries, as [list.remove] tests it. *)
Definition temp_file_eqb (a b : temp_file) : bool :=
  (PyStr.eqb (path a) (path b) && (tf_created_at a =? tf_created_at b))%bool.

(** [l.remove(x)]: the first element equal to [x] is removed; [None]
    stands for the [ValueError] of an absent element. *)
Fixpoint list_remove (x : temp_file) (l : list temp_file)
  : option (list temp_file) :=
  match l with
  | [] => None
  | y :: r =>
      if temp_file_eqb y x then Some r
      else match list_remove x r with
           | Some r' => Some (y :: r')
           | None => None
           end
  end.

(** The parser's tracking list, the paths that exist on disk, and the
    running count. *)
Record cleanup_state : Type := {
  temp_files : list temp_file;
  on_disk : list str;
  cleaned_count : nat
}.

Section Files.

(** The paths for which [os.remove] raises. *)
Variable os_remove_raises : str -> bool.

(** [age.total_seconds() > MAX_TEMP_FILE_AGE] *)
Definition too_old (now : time) (f : temp_file) : bool :=
  MAX_TEMP_FILE_AGE <? now - tf_created_at f.

(** [os.path.exists(p)] *)
Definition os_path_exists (p : str) (disk : list str) : bool :=
  existsb (PyStr.eqb p) disk.

(** The tail of one turn of the second loop: the entry leaves the
    tracking list and is counted; an exception skips both. *)
Definition untrack (f : temp_file) (disk : list str) (st : cleanup_state)
  : cleanup_state :=
  match list_remove f (temp_files st) with
  | Some l => {| temp_files := l; on_disk := disk;
                 cleaned_count := S (cleaned_count st) |}
  | None => {| temp_files := temp_files st; on_disk := disk;
               cleaned_count := cleaned_count st |}
  end.

(** One turn of [for temp_file in files_to_remove]. *)
Definition remove_one (st : cleanup_state) (f : temp_file)
  : cleanup_state :=
  if (negb (is_empty (path f)) && os_path_exists (path f) (on_disk st))%bool
  then
    if os_remove_raises (path f) then st
    else untrack f
           (filter (fun p => negb (PyStr.eqb p (path f))) (on_disk st)) st
  else untrack f (on_disk st) st.

(** [cleanup_temp_files]: the state afterwards; its [cleaned_count]
    is the value returned. *)
Definition cleanup_temp_files (tracked : list temp_file)
    (disk : list str) (now : time) : cleanup_state :=
  let files_to_remove := filter (too_old now) tracked in
  fold_left remove_one files_to_remove
    {| temp_files := tracked; on_disk := disk; cleaned_count := 0 |}.

End Files.

End ParserFiles.

(** ** The fetching task: [utils/background_tasks.py] *)

Module Background.

Import Registry RegistryAdmin Imap.

Local Open Scope Z_scope.

(** [MAX_INBOX_MESSAGES] of [config.py], at its default. *)
Definition MAX_INBOX_MESSAGES : Z := 5.

(** The counters of [self.stats] that the fetching task writes. *)
Record stats : Type := {
  emails_processed : nat;
  attachments_processed : nat;
  errors_encountered : nat
}.

Definition add_error (st : stats) : stats :=
  {| emails_processed := emails_processed st;
     attachments_processed := attachments_processed st;
     errors_encountered := S (errors_encountered st) |}.

Definition add_attachment (st : stats) : stats :=
  {| emails_processed := emails_processed st;
     attachments_processed := S (attachments_processed st);
     errors_encountered := errors_encountered st |}.

Definition add_emails (n : nat) (st : stats) : stats :=
  {| emails_processed := (emails_processed st + n)%nat;
     attachments_processed := attachments_processed st;
     errors_encountered := errors_encountered st |}.

Section Tasks.

(** The mail server behind [imap_client.fetch_message_list]. *)
Variable search_emails : str -> option time -> outcome (list str).
Variable fetch_message : str -> outcome (option message_data).
(** [email_parser.prepare_attachment_for_telegram(attachment)], as
    the truth value of what it returns. *)
Variable prepare_attachment_for_telegram : attachment -> outcome bool.

(** [_process_new_message]: it logs, and prepares the attachments;
    an exception of a preparation skips that attachment. *)
Definition _process_new_message (st : stats) (message_data : message_data)
  : stats :=
  if has_attachments message_data then
    fold_left
      (fun st attachment =>
         match prepare_attachment_for_telegram attachment with
         | inr true => add_attachment st
         | inr false => st
         | inl _ => st
         end)
      (attachments message_data) st
  else st.

(** [_fetch_emails_for_user]; [t_inc] and [t_chk] are the clock
    readings inside [increment_message_count] and
    [update_last_checked].  An exception of either call is caught by
    the outer [except], which counts an error. *)
Definition _fetch_emails_for_user (c : client) (st : stats)
    (user_data : doc) (t_inc t_chk : time) : client * stats :=
  let telegram_id := telegram_id user_data in
  let email := email user_data in
  let last_checked := last_checked user_data in
  if is_empty email then (c, st)
  else
    match fetch_message_list search_emails fetch_message email
            MAX_INBOX_MESSAGES (Some last_checked) with
    | inl _ => (c, add_error st)
    | inr [] => (c, st)
    | inr messages =>
        let st := fold_left _process_new_message messages st in
        let new_message_count := length messages in
        if (0 <? new_message_count)%nat then
          match increment_message_count c telegram_id t_inc with
          | (c1, inl _) => (c1, add_error st)
          | (c1, inr _) =>
              match update_last_checked c1 telegram_id t_chk with
              | (c2, inl _) => (c2, add_error st)
              | (c2, inr _) => (c2, add_emails new_message_count st)
              end
          end
        else (c, st)
    end.

End Tasks.

End Background.

(** * Properties *)

(** ** Matching runs of characters *)

Section RegexFacts.

Import Re.

Implicit Types (p : char -> bool) (k : cont) (i : nat) (s run rest : str).

(** Where the text after a run does not go on with a character of the
    class, a greedy repetition of the class that has the run before it
    takes the whole run, if the rest of the pattern then matches. *)
Lemma rep_loop_greedy_run p run rest k n i x :
  all_in p run ->
  match rest with [] => True | c :: _ => p c = false end ->
  length run <= n ->
  k (i + length run) rest = Some x ->
  rep_loop (m (Cls p)) true k n i (run ++ rest) = Some x.
Proof.
  intros Hrun Hrest. revert n i.
  induction Hrun as [|c run Hc Hrun IH]; intros n i Hn Hk; simpl in *.
  - rewrite Nat.add_0_r in Hk.
    destruct n as [|n]; simpl; [exact Hk|].
    destruct rest as [|c rest]; [exact Hk|]. rewrite Hrest. exact Hk.
  - destruct n as [|n]; [lia|]. simpl. rewrite Hc.
    replace (i <? S i) with true by (symmetry; apply Nat.ltb_lt; lia).
    rewrite (IH n (S i)); [reflexivity|lia|].
    rewrite <- Hk. f_equal. lia.
Qed.

Lemma m_times_run p run rest k i :
  all_in p run ->
  m (times (length run) (Cls p)) i (run ++ rest) k = k (i + length run) rest.
Proof.
  intros Hrun. revert i.
  induction Hrun as [|c run Hc Hrun IH]; intros i; simpl.
  - rewrite Nat.add_0_r. reflexivity.
  - rewrite Hc, IH. f_equal. lia.
Qed.

Lemma m_text s rest k i :
  m (text s) i (s ++ rest) k = k (i + length s) rest.
Proof.
  revert i; induction s as [|c s IH]; intros i; simpl.
  - rewrite Nat.add_0_r. reflexivity.
  - rewrite N.eqb_refl. fold (text s). rewrite IH. f_equal. lia.
Qed.

Lemma m_cat (a b : re) i s k :
  m (Cat a b) i s k = m a i s (fun j t => m b j t k).
Proof. reflexivity. Qed.

Lemma m_bol s k : m Bol 0 s k = k 0 s.
Proof. reflexivity. Qed.

Lemma m_cls_hit p c s i k : p c = true -> m (Cls p) i (c :: s) k = k (S i) s.
Proof. intros Hc. cbn [m]. rewrite Hc. reflexivity. Qed.

Lemma m_chr c s i k : m (chr c) i (c :: s) k = k (S i) s.
Proof. apply m_cls_hit, N.eqb_refl. Qed.

Lemma m_rep_greedy_run p run rest k i x :
  all_in p run ->
  match rest with [] => True | c :: _ => p c = false end ->
  k (i + length run) rest = Some x ->
  m (Rep true (Cls p)) i (run ++ rest) k = Some x.
Proof.
  intros Hrun Hrest Hk. cbn [m].
  apply rep_loop_greedy_run; auto.
  rewrite length_app. lia.
Qed.

End RegexFacts.



(** ** The registry *)

Section RegistryFacts.

Import Registry.

Local Open Scope Z_scope.

Implicit Types (l : list doc) (d : doc) (id : Z) (now : time).

(** *** What [update_one] and [update_many] do to a collection *)

Lemma update_one_length f u l : length (fst (update_one f u l)) = length l.
Proof.
  induction l as [|d r IH]; simpl; [reflexivity|].
  destruct (f d); simpl; [reflexivity|].
  destruct (update_one f u r); simpl in *; congruence.
Qed.

Lemma update_one_miss f u l :
  find f l = None -> update_one f u l = (l, 0%nat).
Proof.
  induction l as [|d r IH]; simpl; [reflexivity|].
  destruct (f d); [discriminate|].
  intros H; rewrite (IH H); reflexivity.
Qed.

Lemma update_one_hit f u l d :
  find f l = Some d ->
  (forall x, f x = true -> f (u x) = true) ->
  snd (update_one f u l) = 1%nat /\
  find f (fst (update_one f u l)) = Some (u d).
Proof.
  intros Hfind Hkeep; induction l as [|x r IH]; simpl in *; [discriminate|].
  destruct (f x) eqn:Hx.
  - inversion Hfind; subst; simpl. rewrite (Hkeep _ Hx); auto.
  - destruct (update_one f u r) as [r' n]; simpl in *.
    rewrite Hx. auto.
Qed.

Lemma update_many_map f u l :
  update_many f u l =
  (map (fun d => if f d then u d else d) l, length (filter f l)).
Proof.
  induction l as [|d r IH]; simpl; [reflexivity|].
  rewrite IH; destruct (f d); reflexivity.
Qed.

Lemma update_one_ids f u l :
  (forall d, telegram_id (u d) = telegram_id d) ->
  map telegram_id (fst (update_one f u l)) = map telegram_id l.
Proof.
  intros Hu; induction l as [|d r IH]; simpl; [reflexivity|].
  destruct (f d); simpl; [now rewrite Hu|].
  destruct (update_one f u r); simpl in *; congruence.
Qed.

(** *** Counting active entries *)

Lemma active_for_set_deactivated id now d :
  active_for id (set_deactivated now d) = false.
Proof. unfold active_for; simpl; apply andb_false_r. Qed.

Lemma active_for_set_expired id now d :
  active_for id (set_expired now d) = false.
Proof. unfold active_for; simpl; apply andb_false_r. Qed.

Lemma count_active_cons id d l :
  count_active id (d :: l) =
  ((if active_for id d then 1 else 0) + count_active id l)%nat.
Proof. unfold count_active; simpl; destruct (active_for id d); reflexivity. Qed.

Lemma count_active_app id l1 l2 :
  count_active id (l1 ++ l2) = (count_active id l1 + count_active id l2)%nat.
Proof. unfold count_active; rewrite filter_app, length_app; reflexivity. Qed.

(** Deactivating never adds an active entry, for any identity. *)
Lemma deactivate_count_le id id' now l :
  (count_active id' (fst (update_one (active_for id) (set_deactivated now) l))
   <= count_active id' l)%nat.
Proof.
  induction l as [|d r IH]; simpl; [lia|].
  destruct (active_for id d) eqn:Hd; simpl.
  - rewrite !count_active_cons, active_for_set_deactivated. lia.
  - destruct (update_one (active_for id) (set_deactivated now) r) as [r' n].
    simpl in *. rewrite !count_active_cons. lia.
Qed.

(** With at most one active entry for [id], deactivating leaves none. *)
Lemma deactivate_count_zero id now l :
  (count_active id l <= 1)%nat ->
  count_active id (fst (update_one (active_for id) (set_deactivated now) l))
  = 0%nat.
Proof.
  induction l as [|d r IH]; simpl; [reflexivity|].
  rewrite count_active_cons.
  destruct (active_for id d) eqn:Hd; simpl; intros Hle.
  - rewrite count_active_cons, active_for_set_deactivated. lia.
  - destruct (update_one (active_for id) (set_deactivated now) r) as [r' n].
    simpl in *. rewrite count_active_cons, Hd. apply IH. lia.
Qed.

Lemma sweep_count_le id now l :
  (count_active id (fst (update_many (expired_active now) (set_expired now) l))
   <= count_active id l)%nat.
Proof.
  rewrite update_many_map; simpl.
  induction l as [|d r IH]; simpl; [lia|].
  rewrite !count_active_cons.
  destruct (expired_active now d); [rewrite active_for_set_expired|]; lia.
Qed.

Lemma deactivate_user_invariant c id now :
  at_most_one_active c -> at_most_one_active (fst (deactivate_user c id now)).
Proof.
  intros Hinv id'. unfold deactivate_user.
  destruct (connected c); simpl; [|apply Hinv].
  pose proof (deactivate_count_le id id' now (collection c)) as Hle.
  destruct (update_one _ _ (collection c)) as [l n]; simpl in *.
  specialize (Hinv id'). lia.
Qed.

Lemma delete_expired_users_invariant c now :
  at_most_one_active c -> at_most_one_active (fst (delete_expired_users c now)).
Proof.
  intros Hinv id. unfold delete_expired_users.
  destruct (connected c); simpl; [|apply Hinv].
  pose proof (sweep_count_le id now (collection c)) as Hle.
  destruct (update_many _ _ (collection c)) as [l n]; simpl in *.
  specialize (Hinv id). lia.
Qed.

Lemma create_user_invariant c id e p t_deact now :
  at_most_one_active c ->
  at_most_one_active (fst (create_user c id e p t_deact now)).
Proof.
  intros Hinv. unfold create_user.
  destruct (connected c) eqn:Hc; simpl; [|exact Hinv].
  pose proof (deactivate_user_invariant c id t_deact Hinv) as Hinv1.
  assert (Hzero : count_active id
                    (collection (fst (deactivate_user c id t_deact))) = 0%nat).
  { unfold deactivate_user. rewrite Hc; simpl.
    pose proof (deactivate_count_zero id t_deact _ (Hinv id)) as Hz.
    destruct (update_one _ _ (collection c)); simpl in *. exact Hz. }
  set (c1 := fst (deactivate_user c id t_deact)) in *.
  unfold insert_one.
  destruct (existsb _ (collection c1)); cbn [fst]; [exact Hinv1|].
  intros id'. cbn [collection with_collection].
  rewrite count_active_app, count_active_cons.
  unfold active_for; cbn [telegram_id is_active new_user_doc].
  rewrite andb_true_r.
  destruct (Z.eqb_spec id id') as [<-|Hne]; cbn [count_active filter length].
  - rewrite Hzero. lia.
  - specialize (Hinv1 id'). lia.
Qed.

Lemma step_invariant c o :
  at_most_one_active c -> at_most_one_active (step c o).
Proof.
  destruct o; simpl;
    auto using create_user_invariant, deactivate_user_invariant,
               delete_expired_users_invariant.
Qed.

Lemma run_invariant ops c :
  at_most_one_active c -> at_most_one_active (run ops c).
Proof.
  revert c; induction ops as [|o ops IH]; intros c Hinv; simpl; [exact Hinv|].
  apply IH, step_invariant, Hinv.
Qed.

(** C2.  Starting from an empty collection (with the client connected or
    not), after any finite sequence of create, deactivate and expiry-sweep
    operations, every identity has at most one stored entry with
    [is_active = true]. *)
Theorem at_most_one_active_entry (conn : bool) (ops : list op) (id : Z) :
  (count_active id
     (collection (run ops {| connected := conn; collection := [] |})) <= 1)%nat.
Proof.
  apply (run_invariant ops {| connected := conn; collection := [] |}).
  intros id'. unfold count_active; simpl. lia.
Qed.

(** *** [create_user] *)

Lemma deactivate_user_ids c id now :
  map telegram_id (collection (fst (deactivate_user c id now))) =
  map telegram_id (collection c).
Proof.
  unfold deactivate_user. destruct (connected c); simpl; [|reflexivity].
  pose proof (update_one_ids (active_for id) (set_deactivated now)
                (collection c) (fun _ => eq_refl)) as H.
  destruct (update_one _ _ (collection c)); simpl in *. exact H.
Qed.

Lemma existsb_ids id l l' :
  map telegram_id l = map telegram_id l' ->
  existsb (fun x => telegram_id x =? id) l =
  existsb (fun x => telegram_id x =? id) l'.
Proof.
  revert l'; induction l as [|d r IH]; intros [|d' r'] H; simpl in *;
    try discriminate; [reflexivity|].
  inversion H as [[Hd Hr]]. rewrite Hd, (IH _ Hr). reflexivity.
Qed.

(** An identity that already has a stored entry, active or not, cannot be
    given a new one: the insert meets the unique index. *)
Lemma create_user_stored_identity_raises l id e p t_deact now :
  existsb (fun x => telegram_id x =? id) l = true ->
  snd (create_user {| connected := true; collection := l |} id e p t_deact now)
  = raise (ValueError (lit "User already exists")).
Proof.
  intros Hex. unfold create_user; cbn [connected negb]; cbv zeta.
  set (c := {| connected := true; collection := l |}).
  unfold insert_one; cbn [telegram_id new_user_doc].
  rewrite (existsb_ids id _ _ (deactivate_user_ids c id t_deact)).
  cbn [collection c]. rewrite Hex. reflexivity.
Qed.

(** For an identity with no stored entry the insert succeeds and the new
    entry is as [create_user] builds it. *)
Lemma create_user_fresh_identity l id e p t_deact now :
  existsb (fun x => telegram_id x =? id) l = false ->
  exists d,
    create_user {| connected := true; collection := l |} id e p t_deact now
    = ({| connected := true; collection := l ++ [d] |}, ret d) /\
    telegram_id d = id /\ email d = e /\ is_active d = true /\
    created_at d = now /\ expires_at d - created_at d = EMAIL_EXPIRY_TIME /\
    message_count d = 0 /\ total_messages_received d = 0.
Proof.
  intros Hex. exists (new_user_doc id e p now).
  assert (Hfind : find (active_for id) l = None).
  { clear -Hex. induction l as [|x r IH]; simpl in *; [reflexivity|].
    apply orb_false_elim in Hex as [Hx Hr].
    unfold active_for at 1. rewrite Hx. simpl. auto. }
  unfold create_user, deactivate_user; simpl.
  rewrite (update_one_miss _ _ _ Hfind); simpl.
  unfold insert_one, with_collection; simpl. rewrite Hex.
  repeat split; simpl; lia.
Qed.

(** The registry after identity 42 was given an address at time 0 and the
    sweep ran one microsecond after the address expired. *)
Definition expired_registry : client :=
  run [Create 42 (lit "abcxyz_a1b2c3d4@seveton.site") None 0 0;
       Sweep (EMAIL_EXPIRY_TIME + 1)]
      {| connected := true; collection := [] |}.

(** C1.  [create_user] at a registry that still stores the expired,
    inactive entry of identity 42: there is no active entry for 42, and
    the call raises [ValueError("User already exists")] and stores
    nothing. *)
Theorem create_user_rejects_inactive_identity :
  get_user expired_registry 42 true = ret None /\
  create_user expired_registry 42 (lit "qwerty_z9y8x7w6@seveton.site")
    (Some (lit "qwerty")) (EMAIL_EXPIRY_TIME + 2) (EMAIL_EXPIRY_TIME + 2)
  = (expired_registry, raise (ValueError (lit "User already exists"))).
Proof. split; vm_compute; reflexivity. Qed.

(** An entry created at [T] is still active after a sweep at [T + 59 min]
    and is deactivated, with reason "expired", by a sweep at
    [T + 61 min]. *)
Lemma sweep_scenario :
  let minute := 60 * 1000000 in
  let T := 1000 in
  let c0 := fst (create_user {| connected := true; collection := [] |} 42
                   (lit "abcxyz_a1b2c3d4@seveton.site") (Some (lit "abcxyz"))
                   T T) in
  let c1 := fst (delete_expired_users c0 (T + 59 * minute)) in
  let c2 := fst (delete_expired_users c1 (T + 61 * minute)) in
  option_map is_active (find_one (fun d => telegram_id d =? 42) (collection c1))
  = Some true /\
  option_map is_active (find_one (fun d => telegram_id d =? 42) (collection c2))
  = Some false /\
  option_map deactivation_reason
    (find_one (fun d => telegram_id d =? 42) (collection c2))
  = Some (Some (lit "expired")).
Proof. vm_compute. repeat split. Qed.

(** *** [delete_expired_users] *)

(** C5.  On a connected client the sweep returns the number of entries
    that are active with [expires_at < now]; each of those becomes inactive
    with [deactivation_reason = "expired"] and [deactivated_at = now], its
    other fields kept; an entry with [expires_at >= now] and an entry that
    is already inactive are left as they are. *)
Theorem delete_expired_users_exact (l : list doc) (now : time) :
  exists l',
    delete_expired_users {| connected := true; collection := l |} now
    = ({| connected := true; collection := l' |},
       ret (length (filter (expired_active now) l))) /\
    Forall2
      (fun d d' =>
         (is_active d = true -> expires_at d < now ->
          d' = set_expired now d /\ is_active d' = false /\
          deactivation_reason d' = Some (lit "expired") /\
          deactivated_at d' = Some now) /\
         (now <= expires_at d -> d' = d) /\
         (is_active d = false -> d' = d))
      l l'.
Proof.
  exists (map (fun d => if expired_active now d then set_expired now d else d) l).
  split.
  - unfold delete_expired_users; simpl. rewrite update_many_map. reflexivity.
  - induction l as [|d r IH]; simpl; constructor; [|exact IH].
    unfold expired_active.
    destruct (is_active d); simpl; destruct (Z.ltb_spec (expires_at d) now);
      repeat split; intros; try reflexivity; try lia; try discriminate.
Qed.

(** *** [increment_message_count] *)

Lemma get_user_active l id :
  get_user {| connected := true; collection := l |} id true
  = ret (find (active_for id) l).
Proof. reflexivity. Qed.

Lemma increment_many_cons c id t ts :
  increment_many c id (t :: ts)
  = increment_many (fst (increment_message_count c id t)) id ts.
Proof. reflexivity. Qed.

Lemma increment_many_counts l id ts d :
  find (active_for id) l = Some d ->
  exists l' d',
    increment_many {| connected := true; collection := l |} id ts
    = {| connected := true; collection := l' |} /\
    find (active_for id) l' = Some d' /\
    message_count d' = message_count d + Z.of_nat (length ts) /\
    total_messages_received d' =
      total_messages_received d + Z.of_nat (length ts).
Proof.
  revert l d; induction ts as [|t ts IH]; intros l d Hfind.
  - exists l, d; simpl; repeat split; auto; lia.
  - rewrite increment_many_cons.
    unfold increment_message_count; cbn [connected negb collection].
    destruct (update_one_hit (active_for id) (inc_messages t) l d Hfind)
      as [_ Hfind']; [intros x Hx; exact Hx|].
    destruct (update_one (active_for id) (inc_messages t) l) as [l1 n].
    cbn [fst snd with_collection connected] in *.
    destruct (IH _ _ Hfind') as (l' & d' & Hrun & Hf & Hm & Ht).
    exists l', d'. unfold with_collection; cbn [connected]. rewrite Hrun.
    repeat split; auto; cbn [length inc_messages message_count
                               total_messages_received] in *; lia.
Qed.

(** C6.  On a connected client: when the identity has an active entry, a
    call returns [True], and after [k] calls the active entry's
    [message_count] and [total_messages_received] are both [k] more than
    before; when it has none, a call returns [False] and leaves the client
    and its collection as they were. *)
Theorem increment_message_count_counts (l : list doc) (id : Z)
    (ts : list time) :
  let c := {| connected := true; collection := l |} in
  match find_one (active_for id) l with
  | Some d =>
      get_user c id true = ret (Some d) /\
      (forall now, snd (increment_message_count c id now) = ret true) /\
      exists d',
        get_user (increment_many c id ts) id true = ret (Some d') /\
        message_count d' = message_count d + Z.of_nat (length ts) /\
        total_messages_received d' =
          total_messages_received d + Z.of_nat (length ts)
  | None =>
      get_user c id true = ret None /\
      forall now, increment_message_count c id now = (c, ret false)
  end.
Proof.
  intros c. unfold c, find_one. rewrite get_user_active.
  destruct (find (active_for id) l) as [d|] eqn:Hfind.
  - split; [reflexivity|]. split.
    + intros now. unfold increment_message_count; simpl.
      destruct (update_one_hit (active_for id) (inc_messages now) l d Hfind)
        as [Hn _]; [intros x Hx; exact Hx|].
      destruct (update_one _ _ l) as [l1 n]; simpl in *. subst n. reflexivity.
    + destruct (increment_many_counts l id ts d Hfind)
        as (l' & d' & Hrun & Hf & Hm & Ht).
      exists d'. rewrite Hrun, get_user_active, Hf. auto.
  - split; [reflexivity|].
    intros now. unfold increment_message_count; simpl.
    rewrite (update_one_miss _ _ _ Hfind). reflexivity.
Qed.

End RegistryFacts.

(** ** The address generator *)

Section GeneratorFacts.

Import Registry Generator.
Import Re (all_in).

(** A connected, empty registry and a source of draws. *)
Definition empty_registry : client :=
  {| connected := true; collection := [] |}.
Definition sample_rng : rng := {| draws := fun n => n * 7; drawn := 0 |}.

(** The typed prefix "ééé": three times U+00E9. *)
Definition accented_prefix : str := [233; 233; 233]%N.

(** *** The shape of generated addresses *)

Lemma allowed_chars_lower_alnum : all_in is_lower_alnum EMAIL_ALLOWED_CHARS.
Proof. unfold all_in. vm_compute. repeat constructor. Qed.

Lemma choice_allowed g :
  is_lower_alnum (fst (choice EMAIL_ALLOWED_CHARS g)) = true.
Proof.
  unfold choice; cbn [fst].
  pose proof allowed_chars_lower_alnum as Hall.
  unfold all_in in Hall. rewrite Forall_forall in Hall.
  apply Hall, nth_In, Nat.mod_upper_bound. vm_compute. discriminate.
Qed.

Lemma choices_allowed k g :
  all_in is_lower_alnum (fst (choices EMAIL_ALLOWED_CHARS k g)) /\
  length (fst (choices EMAIL_ALLOWED_CHARS k g)) = k.
Proof.
  revert g; induction k as [|k IH]; intros g; cbn [choices].
  - split; [constructor|reflexivity].
  - pose proof (choice_allowed g) as Hc.
    destruct (choice EMAIL_ALLOWED_CHARS g) as [c g1]; cbn [fst] in Hc.
    specialize (IH g1).
    destruct (choices EMAIL_ALLOWED_CHARS k g1) as [r g2]; cbn [fst] in *.
    destruct IH as [Hall Hlen].
    split; [constructor; assumption|cbn [length]; lia].
Qed.

Lemma pad_prefix_allowed turns s g :
  all_in is_lower_alnum s ->
  all_in is_lower_alnum (fst (pad_prefix turns s g)) /\
  length s <= length (fst (pad_prefix turns s g)).
Proof.
  revert s g; induction turns as [|turns IH]; intros s g Hs; cbn [pad_prefix].
  - split; [exact Hs|cbn [fst]; lia].
  - destruct (length s <? EMAIL_PREFIX_LENGTH);
      [|split; [exact Hs|cbn [fst]; lia]].
    pose proof (choice_allowed g) as Hc.
    destruct (choice EMAIL_ALLOWED_CHARS g) as [c g1]; cbn [fst] in Hc.
    destruct (IH (s ++ [c]) g1) as [Hall Hlen].
    + apply Forall_app. split; [exact Hs|constructor; [exact Hc|constructor]].
    + split; [exact Hall|]. rewrite length_app in Hlen. cbn [length] in Hlen. lia.
Qed.

(** On ASCII text the prefix cleaner keeps lower-case letters and digits
    only. *)
Lemma clean_alnum_ascii s :
  Forall (fun c => (c < 128)%N) s -> all_in is_lower_alnum (clean_alnum s).
Proof.
  assert (Htable :
            forallb (fun c => implb (isalnum (lower1 c))
                                    (is_lower_alnum (lower1 c)))
                    (map N.of_nat (seq 0 128)) = true)
    by (vm_compute; reflexivity).
  rewrite forallb_forall in Htable.
  intros Hascii. unfold clean_alnum, lower, all_in.
  induction Hascii as [|c s Hc _ IH]; simpl; [constructor|].
  destruct (isalnum (lower1 c)) eqn:Halnum; [|exact IH].
  constructor; [|exact IH].
  specialize (Htable c). rewrite Halnum in Htable. apply Htable.
  apply in_map_iff. exists (N.to_nat c). split; [lia|].
  apply in_seq. lia.
Qed.

Lemma all_in_firstn p n s : all_in p s -> all_in p (firstn n s).
Proof.
  unfold all_in. intros Hall. revert n.
  induction Hall as [|c s Hc _ IH]; intros [|n]; cbn [firstn];
    constructor; [exact Hc|apply IH].
Qed.

Definition ascii_prefix (custom_prefix : option str) : Prop :=
  match custom_prefix with
  | Some p => Forall (fun c => (c < 128)%N) p
  | None => True
  end.

Lemma generate_user_prefix_allowed custom_prefix g :
  ascii_prefix custom_prefix ->
  all_in is_lower_alnum (fst (generate_user_prefix custom_prefix g)) /\
  fst (generate_user_prefix custom_prefix g) <> [].
Proof.
  assert (Hrandom : forall g,
             all_in is_lower_alnum
               (fst (generate_random_string EMAIL_PREFIX_LENGTH true g)) /\
             fst (generate_random_string EMAIL_PREFIX_LENGTH true g) <> []).
  { intros g0. unfold generate_random_string.
    destruct (choices_allowed EMAIL_PREFIX_LENGTH g0) as [Hall Hlen].
    split; [exact Hall|]. intros Hnil. rewrite Hnil in Hlen. discriminate. }
  intros Hascii. unfold generate_user_prefix.
  destruct custom_prefix as [[|x r]|]; try apply Hrandom.
  pose proof (clean_alnum_ascii (x :: r) Hascii) as Hclean.
  set (clean_prefix := clean_alnum (x :: r)) in *.
  destruct (Nat.ltb_spec EMAIL_PREFIX_LENGTH (length clean_prefix)) as [Hlong|_].
  - cbn [fst]. split; [apply all_in_firstn, Hclean|].
    intros Hnil. apply (f_equal (@length _)) in Hnil.
    rewrite length_firstn in Hnil. cbn [length] in Hnil.
    unfold EMAIL_PREFIX_LENGTH in *. lia.
  - destruct (Nat.eqb_spec (length clean_prefix) 0) as [_|Hne];
      [apply Hrandom|].
    destruct (pad_prefix_allowed EMAIL_PREFIX_LENGTH clean_prefix g Hclean)
      as [Hall Hlen].
    split; [exact Hall|]. intros Hnil. rewrite Hnil in Hlen.
    cbn [length] in Hlen. lia.
Qed.

Lemma attempt_loop_address attempts c prefix g e g' :
  attempt_loop attempts c prefix g = (ret e, g') ->
  exists suffix,
    e = address prefix suffix /\
    all_in is_lower_alnum suffix /\ length suffix = EMAIL_RANDOM_LENGTH /\
    get_user_by_email c e false = ret None.
Proof.
  revert g; induction attempts as [|attempts IH]; intros g;
    cbn [attempt_loop]; [discriminate|].
  unfold generate_random_string.
  destruct (choices_allowed EMAIL_RANDOM_LENGTH g) as [Hall Hlen].
  destruct (choices EMAIL_ALLOWED_CHARS EMAIL_RANDOM_LENGTH g) as [suffix g1].
  cbn [fst] in Hall, Hlen.
  destruct (get_user_by_email c (address prefix suffix) false)
    as [err|[d|]] eqn:Hget; try apply IH.
  intros H; inversion H; subst. exists suffix. auto.
Qed.

(** An address built from a non-empty prefix and an eight-character
    suffix, both of lower-case letters and digits, has the shape. *)
Lemma address_well_formed prefix suffix :
  prefix <> [] ->
  all_in is_lower_alnum prefix -> all_in is_lower_alnum suffix ->
  length suffix = EMAIL_RANDOM_LENGTH ->
  well_formed (address prefix suffix) = true.
Proof.
  intros Hne Hprefix Hsuffix Hlen.
  destruct prefix as [|c prefix]; [congruence|].
  inversion Hprefix as [|? ? Hc Hrest]; subst.
  unfold well_formed, Re.matches, Re.match_at, address_shape, address, Re.seq.
  cbn [fold_right app]. unfold Re.plus, lower_alnum.
  rewrite m_cat, m_bol.
  rewrite !m_cat, m_cls_hit by exact Hc.
  erewrite m_rep_greedy_run; [reflexivity|exact Hrest|reflexivity|].
  change (lit "_") with [ch "_"]. change (lit "@") with [ch "@"].
  cbn [app]. rewrite m_cat, m_chr.
  rewrite m_cat, <- Hlen, m_times_run by exact Hsuffix.
  cbn [app]. rewrite m_cat, m_chr.
  rewrite <- (app_nil_r EMAIL_DOMAIN) at 2.
  rewrite m_cat, m_text. reflexivity.
Qed.

(** Without a custom prefix, or with one of ASCII characters, an address
    that [generate_unique_email] returns has the shape and is not stored
    in the registry. *)
Lemma generate_unique_email_well_formed c telegram_id custom_prefix g e g' :
  ascii_prefix custom_prefix ->
  generate_unique_email c telegram_id custom_prefix g = (ret e, g') ->
  well_formed e = true /\ get_user_by_email c e false = ret None.
Proof.
  intros Hascii. unfold generate_unique_email.
  destruct (generate_user_prefix_allowed custom_prefix g Hascii)
    as [Hall Hne].
  destruct (generate_user_prefix custom_prefix g) as [prefix g1].
  cbn [fst] in Hall, Hne. intros Hloop.
  destruct (attempt_loop_address _ _ _ _ _ _ Hloop)
    as (suffix & -> & Hsuffix & Hlen & Hget).
  split; [apply address_well_formed; assumption|exact Hget].
Qed.

(** *** Distinct addresses *)

Lemma get_user_by_email_none c e :
  get_user_by_email c e false = ret None -> ~ In e (emails c).
Proof.
  unfold get_user_by_email, find_one, emails.
  destruct (connected c); cbn [negb]; [|discriminate].
  intros H. inversion H as [Hfind]. clear H.
  intros Hin. apply in_map_iff in Hin as (d & <- & Hd).
  pose proof (find_none _ _ Hfind d Hd) as Hno. cbn beta in Hno.
  unfold PyStr.eqb in Hno.
  destruct (list_eq_dec N.eq_dec (email d) (email d)); [discriminate|congruence].
Qed.

Lemma update_one_emails f u l :
  (forall d, email (u d) = email d) ->
  map email (fst (update_one f u l)) = map email l.
Proof.
  intros Hu; induction l as [|d r IH]; cbn [update_one]; [reflexivity|].
  destruct (f d); cbn [fst map]; [now rewrite Hu|].
  destruct (update_one f u r); cbn [fst map] in *; congruence.
Qed.

Lemma deactivate_user_emails c id now :
  emails (fst (deactivate_user c id now)) = emails c.
Proof.
  unfold deactivate_user, emails. destruct (connected c); cbn [negb fst];
    [|reflexivity].
  pose proof (update_one_emails (active_for id) (set_deactivated now)
                (collection c) (fun _ => eq_refl)) as H.
  destruct (update_one _ _ (collection c)); cbn [fst] in *. exact H.
Qed.

Lemma create_user_emails c id e p t_deact now :
  match snd (create_user c id e p t_deact now) with
  | inr _ => emails (fst (create_user c id e p t_deact now)) = emails c ++ [e]
  | inl _ => emails (fst (create_user c id e p t_deact now)) = emails c
  end.
Proof.
  unfold create_user. destruct (connected c); cbn [negb fst snd];
    [|reflexivity].
  pose proof (deactivate_user_emails c id t_deact) as Hsame.
  set (c1 := fst (deactivate_user c id t_deact)) in *.
  unfold insert_one. destruct (existsb _ (collection c1)); cbn [fst snd].
  - exact Hsame.
  - unfold emails, with_collection in *; cbn [collection].
    rewrite map_app, Hsame. reflexivity.
Qed.

Lemma generate_unique_email_not_stored c telegram_id custom_prefix g e g' :
  generate_unique_email c telegram_id custom_prefix g = (ret e, g') ->
  ~ In e (emails c).
Proof.
  unfold generate_unique_email.
  destruct (generate_user_prefix custom_prefix g) as [prefix g1].
  intros Hloop.
  destruct (attempt_loop_address _ _ _ _ _ _ Hloop) as (_ & _ & _ & _ & Hget).
  apply get_user_by_email_none, Hget.
Qed.

(** An address that [provision] returns was not stored before the call
    and is stored after it; a call that returns none leaves the stored
    addresses as they were. *)
Lemma provision_emails c telegram_id custom_prefix g t_deact now :
  let '(c1, shown, _) :=
    provision c telegram_id custom_prefix g t_deact now in
  match shown with
  | Some e => ~ In e (emails c) /\ emails c1 = emails c ++ [e]
  | None => emails c1 = emails c
  end.
Proof.
  unfold provision, generate_email_with_validation.
  destruct (get_user c telegram_id true) as [err0|[d0|]];
    [destruct err0; reflexivity|reflexivity|].
  destruct (generate_unique_email c telegram_id custom_prefix g)
    as [[err1|e] g1] eqn:Hgen; [destruct err1; reflexivity|].
  pose proof (generate_unique_email_not_stored _ _ _ _ _ _ Hgen) as Hfresh.
  pose proof (create_user_emails c telegram_id e
                (Some (split_head (ch "_") (split_head (ch "@") e)))
                t_deact now) as Hstore.
  destruct (create_user c telegram_id e _ t_deact now) as [c1 [err|d]];
    cbn [fst snd] in Hstore; auto.
Qed.

Lemma provisions_fresh reqs c g :
  NoDup (provisions reqs c g) /\
  forall e, In e (provisions reqs c g) -> ~ In e (emails c).
Proof.
  revert c g; induction reqs as [|r rest IH]; intros c g; cbn [provisions].
  - split; [constructor|intros e []].
  - pose proof (provision_emails c (who r) (typed_prefix r) g
                  (deactivation_clock r) (creation_clock r)) as Hstep.
    destruct (provision c (who r) (typed_prefix r) g (deactivation_clock r)
                (creation_clock r)) as [[c1 [e|]] g1].
    + destruct Hstep as [Hfresh Hstored].
      destruct (IH c1 g1) as [Hnodup Hlater].
      assert (Hnew : forall e', In e' (provisions rest c1 g1) ->
                                e' <> e /\ ~ In e' (emails c)).
      { intros e' Hin. specialize (Hlater e' Hin).
        rewrite Hstored, in_app_iff in Hlater. cbn [In] in Hlater.
        split; [intros ->|]; tauto. }
      split.
      * constructor; [|exact Hnodup].
        intros Hin. destruct (Hnew e Hin) as [Hne _]. congruence.
      * intros e' [<-|Hin]; [exact Hfresh|apply Hnew, Hin].
    + destruct (IH c1 g1) as [Hnodup Hlater].
      split; [exact Hnodup|]. intros e' Hin. rewrite <- Hstep.
      apply Hlater, Hin.
Qed.

(** Whatever the history of requests, the registry before it and the
    random draws: the addresses that the successful calls return are
    pairwise distinct. *)
Lemma provisions_distinct reqs c g : NoDup (provisions reqs c g).
Proof. apply provisions_fresh. Qed.

(** C3.  Identity 42 asks for an address with the custom prefix "ééé" on
    an empty registry.  [str.isalnum] holds of U+00E9, so the prefix is
    kept and padded, and the address returned, shown and stored is
    "éééaho_v29gnu18@seveton.site", which is not of the shape
    [^[a-z0-9]+_[a-z0-9]{8}@seveton.site$]. *)
Theorem custom_prefix_address_not_well_formed :
  let address := accented_prefix ++ lit "aho_v29gnu18@seveton.site" in
  fst (generate_unique_email empty_registry 42%Z (Some accented_prefix)
         sample_rng) = ret address /\
  (let '(c, shown, _) :=
     provision empty_registry 42%Z (Some accented_prefix) sample_rng 0%Z 0%Z in
   shown = Some address /\
   option_map email (find_one (active_for 42%Z) (collection c))
   = Some address) /\
  well_formed address = false.
Proof. vm_compute. repeat split. Qed.

(** Whatever the registry and the draws: an address generated for the
    prefix "ééé" begins with U+00E9 and does not have the shape. *)
Lemma accented_prefix_never_well_formed c telegram_id g e g' :
  generate_unique_email c telegram_id (Some accented_prefix) g = (ret e, g') ->
  well_formed e = false.
Proof.
  unfold generate_unique_email.
  assert (Hprefix : exists rest,
             fst (generate_user_prefix (Some accented_prefix) g)
             = 233%N :: rest).
  { unfold generate_user_prefix, accented_prefix.
    change (clean_alnum [233; 233; 233]%N) with [233; 233; 233]%N.
    cbv beta iota zeta delta [Nat.ltb Nat.leb Nat.eqb length
                              EMAIL_PREFIX_LENGTH pad_prefix].
    destruct (choice EMAIL_ALLOWED_CHARS g) as [c1 g1].
    destruct (choice EMAIL_ALLOWED_CHARS g1) as [c2 g2].
    destruct (choice EMAIL_ALLOWED_CHARS g2) as [c3 g3].
    eexists. reflexivity. }
  destruct (generate_user_prefix (Some accented_prefix) g) as [prefix g1].
  destruct Hprefix as [rest Hprefix]. cbn [fst] in Hprefix. subst prefix.
  intros Hloop.
  destruct (attempt_loop_address _ _ _ _ _ _ Hloop) as (suffix & -> & _).
  reflexivity.
Qed.

(** Identity 42 is given an address; asking again without deleting it is
    refused, with the existing address named. *)
Lemma provision_twice_scenario :
  let '(c, shown, g) :=
    provision empty_registry 42%Z None sample_rng 0%Z 0%Z in
  shown = Some (lit "ahov29_gnu18fmt@seveton.site") /\
  fst (generate_email_with_validation c 42%Z None g)
  = UserAlreadyHasEmail (lit "ahov29_gnu18fmt@seveton.site").
Proof. vm_compute. split; reflexivity. Qed.

End GeneratorFacts.

(** ** The mailbox client *)

Section ParsingFacts.

Import Imap.

Variable decode : str -> bytes -> outcome str.
Variable decode_header : str -> outcome (list ((bytes + str) * option str)).
Variable date_tuple : Type.
Variable parsedate_tz : str -> outcome (option date_tuple).
Variable fromtimestamp : date_tuple -> outcome time.
Variable as_string : message -> outcome str.

Local Abbreviation decode_hdr := (_decode_header decode decode_header).
Local Abbreviation extract_attachment :=
  (_extract_attachment decode decode_header).
Local Abbreviation extract := (_extract_body_and_attachments decode decode_header).
Local Abbreviation parse_try :=
  (parse_body decode decode_header parsedate_tz fromtimestamp as_string).
Local Abbreviation parse :=
  (_parse_email_message decode decode_header parsedate_tz fromtimestamp
     as_string).

(** *** The helpers catch what they raise *)

Lemma bind_ret {A B} (a : A) (f : A -> outcome B) : bind (ret a) f = f a.
Proof. reflexivity. Qed.

(** Replace a call that is known to return by its value. *)
Ltac returns H := destruct H as [? ->]; rewrite bind_ret.

Lemma try_except_returns {A} (body : outcome A) (h : exn -> A) :
  exists a, try_except body (fun e => ret (h e)) = ret a.
Proof. destruct body as [e|a]; simpl; eauto. Qed.

Lemma _decode_header_returns header :
  exists s, decode_hdr header = ret s.
Proof.
  unfold _decode_header. destruct header; [eauto|].
  apply (try_except_returns _ (fun _ => _)).
Qed.

Lemma _parse_date_returns date_str now :
  exists t, _parse_date parsedate_tz fromtimestamp date_str now = ret t.
Proof. apply (try_except_returns _ (fun _ => now)). Qed.

Lemma _extract_email_from_header_returns header :
  exists s, _extract_email_from_header header = ret s.
Proof. apply (try_except_returns _ (fun _ => header)). Qed.

Lemma _extract_attachment_returns part :
  exists r, extract_attachment part = ret r.
Proof. apply (try_except_returns _ (fun _ => None)). Qed.

Lemma _extract_body_and_attachments_returns msg :
  exists x, extract msg = ret x.
Proof.
  unfold _extract_body_and_attachments.
  destruct (if is_multipart msg then _ else _) as [x [e|]]; eauto.
Qed.

Lemma _parse_email_message_returns msg uid now :
  exists md, parse msg uid now = ret md.
Proof. apply (try_except_returns _ (fun e => degraded uid e)). Qed.

(** The [try] block of [_parse_email_message] raises exactly when
    [str(email_message)] does. *)
Lemma parse_body_raises_iff msg uid now e :
  parse_try msg uid now = raise e <-> as_string msg = raise e.
Proof.
  unfold parse_body.
  returns (_decode_header_returns (get msg (lit "Subject") [])).
  match goal with |- context [bind (decode_hdr ?h)] =>
    returns (_decode_header_returns h) end.
  match goal with |- context [bind (decode_hdr ?h)] =>
    returns (_decode_header_returns h) end.
  returns (_parse_date_returns (get msg (lit "Date") []) now).
  returns (_extract_body_and_attachments_returns msg).
  match goal with |- context [bind (_extract_email_from_header ?h)] =>
    returns (_extract_email_from_header_returns h) end.
  unfold ret, raise, bind.
  destruct (as_string msg) as [e'|text]; split; intros H;
    congruence.
Qed.




(** [fetch_message] returns too, whatever the connection answers; what it
    returns is [None] or the record of [_parse_email_message]. *)
Lemma fetch_message_returns connected uid_fetch uid now :
  exists r,
    fetch_message decode decode_header parsedate_tz fromtimestamp as_string
      connected uid_fetch uid now = ret r /\
    match r with
    | Some md => exists msg, parse msg uid now = ret md
    | None => True
    end.
Proof.
  unfold fetch_message. destruct connected; cbn [negb]; [|exists None; auto].
  destruct (uid_fetch uid) as [e|[status [[e|msg]|]]]; cbn [bind try_except ret];
    try (exists None; split; [reflexivity|exact I]);
    destruct (negb (PyStr.eqb status (lit "OK")));
    try (exists None; split; [reflexivity|exact I]).
  destruct (_parse_email_message_returns msg uid now) as [md Hmd].
  cbn [bind]. rewrite Hmd. exists (Some md). split; [reflexivity|eauto].
Qed.

(** *** Where attachments come from *)

Lemma _extract_attachment_some part a :
  extract_attachment part = ret (Some a) ->
  exists fname payload,
    declared_filename (info_of part) = Some fname /\ fname <> [] /\
    get_payload part = Some payload /\ payload <> [] /\
    decode_hdr fname = ret (filename a) /\
    data a = payload /\ size a = length payload /\
    att_content_type a = content_type (info_of part).
Proof.
  unfold _extract_attachment.
  destruct (declared_filename (info_of part)) as [[|c fname]|] eqn:Hname;
    [intros H; discriminate H| |intros H; discriminate H].
  destruct (_decode_header_returns (c :: fname)) as [s Hs].
  rewrite Hs, bind_ret.
  destruct (get_payload part) as [[|b payload]|] eqn:Hpay;
    [intros H; discriminate H| |intros H; discriminate H].
  intros H; inversion H; subst a; cbn.
  exists (c :: fname), (b :: payload). repeat split; auto; discriminate.
Qed.

Lemma visit_attachments x part x' r a :
  visit decode decode_header x part = (x', r) ->
  In a (x_attachments x') ->
  In a (x_attachments x) \/ attachment_of decode decode_header part a.
Proof.
  unfold visit.
  destruct (contains (lit "attachment") _) eqn:Hdisp.
  - destruct (extract_attachment part) as [e|[a'|]] eqn:Hext;
      intros H; inversion H; subst; simpl; auto.
    rewrite in_app_iff; simpl. intros [Hin|[<-|[]]]; [auto|].
    right. split; [exact Hdisp|]. apply _extract_attachment_some, Hext.
  - repeat match goal with
           | |- context [if ?b then _ else _] => destruct b
           | |- context [match get_payload ?p with _ => _ end] =>
               destruct (get_payload p) as [[|? ?]|]
           | |- context [match decode ?c ?p with _ => _ end] =>
               destruct (decode c p)
           end;
      intros H; inversion H; subst; simpl; auto.
Qed.

Lemma visit_all_attachments parts x x' r a :
  visit_all decode decode_header x parts = (x', r) ->
  In a (x_attachments x') ->
  In a (x_attachments x) \/
  exists part, In part parts /\ attachment_of decode decode_header part a.
Proof.
  revert x; induction parts as [|part rest IH]; intros x; simpl.
  - intros H; inversion H; subst; auto.
  - destruct (visit decode decode_header x part) as [x1 [e|]] eqn:Hvisit.
    + intros H Hin; inversion H; subst.
      destruct (visit_attachments _ _ _ _ _ Hvisit Hin); eauto.
    + intros H Hin. destruct (IH _ H Hin) as [Hin1|(p & Hp & Ha)]; [|eauto].
      destruct (visit_attachments _ _ _ _ _ Hvisit Hin1); eauto.
Qed.

Lemma single_part_attachments x msg :
  x_attachments (fst (single_part decode x msg)) = x_attachments x.
Proof.
  unfold single_part.
  repeat match goal with
         | |- context [if ?b then _ else _] => destruct b
         | |- context [match get_payload ?p with _ => _ end] =>
             destruct (get_payload p) as [[|? ?]|]
         | |- context [match decode ?c ?p with _ => _ end] =>
             destruct (decode c p)
         end; reflexivity.
Qed.

Lemma extract_attachments msg x a :
  extract msg = ret x ->
  In a (x_attachments x) ->
  is_multipart msg = true /\
  exists part, In part (walk msg) /\ attachment_of decode decode_header part a.
Proof.
  unfold _extract_body_and_attachments.
  destruct (is_multipart msg) eqn:Hmulti.
  - destruct (visit_all _ _ _ (walk msg)) as [x1 r] eqn:Hloop.
    intros Hx Hin. split; [reflexivity|].
    assert (Hin1 : In a (x_attachments x1)).
    { destruct r; inversion Hx; subst; exact Hin. }
    destruct (visit_all_attachments _ _ _ _ _ Hloop Hin1) as [[]|H]; exact H.
  - pose proof (single_part_attachments
                  {| x_text := []; x_html := []; x_attachments := [] |} msg)
      as Hsame.
    destruct (single_part _ _ msg) as [x1 r]; simpl in Hsame.
    intros Hx Hin.
    assert (Hin1 : In a (x_attachments x1)).
    { destruct r; inversion Hx; subst; exact Hin. }
    rewrite Hsame in Hin1. destruct Hin1.
Qed.

Lemma parse_attachments msg uid now md :
  parse msg uid now = ret md ->
  attachments md = [] /\ has_attachments md = false \/
  exists x, extract msg = ret x /\ attachments md = x_attachments x /\
            has_attachments md = (0 <? length (x_attachments x)).
Proof.
  unfold _parse_email_message, parse_body.
  returns (_decode_header_returns (get msg (lit "Subject") [])).
  match goal with |- context [bind (decode_hdr ?h)] =>
    returns (_decode_header_returns h) end.
  match goal with |- context [bind (decode_hdr ?h)] =>
    returns (_decode_header_returns h) end.
  returns (_parse_date_returns (get msg (lit "Date") []) now).
  destruct (_extract_body_and_attachments_returns msg) as [found Hfound].
  rewrite Hfound, bind_ret.
  match goal with |- context [bind (_extract_email_from_header ?h)] =>
    returns (_extract_email_from_header_returns h) end.
  unfold ret, bind, try_except.
  destruct (as_string msg); intros H; inversion H; subst; simpl; eauto.
Qed.

(** C10.  The record [_parse_email_message] returns lists an attachment
    only for a multipart message, and then only for a part of its walk
    whose Content-Disposition contains [attachment], that declares a
    non-empty filename and whose decoded payload is non-empty; the
    attachment's data, size and content type are that part's.  For a
    single-part message the list is empty and [has_attachments] is
    [False], whatever filename the message declares. *)
Theorem attachments_only_from_attachment_parts (msg : message) (uid : str)
    (now : time) :
  exists md,
    parse msg uid now = ret md /\
    (forall a, In a (attachments md) ->
       is_multipart msg = true /\
       exists part, In part (walk msg) /\ attachment_of decode decode_header part a) /\
    (is_multipart msg = false ->
       attachments md = [] /\ has_attachments md = false).
Proof.
  destruct (_parse_email_message_returns msg uid now) as (md & Hmd).
  exists md. split; [exact Hmd|].
  destruct (parse_attachments _ _ _ _ Hmd)
    as [[Hnil Hno]|(x & Hx & Hatt & Hhas)].
  - split; [rewrite Hnil; intros a []|auto].
  - split.
    + intros a Hin. rewrite Hatt in Hin. exact (extract_attachments _ _ _ Hx Hin).
    + intros Hsingle.
      assert (Hnil : x_attachments x = []).
      { destruct (x_attachments x) as [|a l] eqn:Hl; [reflexivity|].
        destruct (extract_attachments msg x a Hx) as [Hm _];
          [rewrite Hl; left; reflexivity|congruence]. }
      rewrite Hatt, Hhas, Hnil. auto.
Qed.

End ParsingFacts.

Section ParsingScenario.

Import Imap.

(** A library in which every codec is the identity on code points, headers
    are one plain chunk, no date parses, and [str(message)] is empty or,
    in [failing_as_string], raises. *)
Definition plain_decode (_ : str) (b : bytes) : outcome str := ret b.
Definition plain_decode_header (h : str)
  : outcome (list ((bytes + str) * option str)) := ret [(inr h, None)].
Definition no_date (_ : str) : outcome (option Z) := ret None.
Definition plain_as_string (_ : message) : outcome str := ret [].
Definition failing_as_string (_ : message) : outcome str :=
  raise (LookupError (lit "unknown encoding: x-bad")).

Definition pdf_part : message :=
  Single {| headers := [(lit "Content-Disposition",
                         lit "attachment; filename=a.pdf")];
            content_type := lit "application/pdf";
            content_charset := None;
            declared_filename := Some (lit "a.pdf") |}
         [37; 80; 68; 70]%N.

Definition text_part : message :=
  Single {| headers := []; content_type := lit "text/plain";
            content_charset := None; declared_filename := None |}
         (lit "hi").

Definition mixed_message : message :=
  Multipart {| headers := [(lit "Subject", lit "report")];
               content_type := lit "multipart/mixed";
               content_charset := None; declared_filename := None |}
            [text_part; pdf_part].

(** A multipart message with a text part and a PDF attachment: one
    attachment is listed.  The PDF part alone, as a single-part message
    that declares the same filename and disposition: none is. *)
Lemma parse_attachment_scenario :
  (exists md,
     _parse_email_message plain_decode plain_decode_header no_date
       (@ret Z) plain_as_string mixed_message (lit "7") 0%Z = ret md /\
     body_text md = lit "hi" /\
     map filename (attachments md) = [lit "a.pdf"] /\
     map size (attachments md) = [4] /\
     has_attachments md = true) /\
  (exists md,
     _parse_email_message plain_decode plain_decode_header no_date
       (@ret Z) plain_as_string pdf_part (lit "8") 0%Z = ret md /\
     attachments md = [] /\ has_attachments md = false).
Proof. split; eexists; vm_compute; repeat split. Qed.

(** When [str(message)] raises, the degraded record is returned. *)
Lemma parse_degraded_scenario :
  _parse_email_message plain_decode plain_decode_header no_date
    (@ret Z) failing_as_string mixed_message (lit "7") 0%Z
  = ret (degraded (lit "7") (LookupError (lit "unknown encoding: x-bad"))).
Proof. reflexivity. Qed.




End ParsingScenario.

Section MailboxFacts.

Import Imap.

Local Open Scope Z_scope.

Variable search_emails : str -> option time -> outcome (list str).
Variable fetch_message : str -> outcome (option message_data).

(** For a positive limit the selection is the last [limit] UIDs. *)
Lemma most_recent_positive (uids : list str) (limit : Z) :
  1 <= limit ->
  most_recent uids limit = skipn (length uids - Z.to_nat limit) uids.
Proof.
  intros Hpos. unfold most_recent, slice_from.
  destruct (Z.ltb_spec limit (Z.of_nat (length uids))) as [Hlt|Hge].
  - destruct (Z.ltb_spec (- limit) 0) as [_|Hneg]; [|lia].
    f_equal. lia.
  - replace (length uids - Z.to_nat limit)%nat with 0%nat by lia.
    reflexivity.
Qed.

Lemma most_recent_positive_length (uids : list str) (limit : Z) :
  1 <= limit -> Z.of_nat (length (most_recent uids limit)) <= limit.
Proof.
  intros Hpos. rewrite (most_recent_positive uids limit Hpos), length_skipn.
  lia.
Qed.

(** With [limit = 0] the selection is the whole list. *)
Lemma most_recent_zero (uids : list str) : most_recent uids 0 = uids.
Proof.
  unfold most_recent, slice_from.
  destruct (0 <? Z.of_nat (length uids)); reflexivity.
Qed.

(** With a positive limit, [fetch_message_list] fetches the last [limit]
    UIDs that the search returned, newest first, and returns the messages
    fetched; a UID whose fetch fails is passed over. *)
Lemma fetch_message_list_positive (recipient : str) (limit : Z)
    (since : option time) (uids : list str) :
  1 <= limit ->
  search_emails recipient since = ret uids ->
  fetch_message_list search_emails fetch_message recipient limit since
  = ret (fetch_each fetch_message
           (rev (skipn (length uids - Z.to_nat limit) uids))).
Proof.
  intros Hpos Hsearch. unfold fetch_message_list. rewrite Hsearch.
  cbn [ret bind try_except].
  destruct uids as [|u uids]; [destruct (Z.to_nat limit); reflexivity|].
  rewrite (most_recent_positive (u :: uids) limit Hpos). reflexivity.
Qed.

End MailboxFacts.

Section MailboxScenario.

Import Imap.

(** A mailbox whose search returns the UIDs 1, 2, 3 and whose every fetch
    succeeds. *)
Definition three_uids : list str := [lit "1"; lit "2"; lit "3"].
Definition search_three (_ : str) (_ : option time) : outcome (list str) :=
  ret three_uids.
Definition fetched (uid : str) : message_data :=
  {| uid := uid; subject := lit "hello"; sender := lit "bob@example.org";
     sender_email := Some (lit "bob@example.org");
     to := Some (lit "abcxyz_a1b2c3d4@seveton.site");
     date := Some 0%Z; date_str := Some []; message_id := Some [];
     body_text := lit "hi"; body_html := Some [];
     attachments := []; has_attachments := false; attachment_count := 0;
     msg_size := Some 2; parse_error := None |}.
Definition fetch_all (uid : str) : outcome (option message_data) :=
  ret (Some (fetched uid)).
(** The same mailbox when the fetch of UID 2 fails. *)
Definition fetch_but_2 (uid : str) : outcome (option message_data) :=
  if PyStr.eqb uid (lit "2") then ret None else ret (Some (fetched uid)).

Definition recipient : str := lit "abcxyz_a1b2c3d4@seveton.site".

(** With three UIDs found, limit 5 returns all three, newest first; limit
    2 returns the two most recent; a failed fetch is left out. *)
Lemma fetch_message_list_scenario :
  fetch_message_list search_three fetch_all recipient 5 None
  = ret [fetched (lit "3"); fetched (lit "2"); fetched (lit "1")] /\
  fetch_message_list search_three fetch_all recipient 2 None
  = ret [fetched (lit "3"); fetched (lit "2")] /\
  fetch_message_list search_three fetch_but_2 recipient 5 None
  = ret [fetched (lit "3"); fetched (lit "1")].
Proof. repeat split. Qed.

(** C7.  With three UIDs found and [limit = 0], [fetch_message_list]
    fetches and returns all three messages: [uids[-0:]] is the whole
    list. *)
Theorem fetch_message_list_limit_zero :
  most_recent three_uids 0 = three_uids /\
  fetch_message_list search_three fetch_all recipient 0 None
  = ret [fetched (lit "3"); fetched (lit "2"); fetched (lit "1")].
Proof. split; reflexivity. Qed.

End MailboxScenario.

(** ** The message renderer *)

Section RendererFacts.

Import Imap Parser.

Local Open Scope Z_scope.

(** *** [_clean_html_content] *)

(** C8.  [_clean_html_content] on four small bodies: the closing tag of
    an allow-listed element is removed with the tags that are not allowed;
    an event handler and a style attribute written without quotes stay;
    the text of a script element whose end tag has a space before [>]
    stays. *)
Theorem clean_html_content_misses :
  _clean_html_content (lit "<b>x</b>") = lit "<b>x" /\
  _clean_html_content (lit "<a onclick=alert(1)>x</a>")
  = lit "<a onclick=alert(1)>x" /\
  _clean_html_content (lit "<b style=color:red>x") = lit "<b style=color:red>x" /\
  _clean_html_content (lit "<script>alert(1)</script >") = lit "alert(1)".
Proof. repeat split; vm_compute; reflexivity. Qed.

(** What the cleaner does remove: a well-formed script block, quoted
    event-handler and style attributes, a tag outside the allow-list; and
    it collapses white space. *)
Lemma clean_html_content_examples :
  _clean_html_content (lit "<p>a<script>alert(1)</script>b") = lit "<p>ab" /\
  _clean_html_content (lit "<p onclick='x()' style='c'>a")
  = lit "<p>a" /\
  _clean_html_content (lit "<div>a</div>  <span>b</span>") = lit "a b".
Proof. repeat split; vm_compute; reflexivity. Qed.

(** Without an HTML body the text body is what is shown: it goes through
    [_sanitize_content], which escapes it, and is escaped once more. *)
Lemma body_content_text_only :
  body_content
    {| uid := lit "7"; subject := []; sender := [];
       sender_email := None; to := None; date := None; date_str := None;
       message_id := None;
       body_text := lit "1 < 2"; body_html := Some [];
       attachments := []; has_attachments := false; attachment_count := 0;
       msg_size := None; parse_error := None |}
  = lit "1 &amp;lt; 2".
Proof. vm_compute. reflexivity. Qed.

(** *** [_create_text_preview] *)

Lemma len_app {A} (a b : list A) : len (a ++ b) = len a + len b.
Proof. unfold len. rewrite length_app. lia. Qed.

Lemma len_slice_to {A} (l : list A) (j : Z) :
  0 <= j <= len l -> len (slice_to l j) = j.
Proof.
  unfold len, slice_to. intros [Hlo Hhi].
  destruct (Z.ltb_spec j 0); [lia|].
  rewrite length_firstn. lia.
Qed.

(** From three characters on, a preview of a non-empty text is never
    longer than [max_length]. *)
Lemma create_text_preview_nonempty (c : char) (text : str) (max_length : Z) :
  3 <= max_length ->
  len (_create_text_preview (c :: text) max_length) <= max_length.
Proof.
  intros Hmax. unfold _create_text_preview.
  set (preview_text := join newline _).
  destruct (Z.ltb_spec max_length (len preview_text)) as [Hlong|Hshort].
  - rewrite len_app, len_slice_to by lia. change (len (lit "...")) with 3. lia.
  - exact Hshort.
Qed.

Lemma create_text_preview_bounded (text : str) (max_length : Z) :
  7 <= max_length ->
  len (_create_text_preview text max_length) <= max_length + 3.
Proof.
  intros Hmax. destruct text as [|c text].
  - change (len (_create_text_preview [] max_length)) with 10. lia.
  - pose proof (create_text_preview_nonempty c text max_length). lia.
Qed.

(** C9.  For a preview length of at least 7 (the default is 200) and
    every message, the lines that [format_message_preview] joins hold the
    text preview of the body after the page icon, and that preview is at
    most [preview_length + 3] characters long, 3 being the length of the
    ellipsis. *)
Theorem preview_portion_bounded (md : message_data) (preview_length : Z)
    (now : time) :
  7 <= preview_length ->
  let preview := _create_text_preview (body_text md) preview_length in
  (exists before after,
     preview_lines md preview_length now
     = before ++ [icon_page ++ lit " " ++ preview] ++ after /\
     format_message_preview md preview_length now
     = join newline (before ++ [icon_page ++ lit " " ++ preview] ++ after)) /\
  len preview <= preview_length + len (lit "...").
Proof.
  intros Hmax preview. split.
  - unfold format_message_preview, preview_lines.
    eexists [_; _; _; _], _. split; reflexivity.
  - apply create_text_preview_bounded, Hmax.
Qed.

(** A message whose body is 10,000 times the letter a. *)
Definition long_message : message_data :=
  {| uid := lit "7"; subject := lit "hello"; sender := lit "bob@example.org";
     sender_email := Some (lit "bob@example.org");
     to := Some (lit "abcxyz_a1b2c3d4@seveton.site");
     date := Some 0; date_str := Some []; message_id := Some [];
     body_text := repeat (ch "a") (Z.to_nat 10000); body_html := Some [];
     attachments := []; has_attachments := false; attachment_count := 0;
     msg_size := Some (Z.to_nat 10000); parse_error := None |}.

Lemma preview_portion_bounded_witness :
  7 <= default_preview_length /\
  let preview :=
    _create_text_preview (body_text long_message) default_preview_length in
  (exists before after,
     preview_lines long_message default_preview_length 0
     = before ++ [icon_page ++ lit " " ++ preview] ++ after /\
     format_message_preview long_message default_preview_length 0
     = join newline (before ++ [icon_page ++ lit " " ++ preview] ++ after)) /\
  len preview <= default_preview_length + len (lit "...").
Proof.
  split.
  - unfold default_preview_length. lia.
  - apply (preview_portion_bounded long_message default_preview_length 0).
    unfold default_preview_length. lia.
Defined.

End RendererFacts.

(** ** The registry: invariants, soft and hard deletion *)

Section RegistryAdminFacts.

Import Registry RegistryAdmin.

Local Open Scope Z_scope.

Implicit Types (l : list doc) (d : doc) (id : Z) (now : time)
  (c : client).

(** *** The collection primitives keep what every document satisfies *)

Lemma update_one_Forall (P : doc -> Prop) f u l :
  (forall d, P d -> P (u d)) ->
  Forall P l -> Forall P (fst (update_one f u l)).
Proof.
  intros Hu Hl; induction Hl as [|d r Hd Hr IH]; cbn [update_one];
    [constructor|].
  destruct (f d); cbn [fst]; [constructor; auto|].
  destruct (update_one f u r); cbn [fst] in *. constructor; auto.
Qed.

Lemma update_one_if_Forall (P : doc -> Prop) f g u l :
  (forall d, P d -> P (u d)) ->
  Forall P l -> Forall P (fst (update_one_if f g u l)).
Proof.
  intros Hu Hl; induction Hl as [|d r Hd Hr IH]; cbn [update_one_if];
    [constructor|].
  destruct (f d); cbn [fst]; [constructor; auto|].
  destruct (update_one_if f g u r); cbn [fst] in *. constructor; auto.
Qed.

Lemma update_one_if_ids f g u l :
  (forall d, telegram_id (u d) = telegram_id d) ->
  map telegram_id (fst (update_one_if f g u l)) = map telegram_id l.
Proof.
  intros Hu; induction l as [|d r IH]; cbn [update_one_if]; [reflexivity|].
  destruct (f d); cbn [fst map]; [now rewrite Hu|].
  destruct (update_one_if f g u r); cbn [fst map] in *; congruence.
Qed.

Lemma update_many_Forall (P : doc -> Prop) f u l :
  (forall d, P d -> P (u d)) ->
  Forall P l -> Forall P (fst (update_many f u l)).
Proof.
  intros Hu Hl. rewrite update_many_map; cbn [fst].
  induction Hl as [|d r Hd Hr IH]; cbn [map]; constructor; auto.
  destruct (f d); auto.
Qed.

Lemma update_many_ids f u l :
  (forall d, telegram_id (u d) = telegram_id d) ->
  map telegram_id (fst (update_many f u l)) = map telegram_id l.
Proof.
  intros Hu. rewrite update_many_map; cbn [fst].
  induction l as [|d r IH]; cbn [map]; [reflexivity|].
  rewrite IH. destruct (f d); [rewrite Hu|]; reflexivity.
Qed.

Lemma delete_many_filter f l :
  delete_many f l = (filter (fun d => negb (f d)) l, length (filter f l)).
Proof.
  induction l as [|d r IH]; cbn [delete_many filter]; [reflexivity|].
  rewrite IH. destruct (f d); reflexivity.
Qed.

Lemma delete_one_In f l d :
  In d (fst (delete_one f l)) -> In d l.
Proof.
  induction l as [|x r IH]; cbn [delete_one]; [auto|].
  destruct (f x); cbn [fst]; [right; assumption|].
  destruct (delete_one f r); cbn [fst] in *.
  intros [<-|Hin]; [left|right]; auto.
Qed.

Lemma delete_one_ids_In f l x :
  In x (map telegram_id (fst (delete_one f l))) -> In x (map telegram_id l).
Proof.
  rewrite !in_map_iff. intros (d & Hd & Hin).
  exists d. split; [exact Hd|]. apply (delete_one_In f), Hin.
Qed.

Lemma delete_one_NoDup f l :
  NoDup (map telegram_id l) ->
  NoDup (map telegram_id (fst (delete_one f l))).
Proof.
  induction l as [|x r IH]; cbn [delete_one map]; [auto|].
  intros Hnd. inversion Hnd as [|? ? Hx Hr]; subst.
  destruct (f x); cbn [fst]; [exact Hr|].
  pose proof (delete_one_ids_In f r (telegram_id x)) as Hsub.
  destruct (delete_one f r) as [r' n]; cbn [fst map] in *.
  constructor; auto.
Qed.

Lemma filter_ids_NoDup (f : doc -> bool) l :
  NoDup (map telegram_id l) -> NoDup (map telegram_id (filter f l)).
Proof.
  induction l as [|x r IH]; cbn [filter map]; [auto|].
  intros Hnd. inversion Hnd as [|? ? Hx Hr]; subst.
  destruct (f x); cbn [map]; [|auto].
  constructor; [|auto].
  intros Hin. apply Hx. apply in_map_iff in Hin as (d & Hd & Hin).
  apply in_map_iff. exists d. split; [exact Hd|].
  apply filter_In in Hin. tauto.
Qed.

Lemma existsb_id_In id l :
  existsb (fun x => telegram_id x =? id) l = true <->
  In id (map telegram_id l).
Proof.
  rewrite existsb_exists, in_map_iff. split.
  - intros (d & Hin & Heq). exists d. split; [lia|exact Hin].
  - intros (d & Heq & Hin). exists d. split; [exact Hin|lia].
Qed.

(** *** What every stored entry satisfies *)

Lemma entry_ok_new id e p now : entry_ok (new_user_doc id e p now).
Proof.
  unfold entry_ok; cbn. repeat split; try lia; auto.
Qed.

Lemma entry_ok_set_deactivated now d :
  entry_ok d -> entry_ok (set_deactivated now d).
Proof.
  unfold entry_ok; cbn. intros (? & ? & ? & ?).
  repeat split; auto; discriminate.
Qed.

Lemma entry_ok_set_expired now d : entry_ok d -> entry_ok (set_expired now d).
Proof.
  unfold entry_ok; cbn. intros (? & ? & ? & ?).
  repeat split; auto; discriminate.
Qed.

Lemma entry_ok_inc_messages now d : entry_ok d -> entry_ok (inc_messages now d).
Proof.
  unfold entry_ok; cbn. intros (? & ? & ? & [? ?]).
  repeat split; auto; lia.
Qed.

Lemma entry_ok_set_last_checked now d :
  entry_ok d -> entry_ok (set_last_checked now d).
Proof. unfold entry_ok; cbn. auto. Qed.

(** The state of a registry that the operations keep. *)
Definition registry_ok c : Prop :=
  NoDup (map telegram_id (collection c)) /\ Forall entry_ok (collection c).

Lemma deactivate_user_ok c id now :
  registry_ok c -> registry_ok (fst (deactivate_user c id now)).
Proof.
  intros [Hids Hall]. unfold registry_ok.
  rewrite deactivate_user_ids. split; [exact Hids|].
  unfold deactivate_user. destruct (connected c); cbn [negb fst]; [|exact Hall].
  pose proof (update_one_Forall entry_ok (active_for id) (set_deactivated now)
                (collection c) (entry_ok_set_deactivated now) Hall) as H.
  destruct (update_one _ _ (collection c)); cbn [fst collection with_collection] in *.
  exact H.
Qed.

Lemma create_user_ok c id e p t_deact now :
  registry_ok c -> registry_ok (fst (create_user c id e p t_deact now)).
Proof.
  intros Hok. unfold create_user.
  destruct (connected c); cbn [negb fst]; [|exact Hok].
  pose proof (deactivate_user_ok c id t_deact Hok) as [Hids Hall].
  set (c1 := fst (deactivate_user c id t_deact)) in *.
  unfold insert_one; cbn [telegram_id new_user_doc].
  destruct (existsb _ (collection c1)) eqn:Hex; cbn [fst];
    [split; assumption|].
  unfold registry_ok; cbn [collection with_collection].
  rewrite map_app. cbn [map telegram_id new_user_doc]. split.
  - apply NoDup_app; [exact Hids|repeat constructor; intros []|].
    intros x Hin [<-|[]].
    apply existsb_id_In in Hin. congruence.
  - apply Forall_app. split; [exact Hall|].
    constructor; [apply entry_ok_new|constructor].
Qed.

Lemma delete_expired_users_ok c now :
  registry_ok c -> registry_ok (fst (delete_expired_users c now)).
Proof.
  intros [Hids Hall]. unfold delete_expired_users.
  destruct (connected c); cbn [negb fst]; [|split; assumption].
  pose proof (update_many_ids (expired_active now) (set_expired now)
                (collection c) (fun _ => eq_refl)) as Hsame.
  pose proof (update_many_Forall entry_ok (expired_active now)
                (set_expired now) (collection c)
                (entry_ok_set_expired now) Hall) as H.
  destruct (update_many _ _ (collection c)); cbn [fst] in *.
  unfold registry_ok; cbn [collection with_collection].
  rewrite Hsame. split; assumption.
Qed.

Lemma increment_message_count_ok c id now :
  registry_ok c -> registry_ok (fst (increment_message_count c id now)).
Proof.
  intros [Hids Hall]. unfold increment_message_count.
  destruct (connected c); cbn [negb fst]; [|split; assumption].
  pose proof (update_one_ids (active_for id) (inc_messages now)
                (collection c) (fun _ => eq_refl)) as Hsame.
  pose proof (update_one_Forall entry_ok (active_for id) (inc_messages now)
                (collection c) (entry_ok_inc_messages now) Hall) as H.
  destruct (update_one _ _ (collection c)); cbn [fst] in *.
  unfold registry_ok; cbn [collection with_collection].
  rewrite Hsame. split; assumption.
Qed.

Lemma update_last_checked_ok c id now :
  registry_ok c -> registry_ok (fst (update_last_checked c id now)).
Proof.
  intros [Hids Hall]. unfold update_last_checked.
  destruct (connected c); cbn [negb fst]; [|split; assumption].
  pose proof (update_one_if_ids (active_for id)
                (fun d => negb (last_checked d =? now))
                (set_last_checked now) (collection c) (fun _ => eq_refl))
    as Hsame.
  pose proof (update_one_if_Forall entry_ok (active_for id)
                (fun d => negb (last_checked d =? now))
                (set_last_checked now) (collection c)
                (entry_ok_set_last_checked now) Hall) as H.
  destruct (update_one_if _ _ _ (collection c)); cbn [fst] in *.
  unfold registry_ok; cbn [collection with_collection].
  rewrite Hsame. split; assumption.
Qed.

Lemma delete_user_ok c id :
  registry_ok c -> registry_ok (fst (delete_user c id)).
Proof.
  intros [Hids Hall]. unfold delete_user.
  destruct (connected c); cbn [negb fst]; [|split; assumption].
  pose proof (delete_one_NoDup (fun d => telegram_id d =? id)
                (collection c) Hids) as Hnd.
  pose proof (delete_one_In (fun d => telegram_id d =? id) (collection c))
    as Hsub.
  destruct (delete_one _ (collection c)) as [l n]; cbn [fst] in *.
  unfold registry_ok; cbn [collection with_collection].
  split; [exact Hnd|].
  rewrite Forall_forall in *. auto.
Qed.

Lemma cleanup_temp_files_ok c now :
  registry_ok c -> registry_ok (fst (cleanup_temp_files c now)).
Proof.
  intros [Hids Hall]. unfold cleanup_temp_files.
  destruct (connected c); cbn [negb fst]; [|split; assumption].
  rewrite delete_many_filter; cbn [fst].
  unfold registry_ok; cbn [collection with_collection]. split.
  - apply filter_ids_NoDup, Hids.
  - rewrite Forall_forall in *. intros d Hin.
    apply filter_In in Hin. apply Hall. tauto.
Qed.

Lemma step_ok c o : registry_ok c -> registry_ok (RegistryAdmin.step c o).
Proof.
  destruct o as [[| |]| | | |]; cbn [RegistryAdmin.step Registry.step];
    auto using create_user_ok, deactivate_user_ok, delete_expired_users_ok,
               update_last_checked_ok, increment_message_count_ok,
               delete_user_ok, cleanup_temp_files_ok.
Qed.

Lemma run_ok ops c : registry_ok c -> registry_ok (RegistryAdmin.run ops c).
Proof.
  revert c; induction ops as [|o ops IH]; intros c Hok;
    cbn [RegistryAdmin.run fold_left]; [exact Hok|].
  apply IH, step_ok, Hok.
Qed.

(** Starting from an empty collection, after any history of creations,
    deactivations, sweeps, touches, counter increments, hard deletions
    and purges: no two stored entries have the same identity, and every
    stored entry expires exactly [EMAIL_EXPIRY_TIME] after its creation,
    has its two counters equal and not negative, and is active exactly
    when it has no [deactivated_at]. *)
Theorem stored_entries_invariant (conn : bool)
    (ops : list RegistryAdmin.op) :
  NoDup (map telegram_id
           (collection
              (RegistryAdmin.run ops
                 {| connected := conn; collection := [] |}))) /\
  forall d,
    In d (collection
            (RegistryAdmin.run ops
               {| connected := conn; collection := [] |})) ->
    expires_at d - created_at d = EMAIL_EXPIRY_TIME /\
    message_count d = total_messages_received d /\
    0 <= message_count d /\
    (is_active d = true <-> deactivated_at d = None).
Proof.
  destruct (run_ok ops {| connected := conn; collection := [] |})
    as [Hids Hall].
  { split; [constructor|constructor]. }
  split; [exact Hids|].
  rewrite Forall_forall in Hall. exact Hall.
Qed.

(** *** Soft deletion *)

Lemma count_active_zero_find id l :
  count_active id l = 0%nat -> find (active_for id) l = None.
Proof.
  induction l as [|d r IH]; cbn [find]; [reflexivity|].
  rewrite count_active_cons. destruct (active_for id d); [lia|].
  intros H; apply IH; lia.
Qed.

Lemma not_stored_count_zero id l :
  ~ In id (map telegram_id l) -> count_active id l = 0%nat.
Proof.
  induction l as [|d r IH]; cbn [map]; [reflexivity|].
  intros Hnot. rewrite count_active_cons.
  destruct (active_for id d) eqn:Hd.
  - exfalso. apply Hnot. left. unfold active_for in Hd.
    apply andb_true_iff in Hd as [Hd _]. lia.
  - rewrite IH; [reflexivity|]. intros Hin. apply Hnot. right. exact Hin.
Qed.

Lemma unique_ids_count_le id l :
  NoDup (map telegram_id l) -> (count_active id l <= 1)%nat.
Proof.
  induction l as [|d r IH]; cbn [map]; [cbn; lia|].
  intros Hnd. inversion Hnd as [|? ? Hd Hr]; subst.
  rewrite count_active_cons. destruct (active_for id d) eqn:Ha.
  - unfold active_for in Ha. apply andb_true_iff in Ha as [Ha _].
    assert (telegram_id d = id) as Heq by lia. rewrite Heq in Hd.
    rewrite (not_stored_count_zero id r Hd). lia.
  - specialize (IH Hr). lia.
Qed.

(** The entry of [id] after [update_one] deactivated its active entry,
    when identities are unique. *)
Lemma find_after_deactivate id t l d :
  NoDup (map telegram_id l) ->
  find (active_for id) l = Some d ->
  find (fun x => ((telegram_id x =? id) && true)%bool)
       (fst (update_one (active_for id) (set_deactivated t) l))
  = Some (set_deactivated t d).
Proof.
  induction l as [|x r IH]; cbn [find update_one map]; [discriminate|].
  intros Hnd Hfind. inversion Hnd as [|? ? Hx Hr]; subst.
  destruct (active_for id x) eqn:Ha.
  - inversion Hfind; subst. cbn [fst find set_deactivated telegram_id].
    unfold active_for in Ha. apply andb_true_iff in Ha as [Ha _].
    rewrite Ha. reflexivity.
  - specialize (IH Hr Hfind).
    destruct (update_one (active_for id) (set_deactivated t) r) as [r' n].
    cbn [fst find] in *.
    destruct (telegram_id x =? id) eqn:Hid; [|exact IH].
    exfalso. apply Hx. apply find_some in Hfind as [Hin Hd].
    unfold active_for in Hd. apply andb_true_iff in Hd as [Hd _].
    apply in_map_iff. exists d. split; [lia|exact Hin].
Qed.

(** Under the unique index, [deactivate_user] is idempotent: after one
    call the identity has no active entry, a second call changes nothing
    and returns [False], and the collection still stores the same
    identities and addresses in the same order. *)
Theorem deactivate_user_idempotent l id (t1 t2 : time) :
  NoDup (map telegram_id l) ->
  exists l',
    fst (deactivate_user {| connected := true; collection := l |} id t1)
    = {| connected := true; collection := l' |} /\
    get_user {| connected := true; collection := l' |} id true = ret None /\
    deactivate_user {| connected := true; collection := l' |} id t2
    = ({| connected := true; collection := l' |}, ret false) /\
    map telegram_id l' = map telegram_id l /\
    map email l' = map email l.
Proof.
  intros Hnd.
  exists (fst (update_one (active_for id) (set_deactivated t1) l)).
  pose proof (deactivate_count_zero id t1 l (unique_ids_count_le id l Hnd))
    as Hzero.
  apply count_active_zero_find in Hzero.
  pose proof (update_one_ids (active_for id) (set_deactivated t1) l
                (fun _ => eq_refl)) as Hids.
  pose proof (update_one_emails (active_for id) (set_deactivated t1) l
                (fun _ => eq_refl)) as Hemails.
  unfold deactivate_user at 1; cbn [connected negb collection].
  destruct (update_one (active_for id) (set_deactivated t1) l) as [l' n].
  cbn [fst] in *. repeat split; auto.
  - rewrite get_user_active, Hzero. reflexivity.
  - unfold deactivate_user; cbn [connected negb collection].
    rewrite (update_one_miss _ _ _ Hzero). reflexivity.
Qed.

(** A collection with one active entry, of identity 7. *)
Definition one_active : list doc :=
  [new_user_doc 7 (lit "abcdef_a1b2c3d4@seveton.site") None 0].

Lemma deactivate_user_idempotent_witness :
  exists l',
    fst (deactivate_user {| connected := true; collection := one_active |}
           7 5)
    = {| connected := true; collection := l' |} /\
    get_user {| connected := true; collection := l' |} 7 true = ret None /\
    deactivate_user {| connected := true; collection := l' |} 7 9
    = ({| connected := true; collection := l' |}, ret false) /\
    map telegram_id l' = map telegram_id one_active /\
    map email l' = map email one_active.
Proof.
  apply (deactivate_user_idempotent one_active 7 5 9).
  repeat constructor. intros [].
Defined.

(** When the identity has an active entry, [create_user] fails with
    [ValueError] and yet leaves that entry deactivated: afterwards the
    identity has no active entry, and its stored entry is the old one
    with [is_active = False] and [deactivated_at] set. *)
Theorem create_user_failure_deactivates l id e p (t_deact now : time) d :
  NoDup (map telegram_id l) ->
  find (active_for id) l = Some d ->
  exists l',
    create_user {| connected := true; collection := l |} id e p t_deact now
    = ({| connected := true; collection := l' |},
       raise (ValueError (lit "User already exists"))) /\
    get_user {| connected := true; collection := l' |} id true = ret None /\
    get_user {| connected := true; collection := l' |} id false
    = ret (Some (set_deactivated t_deact d)) /\
    length l' = length l.
Proof.
  intros Hnd Hfind.
  exists (fst (update_one (active_for id) (set_deactivated t_deact) l)).
  pose proof (deactivate_count_zero id t_deact l
                (unique_ids_count_le id l Hnd)) as Hzero.
  apply count_active_zero_find in Hzero.
  pose proof (find_after_deactivate id t_deact l d Hnd Hfind) as Hstored.
  pose proof (update_one_ids (active_for id) (set_deactivated t_deact) l
                (fun _ => eq_refl)) as Hids.
  pose proof (update_one_length (active_for id) (set_deactivated t_deact) l)
    as Hlen.
  assert (Hex : existsb (fun x => telegram_id x =? id) l = true).
  { apply existsb_exists. apply find_some in Hfind as [Hin Hd].
    exists d. split; [exact Hin|].
    unfold active_for in Hd. apply andb_true_iff in Hd as [Hd _]. exact Hd. }
  unfold create_user, deactivate_user; cbn [connected negb collection].
  destruct (update_one (active_for id) (set_deactivated t_deact) l)
    as [l' n].
  cbn [fst collection with_collection connected] in *.
  unfold insert_one; cbn [telegram_id new_user_doc].
  rewrite (existsb_ids id l' l Hids), Hex.
  repeat split; auto.
  - rewrite get_user_active, Hzero. reflexivity.
  - unfold get_user; cbn [connected negb collection]. unfold find_one.
    rewrite Hstored. reflexivity.
Qed.

Lemma create_user_failure_deactivates_witness :
  exists l',
    create_user {| connected := true; collection := one_active |}
      7 (lit "zzzzzz_00000000@seveton.site") None 5 6
    = ({| connected := true; collection := l' |},
       raise (ValueError (lit "User already exists"))) /\
    get_user {| connected := true; collection := l' |} 7 true = ret None /\
    get_user {| connected := true; collection := l' |} 7 false
    = ret (Some (set_deactivated 5
                   (new_user_doc 7 (lit "abcdef_a1b2c3d4@seveton.site")
                      None 0))) /\
    length l' = length one_active.
Proof.
  apply (create_user_failure_deactivates one_active 7
           (lit "zzzzzz_00000000@seveton.site") None 5 6
           (new_user_doc 7 (lit "abcdef_a1b2c3d4@seveton.site") None 0)).
  - repeat constructor. intros [].
  - reflexivity.
Defined.

(** *** Hard deletion *)

Lemma find_app_miss (f : doc -> bool) l1 l2 :
  find f l1 = None -> find f (l1 ++ l2) = find f l2.
Proof.
  induction l1 as [|x r IH]; cbn [find app]; [reflexivity|].
  destruct (f x); [discriminate|exact IH].
Qed.

Lemma delete_one_unique id l :
  NoDup (map telegram_id l) ->
  existsb (fun x => telegram_id x =? id)
          (fst (delete_one (fun x => telegram_id x =? id) l)) = false /\
  snd (delete_one (fun x => telegram_id x =? id) l)
  = if existsb (fun x => telegram_id x =? id) l then 1%nat else 0%nat.
Proof.
  induction l as [|x r IH]; cbn [delete_one map existsb]; [auto|].
  intros Hnd. inversion Hnd as [|? ? Hx Hr]; subst.
  destruct (telegram_id x =? id) eqn:Hid; cbn [fst snd orb].
  - split; [|reflexivity].
    destruct (existsb (fun x => telegram_id x =? id) r) eqn:Hex;
      [|reflexivity].
    exfalso. apply Hx. apply existsb_id_In in Hex.
    assert (telegram_id x = id) as -> by lia. exact Hex.
  - destruct (IH Hr) as [H1 H2].
    destruct (delete_one (fun x => telegram_id x =? id) r) as [r' n].
    cbn [fst snd existsb] in *. rewrite Hid, H1. auto.
Qed.

(** Under the unique index, [delete_user] frees the identity, which
    [deactivate_user] does not: it returns whether an entry was stored,
    afterwards the identity has no entry at all, and [create_user] for
    it succeeds and appends the new active entry. *)
Theorem delete_user_frees_identity l id e p (t_deact now : time) :
  NoDup (map telegram_id l) ->
  exists l',
    delete_user {| connected := true; collection := l |} id
    = ({| connected := true; collection := l' |},
       ret (existsb (fun x => telegram_id x =? id) l)) /\
    get_user {| connected := true; collection := l' |} id false
    = ret None /\
    create_user {| connected := true; collection := l' |} id e p t_deact now
    = ({| connected := true;
          collection := l' ++ [new_user_doc id e p now] |},
       ret (new_user_doc id e p now)) /\
    get_user {| connected := true;
                collection := l' ++ [new_user_doc id e p now] |} id true
    = ret (Some (new_user_doc id e p now)).
Proof.
  intros Hnd.
  exists (fst (delete_one (fun x => telegram_id x =? id) l)).
  destruct (delete_one_unique id l Hnd) as [Hgone Hn].
  unfold delete_user; cbn [connected negb collection].
  destruct (delete_one (fun x => telegram_id x =? id) l) as [l' n].
  cbn [fst snd with_collection connected] in *.
  destruct (create_user_fresh_identity l' id e p t_deact now Hgone)
    as (d & Hcreate & _).
  assert (d = new_user_doc id e p now) as ->.
  { unfold create_user in Hcreate; cbn [connected negb] in Hcreate.
    unfold insert_one in Hcreate.
    destruct (existsb _ _) in Hcreate; inversion Hcreate; reflexivity. }
  assert (Hnone : forall b : bool,
             find (fun x => ((telegram_id x =? id)
                             && (if b then is_active x else true))%bool) l'
             = None).
  { intros b. clear -Hgone.
    induction l' as [|x r IH]; cbn [find existsb] in *; [reflexivity|].
    apply orb_false_elim in Hgone as [Hx Hr]. rewrite Hx.
    cbn [andb]. auto. }
  repeat split.
  - rewrite Hn. destruct (existsb _ l); reflexivity.
  - unfold get_user; cbn [connected negb collection]. unfold find_one.
    rewrite (Hnone false). reflexivity.
  - exact Hcreate.
  - unfold get_user; cbn [connected negb collection]. unfold find_one.
    rewrite (find_app_miss _ _ _ (Hnone true)).
    cbn [find new_user_doc telegram_id is_active]. rewrite Z.eqb_refl.
    reflexivity.
Qed.

Lemma delete_user_frees_identity_witness :
  exists l',
    delete_user {| connected := true; collection := one_active |} 7
    = ({| connected := true; collection := l' |},
       ret (existsb (fun x => telegram_id x =? 7) one_active)) /\
    get_user {| connected := true; collection := l' |} 7 false
    = ret None /\
    create_user {| connected := true; collection := l' |} 7
      (lit "zzzzzz_00000000@seveton.site") None 5 6
    = ({| connected := true;
          collection :=
            l' ++ [new_user_doc 7 (lit "zzzzzz_00000000@seveton.site")
                     None 6] |},
       ret (new_user_doc 7 (lit "zzzzzz_00000000@seveton.site") None 6)) /\
    get_user {| connected := true;
                collection :=
                  l' ++ [new_user_doc 7 (lit "zzzzzz_00000000@seveton.site")
                           None 6] |} 7 true
    = ret (Some (new_user_doc 7 (lit "zzzzzz_00000000@seveton.site")
                   None 6)).
Proof.
  apply (delete_user_frees_identity one_active 7
           (lit "zzzzzz_00000000@seveton.site") None 5 6).
  repeat constructor. intros [].
Defined.

(** *** The sweep and the purge *)

Lemma update_many_none f u l :
  (forall d, In d l -> f d = false) -> update_many f u l = (l, 0%nat).
Proof.
  induction l as [|d r IH]; cbn [update_many]; [reflexivity|].
  intros H. rewrite IH by (intros x Hx; apply H; right; exact Hx).
  rewrite (H d (or_introl eq_refl)). reflexivity.
Qed.

(** After [delete_expired_users] ran at [now], every entry still active
    expires at [now] or later, [get_all_active_users] lists exactly the
    entries that were active and not expired, and a sweep at the same or
    an earlier time finds nothing: it returns 0 and changes nothing. *)
Theorem delete_expired_users_idempotent l (now now' : time) :
  now' <= now ->
  exists l',
    fst (delete_expired_users {| connected := true; collection := l |} now)
    = {| connected := true; collection := l' |} /\
    (forall d, In d l' -> is_active d = true -> now <= expires_at d) /\
    get_all_active_users {| connected := true; collection := l' |}
    = ret (filter (fun d => (is_active d && (now <=? expires_at d))%bool) l) /\
    delete_expired_users {| connected := true; collection := l' |} now'
    = ({| connected := true; collection := l' |}, ret 0%nat).
Proof.
  intros Hle.
  exists (map (fun d => if expired_active now d then set_expired now d else d)
              l).
  assert (Hactive : forall d,
             In d (map (fun d => if expired_active now d
                                 then set_expired now d else d) l) ->
             is_active d = true -> now <= expires_at d).
  { intros d Hin Hact. apply in_map_iff in Hin as (x & Hx & _).
    unfold expired_active in Hx.
    destruct (is_active x) eqn:Hax; cbn [andb] in Hx.
    - destruct (Z.ltb_spec (expires_at x) now); subst d;
        [discriminate Hact|assumption].
    - subst d. congruence. }
  repeat split.
  - unfold delete_expired_users; cbn [connected negb collection].
    rewrite update_many_map. reflexivity.
  - exact Hactive.
  - unfold get_all_active_users; cbn [connected negb collection]. f_equal.
    clear. induction l as [|d r IH]; cbn [map filter]; [reflexivity|].
    rewrite IH. unfold expired_active.
    destruct (is_active d) eqn:Hd; cbn [andb].
    + destruct (Z.ltb_spec (expires_at d) now);
        destruct (Z.leb_spec now (expires_at d)); try lia;
        cbn [is_active set_expired]; [reflexivity|].
      rewrite Hd. reflexivity.
    + rewrite Hd. reflexivity.
  - unfold delete_expired_users; cbn [connected negb collection].
    rewrite update_many_none; [reflexivity|].
    intros d Hin. unfold expired_active.
    destruct (is_active d) eqn:Hd; [|reflexivity]. cbn [andb].
    specialize (Hactive d Hin Hd). apply Z.ltb_ge. lia.
Qed.

(** Two entries, created at 0 and at 100. *)
Definition two_lifetimes : list doc :=
  [new_user_doc 1 (lit "aaaaaa_00000000@seveton.site") None 0;
   new_user_doc 2 (lit "bbbbbb_11111111@seveton.site") None 100].

Lemma delete_expired_users_idempotent_witness :
  exists l',
    fst (delete_expired_users
           {| connected := true; collection := two_lifetimes |}
           (EMAIL_EXPIRY_TIME + 50))
    = {| connected := true; collection := l' |} /\
    (forall d, In d l' -> is_active d = true ->
               EMAIL_EXPIRY_TIME + 50 <= expires_at d) /\
    get_all_active_users {| connected := true; collection := l' |}
    = ret (filter (fun d => (is_active d
                             && (EMAIL_EXPIRY_TIME + 50 <=? expires_at d))%bool)
             two_lifetimes) /\
    delete_expired_users {| connected := true; collection := l' |}
      (EMAIL_EXPIRY_TIME + 20)
    = ({| connected := true; collection := l' |}, ret 0%nat).
Proof.
  apply (delete_expired_users_idempotent two_lifetimes
           (EMAIL_EXPIRY_TIME + 50) (EMAIL_EXPIRY_TIME + 20)).
  lia.
Defined.

(** [cleanup_temp_files] removes exactly the inactive entries whose
    [deactivated_at] is more than 30 days before [now], and returns how
    many: every active entry, every entry deactivated within the last 30
    days and every entry without [deactivated_at] stays, in its place. *)
Theorem cleanup_temp_files_exact l (now : time) :
  exists l',
    cleanup_temp_files {| connected := true; collection := l |} now
    = ({| connected := true; collection := l' |},
       ret (length l - length l')%nat) /\
    (length l' <= length l)%nat /\
    (forall d,
       In d l' <->
       In d l /\
       (is_active d = true \/
        match deactivated_at d with
        | Some t => now - days_delta 30 <= t
        | None => True
        end)) /\
    l' = filter (fun d => negb (old_inactive (now - days_delta 30) d)) l.
Proof.
  exists (filter (fun d => negb (old_inactive (now - days_delta 30) d)) l).
  set (cutoff := now - days_delta 30).
  assert (Hlen : (length l =
                  length (filter (fun d => negb (old_inactive cutoff d)) l)
                  + length (filter (old_inactive cutoff) l))%nat).
  { clearbody cutoff. induction l as [|d r IH]; cbn [filter length]; [reflexivity|].
    destruct (old_inactive cutoff d); cbn [negb length]; lia. }
  repeat split.
  - unfold cleanup_temp_files; cbn [connected negb collection].
    fold cutoff. rewrite delete_many_filter. cbn [with_collection connected].
    do 3 f_equal. lia.
  - lia.
  - apply filter_In in H. tauto.
  - apply filter_In in H as [_ H]. unfold old_inactive, cutoff in H.
    destruct (is_active d); [left; reflexivity|right].
    destruct (deactivated_at d) as [t|]; [|exact I].
    cbn [negb andb] in H. apply negb_true_iff, Z.ltb_ge in H. exact H.
  - intros [Hin Hkeep]. apply filter_In. split; [exact Hin|].
    unfold old_inactive, cutoff. destruct Hkeep as [->|Hkeep]; [reflexivity|].
    destruct (is_active d); [reflexivity|]. cbn [negb andb].
    destruct (deactivated_at d) as [t|]; [|reflexivity].
    apply negb_true_iff, Z.ltb_ge. exact Hkeep.
Qed.

(** *** Reading the registry *)

Lemma deactivate_user_connected c id now :
  connected (fst (deactivate_user c id now)) = connected c.
Proof.
  unfold deactivate_user. destruct (connected c) eqn:Hc; cbn [negb fst];
    [|exact Hc].
  destruct (update_one _ _ (collection c)); cbn [fst with_collection connected].
  exact Hc.
Qed.

Lemma step_connected c o :
  connected (RegistryAdmin.step c o) = connected c.
Proof.
  destruct o as [[id e p t_deact now|id now|now]|id now|id now|id|now];
    cbn [RegistryAdmin.step Registry.step].
  - unfold create_user. destruct (connected c) eqn:Hc; cbn [negb fst];
      [|exact Hc].
    pose proof (deactivate_user_connected c id t_deact) as Hd.
    destruct (insert_one _ _); cbn [fst with_collection connected];
      congruence.
  - apply deactivate_user_connected.
  - unfold delete_expired_users.
    destruct (connected c) eqn:Hc; cbn [negb fst]; [|exact Hc].
    destruct (update_many _ _ (collection c));
      cbn [fst with_collection connected]. exact Hc.
  - unfold update_last_checked.
    destruct (connected c) eqn:Hc; cbn [negb fst]; [|exact Hc].
    destruct (update_one_if _ _ _ (collection c));
      cbn [fst with_collection connected]. exact Hc.
  - unfold increment_message_count.
    destruct (connected c) eqn:Hc; cbn [negb fst]; [|exact Hc].
    destruct (update_one _ _ (collection c));
      cbn [fst with_collection connected]. exact Hc.
  - unfold delete_user.
    destruct (connected c) eqn:Hc; cbn [negb fst]; [|exact Hc].
    destruct (delete_one _ (collection c));
      cbn [fst with_collection connected]. exact Hc.
  - unfold cleanup_temp_files.
    destruct (connected c) eqn:Hc; cbn [negb fst]; [|exact Hc].
    destruct (delete_many _ (collection c));
      cbn [fst with_collection connected]. exact Hc.
Qed.

Lemma run_connected ops c :
  connected (RegistryAdmin.run ops c) = connected c.
Proof.
  revert c; induction ops as [|o ops IH]; intros c;
    cbn [RegistryAdmin.run fold_left]; [reflexivity|].
  unfold RegistryAdmin.run in IH. rewrite IH. apply step_connected.
Qed.

(** After any history on a connected registry, [get_user_statistics]
    raises nothing and reports consistent figures: the two message
    counters are equal and not negative; an inactive entry has no
    [time_remaining]; an active one has a [time_remaining] that is not
    negative and, from its creation on, at most [EMAIL_EXPIRY_TIME];
    and [None] is returned only for an identity with no stored
    entry. *)
Theorem user_statistics_consistent (ops : list RegistryAdmin.op)
    (id : Z) (now : time) :
  match get_user_statistics
          (RegistryAdmin.run ops {| connected := true; collection := [] |})
          id now with
  | inr (Some s) =>
      stat_message_count s = stat_total_messages_received s /\
      0 <= stat_message_count s /\
      stat_expires_at s - stat_created_at s = EMAIL_EXPIRY_TIME /\
      match time_remaining s with
      | Some remaining =>
          stat_is_active s = true /\ 0 <= remaining /\
          (stat_created_at s <= now -> remaining <= EMAIL_EXPIRY_TIME)
      | None => stat_is_active s = false
      end
  | inr None =>
      ~ In id (map telegram_id
                 (collection
                    (RegistryAdmin.run ops
                       {| connected := true; collection := [] |})))
  | inl _ => False
  end.
Proof.
  pose proof (run_connected ops {| connected := true; collection := [] |})
    as Hconn.
  destruct (run_ok ops {| connected := true; collection := [] |})
    as [_ Hall]; [split; constructor|].
  set (c := RegistryAdmin.run ops _) in *. cbn [connected] in Hconn.
  unfold get_user_statistics, get_user. rewrite Hconn. cbn [negb].
  unfold ret at 1, bind. unfold find_one.
  destruct (find _ (collection c)) as [d|] eqn:Hfind.
  - apply find_some in Hfind as [Hin _].
    rewrite Forall_forall in Hall. destruct (Hall d Hin) as (H1 & H2 & H3 & H4).
    unfold ret.
    cbn [stat_message_count stat_total_messages_received stat_expires_at
         stat_created_at time_remaining stat_is_active].
    repeat split; auto.
    destruct (is_active d); [|reflexivity].
    split; [reflexivity|].
    unfold EMAIL_EXPIRY_TIME in *.
    destruct (Z.ltb_spec (expires_at d - now) 0); split; lia.
  - unfold ret. intros Hin. apply in_map_iff in Hin as (d & Hid & Hin).
    apply (find_none _ _ Hfind) in Hin. rewrite Hid, Z.eqb_refl in Hin.
    discriminate Hin.
Qed.

(** After any history on a connected registry,
    [get_users_expiring_soon] with its default of one hour lists every
    active entry created before [now]: the threshold is the lifetime of
    an entry, so no active entry is left out for expiring later. *)
Theorem expiring_soon_default_lists_active (ops : list RegistryAdmin.op)
    (now : time) :
  get_users_expiring_soon
    (RegistryAdmin.run ops {| connected := true; collection := [] |}) 1 now
  = ret (filter (fun d => (is_active d && (created_at d <? now))%bool)
           (collection
              (RegistryAdmin.run ops
                 {| connected := true; collection := [] |}))).
Proof.
  pose proof (run_connected ops {| connected := true; collection := [] |})
    as Hconn.
  destruct (run_ok ops {| connected := true; collection := [] |})
    as [_ Hall]; [split; constructor|].
  set (c := RegistryAdmin.run ops _) in *. cbn [connected] in Hconn.
  unfold get_users_expiring_soon. rewrite Hconn. cbn [negb]. cbv zeta.
  f_equal. induction Hall as [|d r Hd Hr IH]; cbn [filter]; [reflexivity|].
  rewrite IH. destruct Hd as (Hlife & _).
  replace (expires_at d <? now + hours_delta 1) with (created_at d <? now);
    [reflexivity|].
  unfold hours_delta, EMAIL_EXPIRY_TIME in *.
  destruct (Z.ltb_spec (created_at d) now);
    destruct (Z.ltb_spec (expires_at d) (now + 1 * 3600 * 1000000)); lia.
Qed.

End RegistryAdminFacts.

(** ** The generator: prefixes, parsing an address back, suggestions *)

Section GeneratorToolsFacts.

Import Registry Generator GeneratorTools.
Import Re (all_in).

(** *** Prefixes *)

Lemma lower_alnum_isalnum c : is_lower_alnum c = true -> isalnum c = true.
Proof.
  unfold is_lower_alnum, isalnum. intros H.
  apply orb_true_iff in H as [H|H]; rewrite H; cbn [orb];
    rewrite ?orb_true_r; reflexivity.
Qed.

Lemma all_in_weaken (p q : char -> bool) s :
  (forall c, p c = true -> q c = true) -> all_in p s -> all_in q s.
Proof. intros Hpq Hs. eapply Forall_impl; [|exact Hs]. exact Hpq. Qed.

Lemma clean_alnum_isalnum s : all_in isalnum (clean_alnum s).
Proof.
  unfold clean_alnum, all_in. apply Forall_forall. intros c Hin.
  apply filter_In in Hin. tauto.
Qed.

(** [pad_prefix] only appends allowed characters, and with enough turns
    it stops at [EMAIL_PREFIX_LENGTH] characters. *)
Lemma pad_prefix_appends turns s g :
  exists pad,
    fst (pad_prefix turns s g) = s ++ pad /\
    all_in is_lower_alnum pad /\
    (EMAIL_PREFIX_LENGTH <= length s + turns ->
     length (s ++ pad) = Nat.max (length s) EMAIL_PREFIX_LENGTH).
Proof.
  revert s g; induction turns as [|turns IH]; intros s g; cbn [pad_prefix].
  - exists []. rewrite app_nil_r. cbn [fst].
    repeat split; [constructor|]. lia.
  - destruct (Nat.ltb_spec (length s) EMAIL_PREFIX_LENGTH) as [Hshort|Hfull].
    + pose proof (choice_allowed g) as Hc.
      destruct (choice EMAIL_ALLOWED_CHARS g) as [c g1]; cbn [fst] in Hc.
      destruct (IH (s ++ [c]) g1) as (pad & Heq & Hall & Hlen).
      exists (c :: pad). rewrite Heq, <- app_assoc. cbn [app].
      repeat split; [constructor; assumption|].
      intros Hturns. rewrite <- app_assoc in Hlen. cbn [app] in Hlen.
      rewrite length_app in Hlen. cbn [length] in Hlen.
      rewrite Hlen by lia. lia.
    + exists []. rewrite app_nil_r. cbn [fst].
      repeat split; [constructor|]. lia.
Qed.

(** Whatever is typed and whatever is drawn, the prefix that
    [generate_user_prefix] returns has exactly [EMAIL_PREFIX_LENGTH]
    characters, each of them alphanumeric for [str.isalnum]. *)
Theorem generate_user_prefix_length (custom_prefix : option str) (g : rng) :
  length (fst (generate_user_prefix custom_prefix g)) = EMAIL_PREFIX_LENGTH /\
  all_in isalnum (fst (generate_user_prefix custom_prefix g)).
Proof.
  assert (Hrandom : forall g,
             length (fst (generate_random_string EMAIL_PREFIX_LENGTH true g))
             = EMAIL_PREFIX_LENGTH /\
             all_in isalnum
               (fst (generate_random_string EMAIL_PREFIX_LENGTH true g))).
  { intros g0. unfold generate_random_string.
    destruct (choices_allowed EMAIL_PREFIX_LENGTH g0) as [Hall Hlen].
    split; [exact Hlen|].
    apply (all_in_weaken _ _ _ lower_alnum_isalnum Hall). }
  unfold generate_user_prefix.
  destruct custom_prefix as [[|x r]|]; try apply Hrandom.
  pose proof (clean_alnum_isalnum (x :: r)) as Hclean.
  set (clean_prefix := clean_alnum (x :: r)) in *.
  destruct (Nat.ltb_spec EMAIL_PREFIX_LENGTH (length clean_prefix))
    as [Hlong|Hshort].
  - cbn [fst]. split; [|apply all_in_firstn, Hclean].
    rewrite length_firstn. lia.
  - destruct (Nat.eqb_spec (length clean_prefix) 0) as [_|Hne];
      [apply Hrandom|].
    destruct (pad_prefix_appends EMAIL_PREFIX_LENGTH clean_prefix g)
      as (pad & Heq & Hall & Hlen).
    rewrite Heq. split.
    + rewrite Hlen by lia. lia.
    + apply Forall_app. split; [exact Hclean|].
      apply (all_in_weaken _ _ _ lower_alnum_isalnum Hall).
Qed.

(** A prefix that [validate_custom_prefix] accepts has 3 to
    [EMAIL_PREFIX_LENGTH] characters after cleaning, and
    [generate_user_prefix] keeps it: the generated prefix starts with
    the cleaned text and is filled up with allowed characters. *)
Theorem validated_prefix_kept (prefix clean_prefix : str) (g : rng) :
  validate_custom_prefix prefix = ValidPrefix clean_prefix ->
  clean_prefix = clean_alnum prefix /\
  3 <= length clean_prefix <= EMAIL_PREFIX_LENGTH /\
  exists pad,
    fst (generate_user_prefix (Some prefix) g) = clean_prefix ++ pad /\
    length pad = EMAIL_PREFIX_LENGTH - length clean_prefix /\
    all_in is_lower_alnum pad.
Proof.
  unfold validate_custom_prefix.
  destruct prefix as [|x r]; cbn [is_empty]; [discriminate|].
  set (cleaned := clean_alnum (x :: r)).
  destruct cleaned as [|y s] eqn:Hclean; cbn [is_empty]; [discriminate|].
  rewrite <- Hclean.
  destruct (Nat.ltb_spec EMAIL_PREFIX_LENGTH (length cleaned)) as [|Hle];
    [discriminate|].
  destruct (Nat.ltb_spec (length cleaned) 3) as [|Hge]; [discriminate|].
  intros H; inversion H; subst clean_prefix.
  split; [reflexivity|]. split; [lia|].
  unfold generate_user_prefix. fold cleaned.
  destruct (Nat.ltb_spec EMAIL_PREFIX_LENGTH (length cleaned)); [lia|].
  destruct (Nat.eqb_spec (length cleaned) 0); [lia|].
  destruct (pad_prefix_appends EMAIL_PREFIX_LENGTH cleaned g)
    as (pad & Heq & Hall & Hlen).
  exists pad. split; [exact Heq|]. split; [|exact Hall].
  specialize (Hlen ltac:(lia)). rewrite length_app in Hlen. lia.
Qed.

Lemma validated_prefix_kept_witness :
  lit "bob7" = clean_alnum (lit "Bob-7") /\
  3 <= length (lit "bob7") <= EMAIL_PREFIX_LENGTH /\
  exists pad,
    fst (generate_user_prefix (Some (lit "Bob-7")) sample_rng)
    = lit "bob7" ++ pad /\
    length pad = EMAIL_PREFIX_LENGTH - length (lit "bob7") /\
    all_in is_lower_alnum pad.
Proof.
  apply (validated_prefix_kept (lit "Bob-7") (lit "bob7") sample_rng).
  reflexivity.
Defined.

(** *** Parsing a generated address back *)

Lemma isalnum_not_separator c :
  isalnum c = true -> c <> ch "_" /\ c <> ch "@".
Proof. intros H. split; intros ->; discriminate H. Qed.

Lemma split_once_first sep h t :
  ~ In sep h -> split_once sep (h ++ sep :: t) = Some (h, t).
Proof.
  induction h as [|c r IH]; cbn [app split_once In]; intros Hnot.
  - rewrite N.eqb_refl. reflexivity.
  - destruct (N.eqb_spec c sep) as [->|_]; [tauto|].
    rewrite IH by tauto. reflexivity.
Qed.

Lemma contains_char c s : In c s -> contains [c] s = true.
Proof.
  induction s as [|x r IH]; cbn [In]; [tauto|].
  intros [->|Hin]; cbn [contains startswith].
  - rewrite N.eqb_refl. destruct r; reflexivity.
  - rewrite (IH Hin). apply orb_true_r.
Qed.

Lemma eqb_refl (s : str) : PyStr.eqb s s = true.
Proof. unfold PyStr.eqb. destruct (list_eq_dec N.eq_dec s s); congruence. Qed.

(** [get_email_info] undoes [address] when the prefix has neither
    separator and the random part has no at sign. *)
Lemma get_email_info_address prefix random_part :
  ~ In (ch "_") prefix -> ~ In (ch "@") prefix ->
  ~ In (ch "@") random_part ->
  get_email_info (address prefix random_part)
  = EmailInfo prefix random_part EMAIL_DOMAIN (address prefix random_part).
Proof.
  intros Hp_ Hp_at Hs_at.
  assert (Hsplit : address prefix random_part
                   = (prefix ++ ch "_" :: random_part) ++ ch "@" :: EMAIL_DOMAIN).
  { unfold address. rewrite <- app_assoc. reflexivity. }
  unfold get_email_info.
  change (lit "@") with [ch "@"]. change (lit "_") with [ch "_"].
  rewrite (contains_char (ch "@") (address prefix random_part)).
  2:{ rewrite Hsplit. apply in_or_app. right. left. reflexivity. }
  cbn [negb]. unfold split1 at 1. rewrite Hsplit at 1.
  rewrite split_once_first.
  2:{ intros Hin. apply in_app_or in Hin as [Hin|[Heq|Hin]];
        [tauto|discriminate Heq|tauto]. }
  rewrite eqb_refl. cbn [negb].
  rewrite (contains_char (ch "_") (prefix ++ ch "_" :: random_part)).
  2:{ apply in_or_app. right. left. reflexivity. }
  cbn [negb]. unfold split1. rewrite split_once_first by exact Hp_.
  reflexivity.
Qed.

(** Whatever the registry, the typed prefix and the draws: an address
    that [generate_unique_email] returns is a six-character prefix, an
    underscore, eight allowed characters and the domain; it is not
    stored; and [get_email_info] reads exactly that prefix and that
    random part back from it. *)
Theorem generated_address_parses_back (c : client) (telegram_id : Z)
    (custom_prefix : option str) (g : rng) (e : str) :
  fst (generate_unique_email c telegram_id custom_prefix g) = ret e ->
  exists prefix random_part,
    e = prefix ++ lit "_" ++ random_part ++ lit "@" ++ EMAIL_DOMAIN /\
    length prefix = EMAIL_PREFIX_LENGTH /\
    length random_part = EMAIL_RANDOM_LENGTH /\
    all_in is_lower_alnum random_part /\
    get_user_by_email c e false = ret None /\
    get_email_info e = EmailInfo prefix random_part EMAIL_DOMAIN e.
Proof.
  unfold generate_unique_email.
  destruct (generate_user_prefix_length custom_prefix g) as [Hlen Halnum].
  destruct (generate_user_prefix custom_prefix g) as [prefix g1].
  cbn [fst] in Hlen, Halnum.
  destruct (attempt_loop EMAIL_MAX_GENERATION_ATTEMPTS c prefix g1)
    as [r g2] eqn:Hloop.
  cbn [fst]. intros ->.
  destruct (attempt_loop_address _ _ _ _ _ _ Hloop)
    as (suffix & -> & Hsuffix & Hslen & Hget).
  exists prefix, suffix. repeat split; auto.
  unfold all_in in *. rewrite Forall_forall in Halnum, Hsuffix.
  apply get_email_info_address.
  - intros Hin.
    destruct (isalnum_not_separator _ (Halnum _ Hin)) as [H _]. now apply H.
  - intros Hin.
    destruct (isalnum_not_separator _ (Halnum _ Hin)) as [_ H]. now apply H.
  - intros Hin.
    destruct (isalnum_not_separator _
                (lower_alnum_isalnum _ (Hsuffix _ Hin))) as [_ H].
    now apply H.
Qed.

Lemma generated_address_parses_back_witness :
  exists prefix random_part,
    lit "ahov29_gnu18fmt@seveton.site"
    = prefix ++ lit "_" ++ random_part ++ lit "@" ++ EMAIL_DOMAIN /\
    length prefix = EMAIL_PREFIX_LENGTH /\
    length random_part = EMAIL_RANDOM_LENGTH /\
    all_in is_lower_alnum random_part /\
    get_user_by_email empty_registry (lit "ahov29_gnu18fmt@seveton.site")
      false = ret None /\
    get_email_info (lit "ahov29_gnu18fmt@seveton.site")
    = EmailInfo prefix random_part EMAIL_DOMAIN
        (lit "ahov29_gnu18fmt@seveton.site").
Proof.
  apply (generated_address_parses_back empty_registry 42%Z None sample_rng
           (lit "ahov29_gnu18fmt@seveton.site")).
  vm_compute. reflexivity.
Defined.

(** *** Without a connection *)

Lemma attempt_loop_disconnected attempts l prefix g :
  fst (attempt_loop attempts {| connected := false; collection := l |}
         prefix g)
  = raise (ValueError
             (lit "Failed to generate unique email after 10 attempts")).
Proof.
  revert g; induction attempts as [|attempts IH]; intros g;
    cbn [attempt_loop]; [reflexivity|].
  destruct (generate_random_string EMAIL_RANDOM_LENGTH true g) as [s g1].
  unfold get_user_by_email; cbn [connected negb]. unfold not_connected.
  apply IH.
Qed.

(** When the registry is not connected, every lookup of
    [generate_unique_email] raises [ConnectionError], the loop swallows
    it, and the call ends in the [ValueError] of ten failed attempts,
    whatever the prefix and the draws;
    [generate_email_with_validation] reports [unexpected_error]. *)
Theorem generate_unique_email_disconnected (l : list doc) (telegram_id : Z)
    (custom_prefix : option str) (g : rng) :
  fst (generate_unique_email {| connected := false; collection := l |}
         telegram_id custom_prefix g)
  = raise (ValueError
             (lit "Failed to generate unique email after 10 attempts")) /\
  generate_email_with_validation {| connected := false; collection := l |}
    telegram_id custom_prefix g
  = (UnexpectedError, g).
Proof.
  split.
  - unfold generate_unique_email.
    destruct (generate_user_prefix custom_prefix g) as [prefix g1].
    apply attempt_loop_disconnected.
  - reflexivity.
Qed.

(** *** Suggestions *)

Lemma suggest_loop_not_stored turns i c base_prefix g suggestions :
  Forall (fun e => get_user_by_email c e false = ret None) suggestions ->
  Forall (fun e => get_user_by_email c e false = ret None)
    (fst (suggest_loop turns i c base_prefix g suggestions)).
Proof.
  revert i g suggestions; induction turns as [|turns IH];
    intros i g suggestions Hall; cbn [suggest_loop]; [exact Hall|].
  destruct (generate_random_string (suffix_length i) true g) as [s g1].
  destruct (get_user_by_email c _ false) as [err|[d|]] eqn:Hget;
    apply IH; try exact Hall.
  apply Forall_app. split; [exact Hall|]. constructor; [exact Hget|constructor].
Qed.

Lemma fallback_loop_not_stored turns c telegram_id g suggestions :
  Forall (fun e => get_user_by_email c e false = ret None) suggestions ->
  Forall (fun e => get_user_by_email c e false = ret None)
    (fst (fallback_loop turns c telegram_id g suggestions)).
Proof.
  revert g suggestions; induction turns as [|turns IH];
    intros g suggestions Hall; cbn [fallback_loop]; [exact Hall|].
  destruct (generate_unique_email c telegram_id None g) as [[err|e] g1] eqn:Hgen;
    apply IH; try exact Hall.
  apply Forall_app. split; [exact Hall|]. constructor; [|constructor].
  unfold generate_unique_email in Hgen.
  destruct (generate_user_prefix None g) as [prefix g0].
  destruct (attempt_loop_address _ _ _ _ _ _ Hgen) as (s & _ & _ & _ & Hget).
  exact Hget.
Qed.

Lemma Forall_firstn_keep {A} (P : A -> Prop) n (l : list A) :
  Forall P l -> Forall P (firstn n l).
Proof.
  revert l; induction n as [|n IH]; intros [|x r] H; cbn [firstn];
    try constructor.
  - exact (Forall_inv H).
  - apply IH. exact (Forall_inv_tail H).
Qed.

(** [suggest_email_variations] returns at most five addresses, each of
    them looked up in the registry and found absent; so with no
    connection, where every lookup raises, it returns the empty list
    and raises nothing. *)
Theorem suggest_email_variations_sound (c : client) (base_prefix : str)
    (telegram_id : Z) (g : rng) :
  length (fst (suggest_email_variations c base_prefix telegram_id g)) <= 5 /\
  Forall (fun e => get_user_by_email c e false = ret None)
    (fst (suggest_email_variations c base_prefix telegram_id g)) /\
  (connected c = false ->
   fst (suggest_email_variations c base_prefix telegram_id g) = []).
Proof.
  assert (Hall : Forall (fun e => get_user_by_email c e false = ret None)
                   (fst (suggest_email_variations c base_prefix
                           telegram_id g))).
  { unfold suggest_email_variations.
    destruct (match validate_custom_prefix base_prefix with
              | ValidPrefix clean_prefix => (clean_prefix, g)
              | InvalidPrefix _ _ => generate_user_prefix None g
              end) as [bp g0].
    pose proof (suggest_loop_not_stored 5 0 c bp g0 [] (Forall_nil _)) as H1.
    destruct (suggest_loop 5 0 c bp g0 []) as [s1 g1]. cbn [fst] in H1.
    pose proof (fallback_loop_not_stored 3 c telegram_id g1 s1 H1) as H2.
    destruct (is_empty s1).
    - destruct (fallback_loop 3 c telegram_id g1 s1) as [s2 g2].
      cbn [fst] in *. apply Forall_firstn_keep, H2.
    - cbn [fst]. apply Forall_firstn_keep, H1. }
  repeat split.
  - unfold suggest_email_variations.
    destruct (match validate_custom_prefix base_prefix with
              | ValidPrefix clean_prefix => (clean_prefix, g)
              | InvalidPrefix _ _ => generate_user_prefix None g
              end) as [bp g0].
    destruct (suggest_loop 5 0 c bp g0 []) as [s1 g1].
    destruct (if is_empty s1 then fallback_loop 3 c telegram_id g1 s1
              else (s1, g1)) as [s2 g2].
    cbn [fst]. rewrite length_firstn. lia.
  - exact Hall.
  - intros Hoff.
    destruct (fst (suggest_email_variations c base_prefix telegram_id g))
      as [|e r]; [reflexivity|].
    apply Forall_inv in Hall. unfold get_user_by_email in Hall.
    rewrite Hoff in Hall. discriminate Hall.
Qed.

(** Whether an address is absent from a collection. *)
Definition not_stored (l : list doc) (e : str) : bool :=
  negb (existsb (fun d => PyStr.eqb (email d) e) l).

Lemma get_user_by_email_not_stored l e :
  get_user_by_email {| connected := true; collection := l |} e false
  = ret None <-> not_stored l e = true.
Proof.
  unfold get_user_by_email, not_stored, find_one;
    cbn [connected negb collection].
  induction l as [|d r IH]; cbn [find existsb]; [tauto|].
  destruct (PyStr.eqb (email d) e); cbn [andb orb negb].
  - split; discriminate.
  - exact IH.
Qed.

Lemma suggest_loop_filter turns i l base_prefix g suggestions :
  exists candidates,
    fst (suggest_loop turns i {| connected := true; collection := l |}
           base_prefix g suggestions)
    = suggestions ++ filter (not_stored l) candidates /\
    Forall2
      (fun e k => exists random_suffix,
           e = base_prefix ++ lit "_" ++ random_suffix ++ lit "@"
               ++ EMAIL_DOMAIN /\
           length random_suffix = k)
      candidates (map suffix_length (seq i turns)).
Proof.
  revert i g suggestions; induction turns as [|turns IH];
    intros i g suggestions; cbn [suggest_loop seq map].
  - exists []. cbn [filter fst]. rewrite app_nil_r.
    split; [reflexivity|constructor].
  - unfold generate_random_string.
    destruct (choices_allowed (suffix_length i) g) as [_ Hlen].
    destruct (choices EMAIL_ALLOWED_CHARS (suffix_length i) g) as [s g1].
    cbn [fst] in Hlen.
    set (e := base_prefix ++ lit "_" ++ s ++ lit "@" ++ EMAIL_DOMAIN).
    pose proof (get_user_by_email_not_stored l e) as Hiff.
    destruct (get_user_by_email _ e false) as [err|[d|]] eqn:Hget.
    + discriminate Hget.
    + destruct (IH (S i) g1 suggestions) as (cands & Heq & Hshape).
      exists (e :: cands). split.
      * rewrite Heq. cbn [filter].
        destruct (not_stored l e); [|reflexivity].
        destruct Hiff as [_ Hiff]. discriminate (Hiff eq_refl).
      * constructor; [exists s; auto|exact Hshape].
    + destruct (IH (S i) g1 (suggestions ++ [e])) as (cands & Heq & Hshape).
      exists (e :: cands). split.
      * rewrite Heq. cbn [filter].
        destruct Hiff as [Hiff _]. rewrite (Hiff eq_refl).
        rewrite <- app_assoc. reflexivity.
      * constructor; [exists s; auto|exact Hshape].
Qed.

(** With a connection, [suggest_email_variations] draws five candidate
    addresses whose random parts have 7, 8, 9, 7 and 8 characters, after
    the cleaned prefix as typed when it is valid (not filled up to six
    characters), and returns the candidates that are not stored, unless
    all five are. *)
Theorem suggest_email_variations_candidates (l : list doc)
    (base_prefix : str) (telegram_id : Z) (g : rng) :
  exists prefix candidates,
    (forall clean_prefix,
        validate_custom_prefix base_prefix = ValidPrefix clean_prefix ->
        prefix = clean_prefix) /\
    Forall2
      (fun e k => exists random_suffix,
           e = prefix ++ lit "_" ++ random_suffix ++ lit "@"
               ++ EMAIL_DOMAIN /\
           length random_suffix = k)
      candidates [7; 8; 9; 7; 8] /\
    (filter (not_stored l) candidates <> [] ->
     fst (suggest_email_variations
            {| connected := true; collection := l |}
            base_prefix telegram_id g)
     = filter (not_stored l) candidates).
Proof.
  unfold suggest_email_variations.
  set (start := match validate_custom_prefix base_prefix with
                | ValidPrefix clean_prefix => (clean_prefix, g)
                | InvalidPrefix _ _ => generate_user_prefix None g
                end).
  assert (Hstart : forall clean_prefix,
             validate_custom_prefix base_prefix = ValidPrefix clean_prefix ->
             fst start = clean_prefix).
  { intros cp Hcp. unfold start. rewrite Hcp. reflexivity. }
  destruct start as [bp g0]. cbn [fst] in Hstart.
  destruct (suggest_loop_filter 5 0 l bp g0 []) as (cands & Heq & Hshape).
  exists bp, cands. split; [exact Hstart|]. split; [exact Hshape|].
  intros Hkept.
  destruct (suggest_loop 5 0 _ bp g0 []) as [s1 g1].
  cbn [fst app] in Heq. subst s1.
  destruct (filter (not_stored l) cands) as [|e r] eqn:Hf; [congruence|].
  cbn [is_empty fst]. rewrite <- Hf.
  apply firstn_all2.
  pose proof (Forall2_length Hshape) as Hlen.
  change (length cands = 5) in Hlen.
  pose proof (filter_length_le (not_stored l) cands). lia.
Qed.

(** *** A generated address of the specified shape *)

Lemma generate_unique_email_well_formed_witness :
  well_formed (lit "bob7ah_ov29gnu1@seveton.site") = true /\
  get_user_by_email empty_registry (lit "bob7ah_ov29gnu1@seveton.site")
    false = ret None.
Proof.
  apply (generate_unique_email_well_formed empty_registry 42%Z
           (Some (lit "Bob-7")) sample_rng
           (lit "bob7ah_ov29gnu1@seveton.site")
           {| draws := draws sample_rng; drawn := 10 |}).
  - repeat constructor.
  - vm_compute. reflexivity.
Defined.

End GeneratorToolsFacts.

(** ** The mail client: what a fetch returns, what an extraction keeps *)

Section MailboxBounds.

Import Imap.

Local Open Scope Z_scope.

Variable search_emails : str -> option time -> outcome (list str).
Variable fetch_message : str -> outcome (option message_data).

Lemma fetch_each_length (uids : list str) :
  (length (fetch_each fetch_message uids) <= length uids)%nat.
Proof.
  induction uids as [|u r IH]; cbn [fetch_each length]; [lia|].
  destruct (fetch_message u) as [e|[md|]]; cbn [length]; lia.
Qed.

Lemma fetch_each_In (uids : list str) (md : message_data) :
  In md (fetch_each fetch_message uids) ->
  exists uid, In uid uids /\ fetch_message uid = ret (Some md).
Proof.
  induction uids as [|u r IH]; cbn [fetch_each]; [intros []|].
  destruct (fetch_message u) as [e|[md'|]] eqn:Hu.
  - intros H. destruct (IH H) as (uid & Hin & Hf).
    exists uid. split; [right; exact Hin|exact Hf].
  - intros [<-|H].
    + exists u. split; [left; reflexivity|exact Hu].
    + destruct (IH H) as (uid & Hin & Hf).
      exists uid. split; [right; exact Hin|exact Hf].
  - intros H. destruct (IH H) as (uid & Hin & Hf).
    exists uid. split; [right; exact Hin|exact Hf].
Qed.

Lemma skipn_In {A} (n : nat) (l : list A) (x : A) :
  In x (skipn n l) -> In x l.
Proof.
  revert l; induction n as [|n IH]; intros [|y r]; cbn [skipn]; auto.
  intros H. right. apply IH, H.
Qed.

(** For a limit of at least one, [fetch_message_list] raises nothing
    and returns at most [limit] messages, each of them a message that
    [fetch_message] returned for one of the identifiers the search
    found; when the search raises, the list is empty. *)
Theorem fetch_message_list_bounded (recipient : str) (limit : Z)
    (since : option time) :
  1 <= limit ->
  exists messages,
    fetch_message_list search_emails fetch_message recipient limit since
    = ret messages /\
    Z.of_nat (length messages) <= limit /\
    (forall md, In md messages ->
       exists uids uid,
         search_emails recipient since = ret uids /\ In uid uids /\
         fetch_message uid = ret (Some md)) /\
    (forall e, search_emails recipient since = raise e -> messages = []).
Proof.
  intros Hpos.
  destruct (search_emails recipient since) as [e|uids] eqn:Hsearch.
  - exists []. unfold fetch_message_list. rewrite Hsearch.
    repeat split; [cbn [length]; lia|intros md []].
  - exists (fetch_each fetch_message
              (rev (skipn (length uids - Z.to_nat limit) uids))).
    split; [apply (fetch_message_list_positive _ _ _ _ _ uids Hpos Hsearch)|].
    split; [|split].
    + pose proof (fetch_each_length
                    (rev (skipn (length uids - Z.to_nat limit) uids))) as H.
      rewrite length_rev, length_skipn in H. lia.
    + intros md Hin. apply fetch_each_In in Hin as (uid & Hin & Hf).
      exists uids, uid. repeat split; [|exact Hf].
      apply in_rev in Hin. apply (skipn_In _ _ _ Hin).
    + intros e He. discriminate He.
Qed.

End MailboxBounds.

Section MailboxBoundsScenario.

Import Imap.

Local Open Scope Z_scope.

Lemma fetch_message_list_bounded_witness :
  exists messages,
    fetch_message_list search_three fetch_but_2 recipient 2 None
    = ret messages /\
    Z.of_nat (length messages) <= 2 /\
    (forall md, In md messages ->
       exists uids uid,
         search_three recipient None = ret uids /\ In uid uids /\
         fetch_but_2 uid = ret (Some md)) /\
    (forall e, search_three recipient None = raise e -> messages = []).
Proof.
  apply (fetch_message_list_bounded search_three fetch_but_2 recipient 2
           None).
  lia.
Defined.

End MailboxBoundsScenario.

Section ExtractionFacts.

Import Imap.

Variable decode : str -> bytes -> outcome str.
Variable decode_header : str -> outcome (list ((bytes + str) * option str)).

(** The disposition test of the loop. *)
Definition is_attachment_part (part : message) : bool :=
  contains (lit "attachment") (get part (lit "Content-Disposition") []).

(** What a part offers as the body of the given content type: its
    decoded payload, when it is not an attachment part, has that
    content type and a payload. *)
Definition body_candidate (kind : str) (part : message) : str :=
  if is_attachment_part part then []
  else if PyStr.eqb (content_type (info_of part)) kind then
    match get_payload part with
    | None | Some [] => []
    | Some payload =>
        match decode (charset_or_utf8 part) payload with
        | inr t => t
        | inl _ => []
        end
    end
  else [].

(** What a part adds to the attachments. *)
Definition attachment_at (part : message) : list attachment :=
  if is_attachment_part part then
    match _extract_attachment decode decode_header part with
    | inr (Some a) => [a]
    | _ => []
    end
  else [].

Definition first_nonempty (l : list str) : str :=
  hd [] (filter (fun t => negb (is_empty t)) l).

Definition or_first (current : str) (l : list str) : str :=
  if is_empty current then first_nonempty l else current.

Lemma or_first_cons current t l :
  or_first (if is_empty current then t else current) l
  = or_first current (t :: l).
Proof.
  unfold or_first, first_nonempty. cbn [filter].
  destruct current as [|c r]; cbn [is_empty]; [|reflexivity].
  destruct t; reflexivity.
Qed.

Lemma eqb_true (a b : str) : PyStr.eqb a b = true -> a = b.
Proof.
  unfold PyStr.eqb. destruct (list_eq_dec N.eq_dec a b); [auto|discriminate].
Qed.

Hypothesis decode_returns : forall charset b, exists t, decode charset b = ret t.

(** One turn of the loop, when the codec never raises. *)
Lemma visit_step (x : extraction) (part : message) :
  visit decode decode_header x part
  = ({| x_text := if is_empty (x_text x)
                  then body_candidate (lit "text/plain") part
                  else x_text x;
        x_html := if is_empty (x_html x)
                  then body_candidate (lit "text/html") part
                  else x_html x;
        x_attachments := x_attachments x ++ attachment_at part |}, None).
Proof.
  unfold visit, body_candidate, attachment_at, is_attachment_part.
  destruct (contains (lit "attachment") _).
  - destruct (_extract_attachment_returns decode decode_header part)
      as [r ->].
    destruct x as [t h a]; cbn [x_text x_html x_attachments].
    destruct r as [att|]; unfold ret; rewrite ?app_nil_r;
      destruct t, h; reflexivity.
  - destruct (PyStr.eqb (content_type (info_of part)) (lit "text/plain"))
      eqn:Hplain.
    + assert (Hhtml : PyStr.eqb (content_type (info_of part))
                        (lit "text/html") = false).
      { apply eqb_true in Hplain. rewrite Hplain. reflexivity. }
      rewrite Hhtml. rewrite app_nil_r.
      destruct x as [t h a]; cbn [x_text x_html x_attachments andb].
      destruct t as [|c t]; cbn [is_empty]; [|destruct h; reflexivity].
      destruct (get_payload part) as [[|b payload]|];
        [destruct h; reflexivity| |destruct h; reflexivity].
      destruct (decode_returns (charset_or_utf8 part) (b :: payload))
        as [s ->].
      unfold ret. destruct h; reflexivity.
    + cbn [andb]. rewrite app_nil_r.
      destruct x as [t h a]; cbn [x_text x_html x_attachments].
      destruct (PyStr.eqb (content_type (info_of part)) (lit "text/html"));
        cbn [andb]; [|destruct t, h; reflexivity].
      destruct h as [|c h]; cbn [is_empty]; [|destruct t; reflexivity].
      destruct (get_payload part) as [[|b payload]|];
        [destruct t; reflexivity| |destruct t; reflexivity].
      destruct (decode_returns (charset_or_utf8 part) (b :: payload))
        as [s ->].
      unfold ret. destruct t; reflexivity.
Qed.

Lemma visit_all_closed (parts : list message) (x : extraction) :
  visit_all decode decode_header x parts
  = ({| x_text := or_first (x_text x)
                    (map (body_candidate (lit "text/plain")) parts);
        x_html := or_first (x_html x)
                    (map (body_candidate (lit "text/html")) parts);
        x_attachments := x_attachments x ++ flat_map attachment_at parts |},
     None).
Proof.
  revert x; induction parts as [|part rest IH]; intros x;
    cbn [visit_all map flat_map].
  - rewrite app_nil_r. unfold or_first, first_nonempty. cbn [filter hd].
    destruct x as [t h a]; cbn [x_text x_html x_attachments].
    destruct t, h; reflexivity.
  - rewrite visit_step, IH. cbn [x_text x_html x_attachments].
    rewrite !or_first_cons, <- app_assoc. reflexivity.
Qed.

(** When the codec never raises, the loop of
    [_extract_body_and_attachments] over a multipart message comes to
    this: the text body is the first non-empty decoded payload among
    the [text/plain] parts that are not attachment parts, the HTML body
    likewise among the [text/html] parts, and the attachments are those
    of all the attachment parts, in the order of the walk. *)
Theorem extraction_of_multipart (msg : message) :
  is_multipart msg = true ->
  _extract_body_and_attachments decode decode_header msg
  = ret {| x_text := first_nonempty
                       (map (body_candidate (lit "text/plain")) (walk msg));
           x_html := first_nonempty
                       (map (body_candidate (lit "text/html")) (walk msg));
           x_attachments := flat_map attachment_at (walk msg) |}.
Proof.
  intros Hmulti. unfold _extract_body_and_attachments.
  rewrite Hmulti, visit_all_closed. reflexivity.
Qed.

(** The flags of an extracted attachment: it has as many bytes as its
    [size] says and at least one; a PDF is a document and no image; an
    image is no document. *)
Theorem extracted_attachment_flags (part : message) (a : attachment) :
  _extract_attachment decode decode_header part = ret (Some a) ->
  size a = length (data a) /\ 0 < size a /\
  (is_pdf a = true -> is_document a = true /\ is_image a = false) /\
  (is_image a = true -> is_document a = false).
Proof.
  unfold _extract_attachment.
  destruct (declared_filename (info_of part)) as [[|c fname]|];
    [intros H; discriminate H| |intros H; discriminate H].
  destruct (_decode_header_returns decode decode_header (c :: fname))
    as [s ->].
  rewrite bind_ret.
  destruct (get_payload part) as [[|b payload]|];
    [intros H; discriminate H| |intros H; discriminate H].
  intros H; inversion H; subst a;
    cbn [size data is_pdf is_document is_image length].
  split; [reflexivity|]. split; [lia|]. split.
  - intros Hpdf. apply eqb_true in Hpdf. rewrite Hpdf. split; reflexivity.
  - intros ->. rewrite andb_false_r. reflexivity.
Qed.

End ExtractionFacts.

Section ExtractionScenario.

Import Imap.

Lemma extraction_of_multipart_witness :
  _extract_body_and_attachments plain_decode plain_decode_header
    mixed_message
  = ret {| x_text := first_nonempty
                       (map (body_candidate plain_decode (lit "text/plain"))
                            (walk mixed_message));
           x_html := first_nonempty
                       (map (body_candidate plain_decode (lit "text/html"))
                            (walk mixed_message));
           x_attachments :=
             flat_map (attachment_at plain_decode plain_decode_header)
                      (walk mixed_message) |}.
Proof.
  apply (extraction_of_multipart plain_decode plain_decode_header).
  - intros charset b. exists b. reflexivity.
  - reflexivity.
Defined.

End ExtractionScenario.

Section AttachmentFlags.

Import Imap.

(** The attachment that [pdf_part] yields. *)
Definition pdf_attachment : attachment :=
  {| filename := lit "a.pdf";
     att_content_type := lit "application/pdf";
     size := 4;
     data := [37; 80; 68; 70]%N;
     is_image := false; is_pdf := true; is_document := true |}.

Lemma extracted_attachment_flags_witness :
  size pdf_attachment = length (data pdf_attachment) /\
  0 < size pdf_attachment /\
  (is_pdf pdf_attachment = true ->
   is_document pdf_attachment = true /\ is_image pdf_attachment = false) /\
  (is_image pdf_attachment = true -> is_document pdf_attachment = false).
Proof.
  apply (extracted_attachment_flags plain_decode plain_decode_header
           pdf_part pdf_attachment).
  reflexivity.
Defined.

End AttachmentFlags.

(** ** The renderer: escaping, relative times, the one-line preview *)

Section EscapingFacts.

Import Imap Parser.

(** The characters that open markup or close an attribute value. *)
Definition markup_free (c : char) : Prop :=
  c <> ch "<" /\ c <> ch ">" /\ c <> 34%N /\ c <> 39%N.

Lemma escape_char_markup_free (c : char) : Forall markup_free (escape_char c).
Proof.
  unfold escape_char.
  destruct (N.eqb_spec c (ch "&"));
    [repeat constructor; discriminate|].
  destruct (N.eqb_spec c (ch "<"));
    [repeat constructor; discriminate|].
  destruct (N.eqb_spec c (ch ">"));
    [repeat constructor; discriminate|].
  destruct (N.eqb_spec c 34%N);
    [repeat constructor; discriminate|].
  destruct (N.eqb_spec c 39%N);
    [repeat constructor; discriminate|].
  repeat constructor; assumption.
Qed.

Lemma html_escape_markup_free (s : str) : Forall markup_free (html_escape s).
Proof.
  unfold html_escape. induction s as [|c r IH]; cbn [flat_map];
    [constructor|].
  apply Forall_app. split; [apply escape_char_markup_free|exact IH].
Qed.

(** Whatever the text, what [_sanitize_content] returns holds no angle
    bracket and no quote, double or single. *)
Theorem sanitize_content_markup_free (content : str) :
  Forall markup_free (_sanitize_content content).
Proof.
  unfold _sanitize_content. destruct content as [|c r]; [constructor|].
  apply html_escape_markup_free.
Qed.

End EscapingFacts.

Section RelativeTimeFacts.

Import Imap Parser.

Local Open Scope Z_scope.

(** [_format_relative_time] names the largest unit that fits: under a
    minute, also for a date in the future, it says [just now]; else it
    counts whole minutes from 1 to 59, whole hours from 1 to 23, or
    whole days from 1 on, rounding down. *)
Theorem format_relative_time_units (date now : time) :
  (now - date < 60 * 1000000 /\
   _format_relative_time date now = lit "just now") \/
  (exists minutes,
      1 <= minutes <= 59 /\
      minutes * (60 * 1000000) <= now - date
        < (minutes + 1) * (60 * 1000000) /\
      _format_relative_time date now
      = decimal minutes ++ lit " minute" ++ plural minutes ++ lit " ago") \/
  (exists hours,
      1 <= hours <= 23 /\
      hours * (3600 * 1000000) <= now - date
        < (hours + 1) * (3600 * 1000000) /\
      _format_relative_time date now
      = decimal hours ++ lit " hour" ++ plural hours ++ lit " ago") \/
  (exists days,
      1 <= days /\
      days * (86400 * 1000000) <= now - date
        < (days + 1) * (86400 * 1000000) /\
      _format_relative_time date now
      = decimal days ++ lit " day" ++ plural days ++ lit " ago").
Proof.
  unfold _format_relative_time. cbv zeta.
  set (diff := now - date).
  destruct (Z.ltb_spec diff (60 * 1000000)) as [|H1]; [left; auto|].
  right.
  destruct (Z.ltb_spec diff (3600 * 1000000)) as [H2|H2].
  { left. exists (diff / (60 * 1000000)).
    pose proof (Z.div_mod diff (60 * 1000000) ltac:(lia)) as Hdm.
    pose proof (Z.mod_pos_bound diff (60 * 1000000) ltac:(lia)) as Hmod.
    repeat split; lia. }
  right.
  destruct (Z.ltb_spec diff (86400 * 1000000)) as [H3|H3].
  { left. exists (diff / (3600 * 1000000)).
    pose proof (Z.div_mod diff (3600 * 1000000) ltac:(lia)) as Hdm.
    pose proof (Z.mod_pos_bound diff (3600 * 1000000) ltac:(lia)) as Hmod.
    repeat split; lia. }
  right. exists (diff / (86400 * 1000000)).
  pose proof (Z.div_mod diff (86400 * 1000000) ltac:(lia)) as Hdm.
  pose proof (Z.mod_pos_bound diff (86400 * 1000000) ltac:(lia)) as Hmod.
  repeat split; lia.
Qed.

End RelativeTimeFacts.

Section PreviewFacts.

Import Imap Parser.
Import Re (all_in).

Local Open Scope Z_scope.

(** *** Collapsing whitespace *)

Lemma span (p : char -> bool) (s : str) :
  exists run rest,
    s = run ++ rest /\ all_in p run /\
    match rest with [] => True | c :: _ => p c = false end.
Proof.
  induction s as [|c r (run & rest & Heq & Hall & Hrest)].
  - exists [], []. repeat split. constructor.
  - destruct (p c) eqn:Hc.
    + exists (c :: run), rest. rewrite Heq.
      repeat split; [constructor; assumption|exact Hrest].
    + exists [], (c :: r). repeat split; [constructor|exact Hc].
Qed.

Lemma match_at_spaces_nil i : Re.match_at (Re.plus Re.space) i [] = None.
Proof. reflexivity. Qed.

Lemma match_at_spaces_miss i c s :
  isspace c = false -> Re.match_at (Re.plus Re.space) i (c :: s) = None.
Proof.
  intros Hc. unfold Re.match_at, Re.plus, Re.space.
  rewrite m_cat. cbn [Re.m]. rewrite Hc. reflexivity.
Qed.

Lemma match_at_spaces_hit i c run rest :
  isspace c = true -> all_in isspace run ->
  match rest with [] => True | x :: _ => isspace x = false end ->
  Re.match_at (Re.plus Re.space) i (c :: run ++ rest)
  = Some (S i + length run, rest)%nat.
Proof.
  intros Hc Hrun Hrest. unfold Re.match_at, Re.plus, Re.space.
  rewrite m_cat, (m_cls_hit _ _ _ _ _ Hc).
  apply m_rep_greedy_run; [exact Hrun|exact Hrest|reflexivity].
Qed.

(** A character that is no whitespace, or the space itself. *)
Definition collapsed (c : char) : Prop := isspace c = false \/ c = 32%N.

Lemma sub_spaces_collapsed fuel i s :
  (length s < fuel)%nat ->
  Forall collapsed (Re.sub_from fuel (Re.plus Re.space) (lit " ") i s).
Proof.
  revert i s; induction fuel as [|fuel IH]; intros i s Hfuel; [lia|].
  cbn [Re.sub_from]. destruct s as [|c s].
  - rewrite match_at_spaces_nil. constructor.
  - destruct (isspace c) eqn:Hc.
    + destruct (span isspace s) as (run & rest & Heq & Hrun & Hrest).
      rewrite Heq, (match_at_spaces_hit i c run rest Hc Hrun Hrest).
      destruct (Nat.ltb_spec i (S i + length run)); [|lia].
      apply Forall_app. split; [repeat constructor; right; reflexivity|].
      apply IH. rewrite Heq in Hfuel. cbn [length] in Hfuel.
      rewrite length_app in Hfuel. lia.
    + rewrite (match_at_spaces_miss i c s Hc).
      constructor; [left; exact Hc|]. apply IH. cbn [length] in Hfuel. lia.
Qed.

Lemma sub_spaces_head c s :
  isspace c = false ->
  exists r, Re.sub (Re.plus Re.space) (lit " ") (c :: s) = c :: r.
Proof.
  intros Hc. unfold Re.sub. cbn [Re.sub_from length].
  rewrite (match_at_spaces_miss 0 c s Hc). eauto.
Qed.

(** *** [strip] keeps a part of the text *)

Lemma lstrip_Forall (P : char -> Prop) s : Forall P s -> Forall P (lstrip s).
Proof.
  induction 1 as [|c r Hc Hr IH]; cbn [lstrip]; [constructor|].
  destruct (isspace c); [exact IH|constructor; assumption].
Qed.

Lemma strip_Forall (P : char -> Prop) s : Forall P s -> Forall P (strip s).
Proof.
  intros H. unfold strip, rstrip.
  apply Forall_rev, lstrip_Forall, Forall_rev, lstrip_Forall, H.
Qed.

Lemma lstrip_snoc s c :
  isspace c = false -> lstrip (s ++ [c]) = lstrip s ++ [c].
Proof.
  intros Hc. induction s as [|x r IH]; cbn [lstrip app].
  - rewrite Hc. reflexivity.
  - destruct (isspace x); [exact IH|reflexivity].
Qed.

Lemma strip_head c s :
  isspace c = false -> exists r, strip (c :: s) = c :: r.
Proof.
  intros Hc. unfold strip, rstrip. cbn [lstrip]. rewrite Hc.
  cbn [rev]. rewrite (lstrip_snoc _ _ Hc), rev_app_distr. cbn [rev app].
  eauto.
Qed.

(** *** One line *)

Lemma split_no_separator sep s : ~ In sep s -> split sep s = [s].
Proof.
  induction s as [|c r IH]; cbn [split In]; [reflexivity|].
  intros Hnot. destruct (N.eqb_spec c sep) as [->|_]; [tauto|].
  rewrite IH by tauto. reflexivity.
Qed.

Lemma firstn_keeps {A} (n : nat) (l : list A) (x : A) :
  In x (firstn n l) -> In x l.
Proof.
  revert l; induction n as [|n IH]; intros l Hin.
  - destruct Hin.
  - destruct l as [|y r]; cbn [firstn] in Hin; [destruct Hin|].
    destruct Hin as [H|H]; [left; exact H|right; apply IH, H].
Qed.

Lemma collapsed_no_newline s : Forall collapsed s -> ~ In 10%N s.
Proof.
  intros Hall Hin. rewrite Forall_forall in Hall.
  destruct (Hall _ Hin) as [H|H]; discriminate H.
Qed.

Lemma collect_lines_single line max_length :
  collect_lines [line] [] max_length
  = if (is_empty (strip line)
        || existsb (fun pattern => Re.matches pattern (strip line))
                   skip_patterns)%bool
    then [] else [strip line].
Proof.
  cbn [collect_lines].
  destruct (is_empty (strip line)); [reflexivity|].
  destruct (existsb _ skip_patterns); [reflexivity|].
  cbn [orb app]. destruct (_ <? _); reflexivity.
Qed.

(** The text of a message after both cleanings: stripped, its runs of
    whitespace collapsed, stripped again. *)
Definition one_line (text : str) : str :=
  strip (Re.sub (Re.plus Re.space) (lit " ") (strip text)).

Lemma one_line_collapsed text : Forall collapsed (one_line text).
Proof.
  unfold one_line, Re.sub. apply strip_Forall, sub_spaces_collapsed. lia.
Qed.

Lemma sub_spaces_no_newline (s : str) :
  ~ In 10%N (Re.sub (Re.plus Re.space) (lit " ") s).
Proof.
  apply collapsed_no_newline. unfold Re.sub.
  apply sub_spaces_collapsed. lia.
Qed.

(** The loop of [_create_text_preview] has a single turn. *)
Lemma create_text_preview_equation (text : str) (max_length : Z) :
  text <> [] ->
  _create_text_preview text max_length
  = (let kept :=
       if (is_empty (one_line text)
           || existsb (fun pattern => Re.matches pattern (one_line text))
                      skip_patterns)%bool
       then [] else one_line text in
     if max_length <? len kept
     then slice_to kept (max_length - 3) ++ lit "..."
     else kept).
Proof.
  intros Hne. unfold _create_text_preview.
  destruct text as [|c text]; [congruence|].
  cbv zeta.
  rewrite (split_no_separator _ _ (sub_spaces_no_newline (strip (c :: text)))),
    collect_lines_single.
  fold (one_line (c :: text)).
  destruct (is_empty (one_line (c :: text)) || _)%bool; reflexivity.
Qed.

(** [_create_text_preview] works on one line only.  Collapsing the
    whitespace removes every line break before the text is split into
    lines, so the loop over the lines has a single turn: a non-empty
    text is dropped as a whole when it is blank or matches a skip
    pattern, else it is kept and cut to the budget; no line break is
    ever returned. *)
Theorem create_text_preview_one_line (text : str) (max_length : Z) :
  text <> [] ->
  ~ In 10%N (one_line text) /\
  ~ In 10%N (_create_text_preview text max_length) /\
  _create_text_preview text max_length
  = (let kept :=
       if (is_empty (one_line text)
           || existsb (fun pattern => Re.matches pattern (one_line text))
                      skip_patterns)%bool
       then [] else one_line text in
     if max_length <? len kept
     then slice_to kept (max_length - 3) ++ lit "..."
     else kept).
Proof.
  intros Hne.
  pose proof (collapsed_no_newline _ (one_line_collapsed text)) as Hline.
  pose proof (create_text_preview_equation text max_length Hne) as Heq.
  split; [exact Hline|]. split; [|exact Heq].
  rewrite Heq. cbv zeta.
  set (kept := if (_ || _)%bool then [] else one_line text).
  assert (Hkept : ~ In 10%N kept).
  { unfold kept. destruct (_ || _)%bool; [intros []|exact Hline]. }
  destruct (max_length <? len kept); [|exact Hkept].
  intros Hin. apply in_app_or in Hin as [Hin|Hin].
  - apply Hkept. unfold slice_to in Hin.
    destruct (max_length - 3 <? 0); apply firstn_keeps in Hin; exact Hin.
  - cbn in Hin. repeat destruct Hin as [Hin|Hin]; try discriminate Hin.
    exact Hin.
Qed.

Lemma create_text_preview_one_line_witness :
  ~ In 10%N (one_line (lit "hello")) /\
  ~ In 10%N (_create_text_preview (lit "hello") 200) /\
  _create_text_preview (lit "hello") 200
  = (let kept :=
       if (is_empty (one_line (lit "hello"))
           || existsb (fun pattern =>
                         Re.matches pattern (one_line (lit "hello")))
                      skip_patterns)%bool
       then [] else one_line (lit "hello") in
     if 200 <? len kept
     then slice_to kept (200 - 3) ++ lit "..."
     else kept).
Proof.
  apply (create_text_preview_one_line (lit "hello") 200).
  intros H. discriminate H.
Defined.

(** *** Quoted text *)

Lemma rep_loop_total body greedy (k : Re.cont) n i s :
  (forall j t, k j t <> None) ->
  Re.rep_loop body greedy k n i s <> None.
Proof.
  intros Hk. destruct n as [|n]; cbn [Re.rep_loop]; [apply Hk|].
  destruct greedy.
  - destruct (body i s _); [discriminate|apply Hk].
  - destruct (k i s) eqn:Hkis; [discriminate|].
    exfalso. apply (Hk i s Hkis).
Qed.

Lemma quoted_line_skipped s :
  existsb (fun pattern => Re.matches pattern (ch ">" :: s)) skip_patterns
  = true.
Proof.
  apply existsb_exists.
  exists (Re.seq [Re.Bol; Re.chr (ch ">"); Re.Rep true Re.dot]).
  split; [right; left; reflexivity|].
  unfold Re.matches, Re.match_at, Re.seq. cbn [fold_right].
  rewrite m_cat, m_bol, m_cat, m_chr, m_cat.
  destruct (Re.m (Re.Rep true Re.dot) 1 s _) eqn:Hm; [reflexivity|].
  exfalso. revert Hm. cbn [Re.m]. apply rep_loop_total.
  intros j t. discriminate.
Qed.

(** A text that starts with the mark of a quoted line has an empty
    preview, whatever follows the mark and whatever the budget (if not
    negative): the text is one line for the skip patterns. *)
Theorem quoted_text_has_empty_preview (rest : str) (max_length : Z) :
  0 <= max_length ->
  _create_text_preview (ch ">" :: rest) max_length = [].
Proof.
  intros Hmax.
  rewrite (create_text_preview_equation (ch ">" :: rest) max_length)
    by discriminate.
  destruct (strip_head (ch ">") rest eq_refl) as [r1 H1].
  destruct (sub_spaces_head (ch ">") r1 eq_refl) as [r2 H2].
  destruct (strip_head (ch ">") r2 eq_refl) as [r3 H3].
  unfold one_line. rewrite H1, H2, H3, quoted_line_skipped.
  rewrite orb_true_r. cbv zeta. change (len (@nil char)) with 0.
  destruct (Z.ltb_spec max_length 0); [lia|reflexivity].
Qed.

Lemma quoted_text_has_empty_preview_witness :
  _create_text_preview
    (ch ">" :: lit " earlier mail" ++ newline ++ lit "The answer is yes.")
    200 = [].
Proof.
  apply (quoted_text_has_empty_preview
           (lit " earlier mail" ++ newline ++ lit "The answer is yes.") 200).
  lia.
Defined.

End PreviewFacts.

(** ** File names and temporary files *)

Section SafeFilenameFacts.

Import Imap Parser ParserFiles.

Local Open Scope Z_scope.

Lemma contains_char_iff c s : contains [c] s = true <-> In c s.
Proof.
  induction s as [|x r IH]; cbn [contains startswith In].
  - split; [discriminate|tauto].
  - rewrite orb_true_iff, andb_true_r, IH, N.eqb_eq.
    split; (intros [H|H]; [left; congruence|right; exact H]).
Qed.

Lemma lower1_dot c : lower1 c = ch "." -> c = ch ".".
Proof.
  unfold lower1.
  destruct (is_ascii_upper c || between 192 214 c || between 216 222 c)%bool
    eqn:Hup; [|auto].
  intros H. assert (c = 14%N) as -> by (change (ch ".") with 46%N in H; lia).
  discriminate Hup.
Qed.

Lemma lower_dot s : In (ch ".") (lower s) <-> In (ch ".") s.
Proof.
  unfold lower. rewrite in_map_iff. split.
  - intros (c & Hc & Hin). apply lower1_dot in Hc. congruence.
  - intros Hin. exists (ch "."). split; [reflexivity|exact Hin].
Qed.

(** A pattern that starts with a literal character is not found in a
    text without that character. *)
Lemma search_from_miss c b i s :
  ~ In c s -> Re.search_from (Re.Cat (Re.chr c) b) i s = None.
Proof.
  revert i; induction s as [|x r IH]; intros i Hnot;
    cbn [Re.search_from]; unfold Re.match_at; rewrite m_cat.
  - reflexivity.
  - unfold Re.chr at 1. cbn [Re.m].
    destruct (N.eqb_spec c x) as [->|_]; [exfalso; apply Hnot; left; auto|].
    apply IH. intros Hin. apply Hnot. right. exact Hin.
Qed.

(** The pattern of a hidden file is found in every text with a dot. *)
Lemma search_from_hidden i s :
  In (ch ".") s -> Re.search_from hidden_pattern i s <> None.
Proof.
  revert i; induction s as [|x r IH]; intros i Hin; [destruct Hin|].
  cbn [Re.search_from].
  destruct (Re.match_at hidden_pattern i (x :: r)) as [[j t]|] eqn:Hm;
    [discriminate|].
  destruct Hin as [->|Hin]; [|apply IH, Hin].
  exfalso. revert Hm.
  unfold Re.match_at, hidden_pattern, Re.seq. cbn [fold_right].
  rewrite m_cat, m_chr, m_cat. cbn [Re.m]. apply rep_loop_total.
  intros j t. discriminate.
Qed.

Lemma dangerous_patterns_start_with_dot :
  Forall (fun pattern => exists b, pattern = Re.Cat (Re.chr (ch ".")) b)
         dangerous_patterns.
Proof.
  unfold dangerous_patterns, extension_pattern, hidden_pattern, Re.seq.
  cbn [map app fold_right]. repeat constructor; eexists; reflexivity.
Qed.

Lemma found_dangerous_pattern s :
  existsb (fun pattern => found pattern s) dangerous_patterns = true
  <-> In (ch ".") s.
Proof.
  split.
  - intros Hex. destruct (in_dec N.eq_dec (ch ".") s) as [Hin|Hnot];
      [exact Hin|exfalso].
    apply existsb_exists in Hex as (pattern & Hin & Hfound).
    pose proof dangerous_patterns_start_with_dot as Hall.
    rewrite Forall_forall in Hall. destruct (Hall _ Hin) as [b ->].
    unfold found, Re.search in Hfound.
    rewrite (search_from_miss _ b 0 s Hnot) in Hfound. discriminate Hfound.
  - intros Hin. apply existsb_exists. exists hidden_pattern. split.
    + unfold dangerous_patterns. apply in_or_app. right. left. reflexivity.
    + unfold found, Re.search.
      destruct (Re.search_from hidden_pattern 0 s) eqn:Hs; [reflexivity|].
      exfalso. apply (search_from_hidden 0 s Hin Hs).
Qed.

(** [is_safe_filename] accepts exactly the names that are not empty,
    hold no dot, hold none of the eight listed characters and have at
    most 255 characters.  The pattern for hidden files is searched for
    anywhere in the name, so any name with an extension is refused and
    the ten patterns for extensions decide nothing. *)
Theorem is_safe_filename_iff (filename : str) :
  is_safe_filename filename = true <->
  filename <> [] /\
  ~ In (ch ".") filename /\
  (forall c, In c dangerous_chars -> ~ In c filename) /\
  (length filename <= 255)%nat.
Proof.
  unfold is_safe_filename.
  destruct filename as [|x r]; cbn [is_empty].
  { split; [discriminate|]. intros [H _]. congruence. }
  set (filename := x :: r). cbv zeta.
  pose proof (found_dangerous_pattern (lower filename)) as Hpat.
  rewrite lower_dot in Hpat.
  destruct (existsb (fun pattern => found pattern (lower filename))
                    dangerous_patterns).
  { split; [discriminate|]. intros (_ & Hdot & _). exfalso.
    apply Hdot, Hpat. reflexivity. }
  assert (Hdot : ~ In (ch ".") filename).
  { intros Hin. apply Hpat in Hin. discriminate Hin. }
  destruct (existsb (fun char => contains [char] filename) dangerous_chars)
    eqn:Hchars.
  { split; [discriminate|]. intros (_ & _ & Hno & _). exfalso.
    apply existsb_exists in Hchars as (c & Hc & Hin).
    apply contains_char_iff in Hin. apply (Hno c Hc Hin). }
  assert (Hno : forall c, In c dangerous_chars -> ~ In c filename).
  { intros c Hc Hin.
    assert (existsb (fun char => contains [char] filename) dangerous_chars
            = true) as Hex.
    { apply existsb_exists. exists c. split; [exact Hc|].
      apply contains_char_iff, Hin. }
    congruence. }
  unfold len. destruct (Z.ltb_spec 255 (Z.of_nat (length filename))).
  - split; [discriminate|]. intros (_ & _ & _ & Hlen). lia.
  - split; [|reflexivity]. intros _.
    repeat split; [discriminate|exact Hdot|exact Hno|lia].
Qed.

End SafeFilenameFacts.

Section TempFilesFacts.

Import Imap Parser ParserFiles.

Local Open Scope Z_scope.

Variable os_remove_raises : str -> bool.

Local Abbreviation remove_one := (ParserFiles.remove_one os_remove_raises).
Local Abbreviation cleanup :=
  (ParserFiles.cleanup_temp_files os_remove_raises).

Lemma list_remove_length x l l' :
  list_remove x l = Some l' -> length l = S (length l').
Proof.
  revert l'; induction l as [|y r IH]; intros l'; cbn [list_remove];
    [discriminate|].
  destruct (temp_file_eqb y x); [intros H; inversion H; reflexivity|].
  destruct (list_remove x r) as [r'|]; [|discriminate].
  intros H; inversion H; subst. cbn [length]. rewrite (IH r' eq_refl).
  reflexivity.
Qed.

Lemma list_remove_In x l l' g :
  list_remove x l = Some l' -> In g l' -> In g l.
Proof.
  revert l'; induction l as [|y r IH]; intros l'; cbn [list_remove];
    [discriminate|].
  destruct (temp_file_eqb y x).
  - intros H; inversion H; subst. intros Hin. right. exact Hin.
  - destruct (list_remove x r) as [r'|]; [|discriminate].
    intros H; inversion H; subst. intros [->|Hin]; [left; reflexivity|].
    right. apply (IH r' eq_refl Hin).
Qed.

Lemma list_remove_keeps x l l' g :
  list_remove x l = Some l' -> temp_file_eqb g x = false ->
  In g l -> In g l'.
Proof.
  revert l'; induction l as [|y r IH]; intros l'; cbn [list_remove];
    [discriminate|].
  destruct (temp_file_eqb y x) eqn:Hy.
  - intros H; inversion H; subst. intros Hg [->|Hin]; [congruence|exact Hin].
  - destruct (list_remove x r) as [r'|]; [|discriminate].
    intros H; inversion H; subst. intros Hg [->|Hin]; [left; reflexivity|].
    right. apply (IH r' eq_refl Hg Hin).
Qed.

Lemma young_differs_from_old now g f :
  too_old now g = false -> too_old now f = true -> temp_file_eqb g f = false.
Proof.
  unfold too_old, temp_file_eqb. intros Hg Hf.
  destruct (Z.eqb_spec (tf_created_at g) (tf_created_at f)) as [Heq|_];
    [|apply andb_false_r].
  rewrite Heq in Hg. congruence.
Qed.

(** What one turn of the loop keeps. *)
Lemma untrack_facts f disk st :
  (length (temp_files (untrack f disk st))
   + cleaned_count (untrack f disk st)
   = length (temp_files st) + cleaned_count st)%nat /\
  (forall g, In g (temp_files (untrack f disk st)) -> In g (temp_files st)) /\
  (forall g, temp_file_eqb g f = false -> In g (temp_files st) ->
             In g (temp_files (untrack f disk st))).
Proof.
  unfold untrack.
  destruct (list_remove f (temp_files st)) as [l|] eqn:Hrm;
    cbn [temp_files cleaned_count].
  - split; [rewrite (list_remove_length _ _ _ Hrm); lia|]. split.
    + intros g. apply (list_remove_In _ _ _ _ Hrm).
    + intros g. apply (list_remove_keeps _ _ _ _ Hrm).
  - repeat split; auto.
Qed.

Lemma remove_one_facts st f :
  (length (temp_files (remove_one st f)) + cleaned_count (remove_one st f)
   = length (temp_files st) + cleaned_count st)%nat /\
  (forall g, In g (temp_files (remove_one st f)) -> In g (temp_files st)) /\
  (forall g, temp_file_eqb g f = false -> In g (temp_files st) ->
             In g (temp_files (remove_one st f))).
Proof.
  unfold ParserFiles.remove_one.
  destruct (negb (is_empty (path f)) && _)%bool;
    [destruct (os_remove_raises (path f))|];
    try apply untrack_facts.
  repeat split; auto.
Qed.

Lemma fold_remove_one_facts now files st :
  Forall (fun f => too_old now f = true) files ->
  (length (temp_files (fold_left remove_one files st))
   + cleaned_count (fold_left remove_one files st)
   = length (temp_files st) + cleaned_count st)%nat /\
  (forall g, In g (temp_files (fold_left remove_one files st)) ->
             In g (temp_files st)) /\
  (forall g, too_old now g = false -> In g (temp_files st) ->
             In g (temp_files (fold_left remove_one files st))).
Proof.
  intros Hold; revert st; induction Hold as [|f r Hf Hr IH]; intros st;
    cbn [fold_left]; [repeat split; auto|].
  destruct (IH (remove_one st f)) as (Hn & Hsub & Hkeep).
  destruct (remove_one_facts st f) as (Hn1 & Hsub1 & Hkeep1).
  split; [lia|]. split.
  - intros g Hin. apply Hsub1, Hsub, Hin.
  - intros g Hg Hin. apply Hkeep; [exact Hg|].
    apply Hkeep1; [apply (young_differs_from_old now); assumption|exact Hin].
Qed.

(** Whatever [os.remove] does: the number that [cleanup_temp_files]
    returns is the number of entries that left the tracking list; no
    entry is added to the list; and an entry that is not older than
    [MAX_TEMP_FILE_AGE] stays in it. *)
Theorem temp_files_cleanup_counts (tracked : list temp_file)
    (disk : list str) (now : time) :
  (length (temp_files (cleanup tracked disk now))
   + cleaned_count (cleanup tracked disk now) = length tracked)%nat /\
  (forall g, In g (temp_files (cleanup tracked disk now)) -> In g tracked) /\
  (forall g, In g tracked -> now - tf_created_at g <= MAX_TEMP_FILE_AGE ->
             In g (temp_files (cleanup tracked disk now))).
Proof.
  unfold ParserFiles.cleanup_temp_files. cbv zeta.
  destruct (fold_remove_one_facts now (filter (too_old now) tracked)
              {| temp_files := tracked; on_disk := disk;
                 cleaned_count := 0 |})
    as (Hn & Hsub & Hkeep).
  { apply Forall_forall. intros f Hin. apply filter_In in Hin. tauto. }
  cbn [temp_files cleaned_count] in *.
  split; [lia|]. split; [exact Hsub|].
  intros g Hin Hage. apply Hkeep; [|exact Hin].
  unfold too_old. apply Z.ltb_ge. exact Hage.
Qed.

(** *** When no removal fails *)

Lemma temp_file_eqb_refl f : temp_file_eqb f f = true.
Proof.
  unfold temp_file_eqb, PyStr.eqb.
  destruct (list_eq_dec N.eq_dec (path f) (path f)); [|congruence].
  apply Z.eqb_refl.
Qed.

Lemma list_remove_after_young now pre f r :
  Forall (fun g => too_old now g = false) pre -> too_old now f = true ->
  list_remove f (pre ++ f :: r) = Some (pre ++ r).
Proof.
  intros Hpre Hf; induction Hpre as [|g pre Hg Hpre IH];
    cbn [app list_remove].
  - rewrite temp_file_eqb_refl. reflexivity.
  - rewrite (young_differs_from_old now g f Hg Hf), IH. reflexivity.
Qed.

Hypothesis never_raises : forall p, os_remove_raises p = false.

Lemma fold_remove_one_filter now rest pre disk n :
  Forall (fun g => too_old now g = false) pre ->
  exists disk',
    fold_left remove_one (filter (too_old now) rest)
      {| temp_files := pre ++ rest; on_disk := disk; cleaned_count := n |}
    = {| temp_files := pre ++ filter (fun g => negb (too_old now g)) rest;
         on_disk := disk';
         cleaned_count := n + length (filter (too_old now) rest) |}.
Proof.
  revert pre disk n; induction rest as [|f r IH]; intros pre disk n Hpre;
    cbn [filter].
  - exists disk. cbn [fold_left length]. rewrite Nat.add_0_r. reflexivity.
  - destruct (too_old now f) eqn:Hf; cbn [negb fold_left].
    + assert (Hstep : exists disk1,
                 remove_one {| temp_files := pre ++ f :: r; on_disk := disk;
                               cleaned_count := n |} f
                 = {| temp_files := pre ++ r; on_disk := disk1;
                      cleaned_count := S n |}).
      { unfold ParserFiles.remove_one, untrack.
        cbn [temp_files on_disk cleaned_count].
        rewrite never_raises, (list_remove_after_young now pre f r Hpre Hf).
        destruct (negb (is_empty (path f)) && _)%bool; eauto. }
      destruct Hstep as [disk1 ->].
      destruct (IH pre disk1 (S n) Hpre) as [disk' ->].
      exists disk'. cbn [length]. f_equal. lia.
    + replace (pre ++ f :: r) with ((pre ++ [f]) ++ r)
        by (rewrite <- app_assoc; reflexivity).
      destruct (IH (pre ++ [f]) disk n) as [disk' ->].
      { apply Forall_app. split; [exact Hpre|]. repeat constructor. exact Hf. }
      exists disk'. rewrite <- app_assoc. reflexivity.
Qed.

(** When no [os.remove] raises, [cleanup_temp_files] leaves in the
    tracking list exactly the entries that are not older than
    [MAX_TEMP_FILE_AGE], in their order, and returns the number of the
    others. *)
Theorem temp_files_cleanup_exact (tracked : list temp_file)
    (disk : list str) (now : time) :
  temp_files (cleanup tracked disk now)
  = filter (fun g => negb (too_old now g)) tracked /\
  cleaned_count (cleanup tracked disk now)
  = length (filter (too_old now) tracked).
Proof.
  unfold ParserFiles.cleanup_temp_files. cbv zeta.
  destruct (fold_remove_one_filter now tracked [] disk 0%nat (Forall_nil _))
    as [disk' H].
  cbn [app] in H. rewrite H. split; reflexivity.
Qed.

End TempFilesFacts.

Section TempFilesScenario.

Import Imap Parser ParserFiles.

Local Open Scope Z_scope.

(** Two tracked files, written at 0 and one hour and a half later. *)
Definition two_temp_files : list temp_file :=
  [ {| path := lit "temp_downloads/temp_0_a.pdf"; tf_created_at := 0 |};
    {| path := lit "temp_downloads/temp_5400_b.pdf";
       tf_created_at := 5400 * 1000000 |} ].

Lemma temp_files_cleanup_exact_witness :
  temp_files (cleanup_temp_files (fun _ => false) two_temp_files
                (map path two_temp_files) (7200 * 1000000))
  = filter (fun g => negb (too_old (7200 * 1000000) g)) two_temp_files /\
  cleaned_count (cleanup_temp_files (fun _ => false) two_temp_files
                   (map path two_temp_files) (7200 * 1000000))
  = length (filter (too_old (7200 * 1000000)) two_temp_files).
Proof.
  apply (temp_files_cleanup_exact (fun _ => false)).
  intros p. reflexivity.
Defined.

End TempFilesScenario.

(** ** The fetching task *)

Section BackgroundFacts.

Import Registry RegistryAdmin Imap Background.

Local Open Scope Z_scope.

Variable search_emails : str -> option time -> outcome (list str).
Variable fetch_message : str -> outcome (option message_data).
Variable prepare_attachment_for_telegram : attachment -> outcome bool.

Local Abbreviation process :=
  (_process_new_message prepare_attachment_for_telegram).
Local Abbreviation fetch_for_user :=
  (_fetch_emails_for_user search_emails fetch_message
     prepare_attachment_for_telegram).

Lemma process_emails_processed st md :
  emails_processed (process st md) = emails_processed st /\
  errors_encountered (process st md) = errors_encountered st.
Proof.
  unfold _process_new_message. destruct (has_attachments md); [|auto].
  generalize (attachments md) st. intros l.
  induction l as [|a r IH]; intros st0; cbn [fold_left]; [auto|].
  destruct (prepare_attachment_for_telegram a) as [e|[|]];
    rewrite (proj1 (IH _)), (proj2 (IH _)); auto.
Qed.

Lemma fold_process_emails_processed messages st :
  emails_processed (fold_left process messages st) = emails_processed st /\
  errors_encountered (fold_left process messages st)
  = errors_encountered st.
Proof.
  revert st; induction messages as [|md r IH]; intros st; cbn [fold_left];
    [auto|].
  destruct (IH (process st md)) as [-> ->]. apply process_emails_processed.
Qed.

Lemma update_one_if_hit f g u l d :
  find f l = Some d ->
  (forall x, f x = true -> f (u x) = true) ->
  find f (fst (update_one_if f g u l)) = Some (u d).
Proof.
  intros Hfind Hkeep; induction l as [|x r IH];
    cbn [find update_one_if] in *; [discriminate|].
  destruct (f x) eqn:Hx.
  - inversion Hfind; subst. cbn [fst find]. rewrite (Hkeep _ Hx). reflexivity.
  - destruct (update_one_if f g u r) as [r' n]. cbn [fst find] in *.
    rewrite Hx. auto.
Qed.

(** One run of [_fetch_emails_for_user] for a user with an active
    entry.  When the fetch finds no message, nothing is written: in
    particular [last_checked] stays.  When it finds messages, however
    many, the entry's [message_count] and [total_messages_received] go
    up by exactly one, [last_checked] and [last_message_date] are set,
    and the task's own counter [emails_processed] goes up by the number
    of messages. *)
Theorem fetch_emails_for_user_counts_once (l : list doc) (st : stats)
    (user_data d : doc) (t_inc t_chk : time) :
  email user_data <> [] ->
  find (active_for (telegram_id user_data)) l = Some d ->
  match fetch_message_list search_emails fetch_message (email user_data)
          MAX_INBOX_MESSAGES (Some (last_checked user_data)) with
  | inr (m :: ms) =>
      exists l' st',
        fetch_for_user {| connected := true; collection := l |} st
          user_data t_inc t_chk
        = ({| connected := true; collection := l' |}, st') /\
        get_user {| connected := true; collection := l' |}
          (telegram_id user_data) true
        = ret (Some (set_last_checked t_chk (inc_messages t_inc d))) /\
        message_count (set_last_checked t_chk (inc_messages t_inc d))
        = message_count d + 1 /\
        emails_processed st' = (emails_processed st + S (length ms))%nat /\
        errors_encountered st' = errors_encountered st /\
        map telegram_id l' = map telegram_id l
  | _ =>
      fst (fetch_for_user {| connected := true; collection := l |} st
             user_data t_inc t_chk)
      = {| connected := true; collection := l |}
  end.
Proof.
  intros Hemail Hfind.
  unfold _fetch_emails_for_user. cbv zeta.
  destruct (email user_data) as [|c e] eqn:He; [congruence|].
  cbn [is_empty].
  destruct (fetch_message_list _ _ (c :: e) _ _) as [err|[|m ms]];
    [reflexivity|reflexivity|].
  cbn [length Nat.ltb Nat.leb].
  set (id := telegram_id user_data) in *.
  set (st1 := fold_left process (m :: ms) st).
  unfold increment_message_count, update_last_checked.
  cbn [connected negb collection].
  destruct (update_one_hit (active_for id) (inc_messages t_inc) l d Hfind)
    as [_ Hfind1]; [auto|].
  pose proof (update_one_ids (active_for id) (inc_messages t_inc) l
                (fun _ => eq_refl)) as Hids1.
  destruct (update_one (active_for id) (inc_messages t_inc) l) as [l1 n1].
  cbn [fst with_collection connected collection negb] in *.
  pose proof (update_one_if_hit (active_for id)
                (fun x => negb (last_checked x =? t_chk))
                (set_last_checked t_chk) l1 _ Hfind1 (fun _ H => H))
    as Hfind2.
  pose proof (update_one_if_ids (active_for id)
                (fun x => negb (last_checked x =? t_chk))
                (set_last_checked t_chk) l1 (fun _ => eq_refl)) as Hids2.
  destruct (update_one_if _ _ _ l1) as [l2 n2].
  cbn [fst with_collection connected collection] in *.
  exists l2, (add_emails (S (length ms)) st1).
  destruct (fold_process_emails_processed (m :: ms) st) as [Hep Herr].
  repeat split.
  - rewrite get_user_active, Hfind2. reflexivity.
  - cbn [emails_processed add_emails]. fold st1 in Hep. rewrite Hep.
    reflexivity.
  - cbn [errors_encountered add_emails]. exact Herr.
  - congruence.
Qed.

End BackgroundFacts.

Section BackgroundScenario.

Import Registry RegistryAdmin Imap Background.

Local Open Scope Z_scope.

Definition no_stats : stats :=
  {| emails_processed := 0; attachments_processed := 0;
     errors_encountered := 0 |}.

(** The user of [one_active]. *)
Definition user_7 : doc :=
  new_user_doc 7 (lit "abcdef_a1b2c3d4@seveton.site") None 0.

Lemma fetch_emails_for_user_counts_once_witness :
  exists l' st',
    _fetch_emails_for_user search_three fetch_all (fun _ => ret true)
      {| connected := true; collection := one_active |} no_stats
      user_7 10 11
    = ({| connected := true; collection := l' |}, st') /\
    get_user {| connected := true; collection := l' |}
      (telegram_id user_7) true
    = ret (Some (set_last_checked 11 (inc_messages 10 user_7))) /\
    message_count (set_last_checked 11 (inc_messages 10 user_7))
    = message_count user_7 + 1 /\
    emails_processed st' = (emails_processed no_stats + 3)%nat /\
    errors_encountered st' = errors_encountered no_stats /\
    map telegram_id l' = map telegram_id one_active.
Proof.
  apply (fetch_emails_for_user_counts_once search_three fetch_all
           (fun _ => ret true) one_active no_stats user_7 user_7 10 11).
  - discriminate.
  - reflexivity.
Defined.

End BackgroundScenario.
